(** * The Weisfeiler-Lehman graph kernel of [wlgk.py]

    A shallow embedding of the unlabelled Weisfeiler-Lehman graph kernel:
    colour refinement, the colour histogram of a graph and the cosine
    similarity of two histograms, followed by the properties stated for
    them.

    Python values are modelled as follows.
    - [int] is [Z]; node identifiers and colours are [int]s.
    - [Dict[int, int]] is [gmap Z Z]; a set of colours is [gset Z].
    - A failing subscript [d[k]] raises [KeyError]; fallible code lives in
      the [outcome] monad.
    - The builtin [hash] is a parameter of the development: every property
      holds whatever function from hashable values to [int] it is.
    - A networkx graph is the record [Graph] of the queries [wlgk.py]
      makes of it.
    - numpy's float64 arithmetic is an interface, [Float64], with two
      instances: IEEE binary64 itself ([PrimFloat], executable) and exact
      arithmetic on the reals extended with the infinities and NaN
      ([ideal]).  The properties of the kernel's value are proved for
      every arithmetic that rounds as the standard model of floating-point
      arithmetic prescribes ([StandardModel], unit roundoff [2^-53]);
      binary64 is shown to be one ([binary64_model]).
    - numpy holds the counts of a histogram in an [int64] array; a count
      outside [int64] makes numpy raise, and the comparator is modelled
      on histograms of [int64] counts only.
    - Python enumerates the set of colours in an order of its own, which
      depends on the values and on the history of the set; properties of
      the comparator are stated for every enumeration of the set. *)

From Stdlib Require Import Reals Lra Floats.
From stdpp Require Import gmap strings list fin_maps sorting.

Local Open Scope Z_scope.

(** ** Python values *)

(** The values [wlgk.py] passes to [hash]: an [int], or a tuple of [int]s. *)
Inductive hashable : Type :=
  | HInt (n : Z)
  | HTuple (t : list Z).

Inductive exn : Type :=
  | KeyError (key : Z).

Inductive outcome (A : Type) : Type :=
  | Return (a : A)
  | Raise (e : exn).
Arguments Return {A} a.
Arguments Raise {A} e.

#[global] Instance outcome_bind : MBind outcome := λ A B k m,
  match m with
  | Return a => k a
  | Raise e => Raise e
  end.

(** [for x in xs: acc = body(acc, x)] with a body that may raise. *)
Fixpoint for_each {A S : Type} (xs : list A) (body : S → A → outcome S) (acc : S)
    : outcome S :=
  match xs with
  | [] => Return acc
  | x :: xs' => acc' ← body acc x; for_each xs' body acc'
  end.

(** [[f(x) for x in xs]] with an [f] that may raise. *)
Fixpoint comprehension {A B : Type} (f : A → outcome B) (xs : list A)
    : outcome (list B) :=
  match xs with
  | [] => Return []
  | x :: xs' => y ← f x; ys ← comprehension f xs'; Return (y :: ys)
  end.

(** [d[k]] *)
Definition getitem (d : gmap Z Z) (k : Z) : outcome Z :=
  match d !! k with
  | Some v => Return v
  | None => Raise (KeyError k)
  end.

(** [d.get(k, 0)] *)
Definition get0 (d : gmap Z Z) (k : Z) : Z := default 0 (d !! k).

(** [d.values()], as a list.  Python enumerates a dict in insertion order
    and a [gmap] in key order; [_update_colour_counts], the only consumer,
    does not depend on the order (lemma [update_colour_counts_Permutation]). *)
Definition dict_values (d : gmap Z Z) : list Z := (map_to_list d).*2.

(** [sorted(l)] on a list of [int]s. *)
Fixpoint insort (x : Z) (l : list Z) : list Z :=
  match l with
  | [] => [x]
  | y :: l' => if x <=? y then x :: l else y :: insort x l'
  end.

Definition sorted (l : list Z) : list Z := foldr insort [] l.

(** ** Graphs *)

(** What [wlgk.py] asks of a networkx graph [G]: [G.is_directed()],
    [G.nodes()], [G.degree(n)], [G.in_degree(n)], [G.out_degree(n)],
    [G.neighbors(n)], [G.predecessors(n)] and [G.successors(n)].  The
    queries at a node are meant for the nodes of the graph, as [wlgk.py]
    makes them; networkx raises [NetworkXError] at any other node. *)
Record Graph : Type := {
  is_directed : bool;
  nodes : list Z;
  degree : Z → Z;
  in_degree : Z → Z;
  out_degree : Z → Z;
  neighbors : Z → list Z;
  predecessors : Z → list Z;
  successors : Z → list Z
}.

(** The nodes whose colours a refinement round reads at [n]. *)
Definition adjacent (G : Graph) (n : Z) : list Z :=
  if is_directed G then predecessors G n ++ successors G n else neighbors G n.

(** The invariants networkx maintains: a node view lists every node once,
    and every neighbour, predecessor and successor of a node is a node. *)
Definition well_formed (G : Graph) : bool :=
  bool_decide (NoDup (nodes G))
  && forallb (λ n, forallb (λ m, bool_decide (m ∈ nodes G)) (adjacent G n)) (nodes G).

(** [len(G.nodes()) == 0] *)
Definition no_nodes (G : Graph) : bool := bool_decide (length (nodes G) = 0%nat).

(** ** Colour refinement *)

Section Colouring.

Context (hash : hashable → Z).

Definition _get_initial_colours (G : Graph) : gmap Z Z :=
  if negb (is_directed G) then
    foldl (λ d node, <[node := hash (HInt (degree G node))]> d) ∅ (nodes G)
  else
    foldl (λ d node,
             <[node := hash (HTuple [in_degree G node; out_degree G node])]> d)
          ∅ (nodes G).

Definition _update_colour_counts (colour_counts current_node_colours : gmap Z Z)
    : gmap Z Z :=
  foldl (λ colour_counts colour,
           <[colour := get0 colour_counts colour + 1]> colour_counts)
        colour_counts (dict_values current_node_colours).

Definition _new_colour_from_colour_pair (colour_1 colour_2 : Z) : Z :=
  hash (HTuple (sorted [colour_1; colour_2])).

Definition _new_colour_from_neighbours (G : Graph) (node : Z)
    (node_colours : gmap Z Z) : outcome Z :=
  if bool_decide (is_directed G = false) then
    colour_list ← comprehension (getitem node_colours) (neighbors G node);
    Return (hash (HTuple (sorted colour_list)))
  else
    colour_list ← comprehension (getitem node_colours) (predecessors G node);
    let new_colour_predecessors := hash (HTuple (sorted colour_list)) in
    colour_list ← comprehension (getitem node_colours) (successors G node);
    let new_colour_successors := hash (HTuple (sorted colour_list)) in
    Return (hash (HTuple [new_colour_predecessors; new_colour_successors])).

(** The body of [for node in G.nodes()]. *)
Definition refine_node (G : Graph) (node_colours new_node_colours : gmap Z Z)
    (node : Z) : outcome (gmap Z Z) :=
  old_colour ← getitem node_colours node;
  new_colour ← _new_colour_from_neighbours G node node_colours;
  let updated_colour_set := _new_colour_from_colour_pair old_colour new_colour in
  Return (<[node := updated_colour_set]> new_node_colours).

(** The body of [for _ in range(num_iterations)], on the pair
    [(node_colours, colour_counts)]. *)
Definition refine_round (G : Graph) (st : gmap Z Z * gmap Z Z)
    : outcome (gmap Z Z * gmap Z Z) :=
  let '(node_colours, colour_counts) := st in
  new_node_colours ← for_each (nodes G) (refine_node G node_colours) ∅;
  let node_colours := new_node_colours in
  Return (node_colours, _update_colour_counts colour_counts node_colours).

Fixpoint refine_rounds (G : Graph) (rounds : nat) (st : gmap Z Z * gmap Z Z)
    : outcome (gmap Z Z * gmap Z Z) :=
  match rounds with
  | O => Return st
  | S rounds' => st' ← refine_round G st; refine_rounds G rounds' st'
  end.

(** [range(num_iterations)] is empty for [num_iterations <= 0], as is
    [Z.to_nat]. *)
Definition _compute_colour_counts (G : Graph) (num_iterations : Z)
    : outcome (gmap Z Z) :=
  let colour_counts := ∅ in
  let node_colours := _get_initial_colours G in
  let colour_counts := _update_colour_counts colour_counts node_colours in
  st ← refine_rounds G (Z.to_nat num_iterations) (node_colours, colour_counts);
  Return st.2.

End Colouring.

(** ** Float arithmetic *)

(** The float64 operations the kernel uses: conversion of an [int] count,
    the literals [0.0] and [1.0], addition, multiplication, division and
    square root.  None of them raises: numpy divides by zero to an
    infinity or to NaN (and warns on the error stream).  The counts
    converted are those of an [int64] array. *)
Class Float64 (F : Type) : Type := {
  f_of_int : Z → F;
  f_zero : F;
  f_one : F;
  f_add : F → F → F;
  f_mul : F → F → F;
  f_div : F → F → F;
  f_sqrt : F → F
}.

(** ** The kernel *)

Section Kernel.

Context (hash : hashable → Z) {F : Type} `{!Float64 F}.

(** [np.dot(a, b)] on two vectors of the same length: the sum of the
    products, each product rounded and the sum accumulated from [0.0] in
    the order of the vectors.  numpy leaves the order of accumulation to
    its BLAS; the properties below hold for every order of the entries. *)
Definition np_dot (a b : list F) : F := foldl f_add f_zero (zip_with f_mul a b).

(** [np.linalg.norm(v)] on a vector of [int64] counts: the vector is
    converted to float64 and the square root of its dot product with itself
    is taken. *)
Definition np_linalg_norm (v : list Z) : F :=
  let x := f_of_int <$> v in
  f_sqrt (np_dot x x).

(** [v / s], a vector of [int64] counts divided by a float64 scalar. *)
Definition np_divide (v : list Z) (s : F) : list F :=
  (λ c, f_div (f_of_int c) s) <$> v.

(** [[d.get(c, 0) for c in union_colours]] *)
Definition colour_vector (union_colours : list Z) (d : gmap Z Z) : list Z :=
  get0 d <$> union_colours.

(** The comparator on a given enumeration of the union of the colours. *)
Definition wlgk_over (union_colours : list Z) (g1_colour_count g2_colour_count : gmap Z Z)
    : F :=
  let g1_colour_vector := colour_vector union_colours g1_colour_count in
  let g2_colour_vector := colour_vector union_colours g2_colour_count in
  let norm_g1_colour_vector :=
    np_divide g1_colour_vector (np_linalg_norm g1_colour_vector) in
  let norm_g2_colour_vector :=
    np_divide g2_colour_vector (np_linalg_norm g2_colour_vector) in
  np_dot norm_g1_colour_vector norm_g2_colour_vector.

(** Python enumerates the set [union_colours] in an order of its own; here
    it is the order of [elements].  Without rounding the result is the same
    for every enumeration (lemma [comparator_any_order]); with rounding
    the enumerations agree up to the rounding error, and the properties of
    the comparator are stated on [wlgk_over], for every enumeration. *)
Definition _compute_wlgk_from_colour_counts (g1_colour_count g2_colour_count : gmap Z Z)
    : F :=
  let union_colours := dom g1_colour_count ∪ dom g2_colour_count in
  wlgk_over (elements union_colours) g1_colour_count g2_colour_count.

(** [wlgk] returns what it printed together with its result. *)
Definition wlgk (G1 G2 : Graph) (num_iterations : Z) : list string * outcome F :=
  if no_nodes G1 || no_nodes G2 then
    (["Warning: One or both graphs have no nodes. Returning 1.0."%string],
     Return f_one)
  else
    ([],
     g1_colour_count ← _compute_colour_counts hash G1 num_iterations;
     g2_colour_count ← _compute_colour_counts hash G2 num_iterations;
     Return (_compute_wlgk_from_colour_counts g1_colour_count g2_colour_count)).

End Kernel.

(** ** IEEE binary64 *)

(** The conversion of an [int] count: the float64 nearest to the integer,
    ties to even. *)
Definition float_of_int (z : Z) : float :=
  SF2Prim (SpecFloat.binary_normalize FloatOps.prec FloatOps.emax z 0 false).

#[global] Instance binary64 : Float64 float := {|
  f_of_int := float_of_int;
  f_zero := 0%float;
  f_one := 1%float;
  f_add := PrimFloat.add;
  f_mul := PrimFloat.mul;
  f_div := PrimFloat.div;
  f_sqrt := PrimFloat.sqrt
|}.

(** ** Exact arithmetic with infinities and NaN *)

(** The values of float64 without rounding: a real number, an infinity or
    NaN.  Zero is unsigned, and a non-zero number divided by zero is the
    infinity of the sign of the numerator.  This arithmetic is the
    degenerate case of the standard model in which every rounding error is
    zero; it is not the arithmetic of numpy. *)
Inductive ideal : Type :=
  | Fin (r : R)
  | PInf
  | NInf
  | NaN.

Definition is_zero (r : R) : bool := if Req_dec_T r 0 then true else false.
Definition is_neg (r : R) : bool := if Rlt_dec r 0 then true else false.
Definition inf (neg : bool) : ideal := if neg then NInf else PInf.

Definition ideal_add (x y : ideal) : ideal :=
  match x, y with
  | NaN, _ | _, NaN => NaN
  | Fin a, Fin b => Fin (a + b)
  | PInf, NInf | NInf, PInf => NaN
  | PInf, _ | _, PInf => PInf
  | NInf, _ | _, NInf => NInf
  end.

Definition ideal_mul (x y : ideal) : ideal :=
  match x, y with
  | NaN, _ | _, NaN => NaN
  | Fin a, Fin b => Fin (a * b)
  | PInf, Fin b | Fin b, PInf => if is_zero b then NaN else inf (is_neg b)
  | NInf, Fin b | Fin b, NInf => if is_zero b then NaN else inf (negb (is_neg b))
  | PInf, PInf | NInf, NInf => PInf
  | PInf, NInf | NInf, PInf => NInf
  end.

Definition ideal_div (x y : ideal) : ideal :=
  match x, y with
  | NaN, _ | _, NaN => NaN
  | Fin a, Fin b =>
      if is_zero b then (if is_zero a then NaN else inf (is_neg a))
      else Fin (a / b)
  | Fin _, (PInf | NInf) => Fin 0
  | (PInf | NInf), (PInf | NInf) => NaN
  | PInf, Fin b => inf (is_neg b)
  | NInf, Fin b => inf (negb (is_neg b))
  end.

Definition ideal_sqrt (x : ideal) : ideal :=
  match x with
  | Fin a => if is_neg a then NaN else Fin (R_sqrt.sqrt a)
  | PInf => PInf
  | NInf | NaN => NaN
  end.

#[global] Instance exact : Float64 ideal := {|
  f_of_int := λ z, Fin (IZR z);
  f_zero := Fin 0;
  f_one := Fin 1;
  f_add := ideal_add;
  f_mul := ideal_mul;
  f_div := ideal_div;
  f_sqrt := ideal_sqrt
|}.

(** ** Concrete graphs and a concrete hash *)

(** Graphs as networkx builds them from [add_nodes_from(ns)] followed by
    [add_edges_from(es)]: nodes and adjacency entries are kept in order of
    first insertion, and an undirected self-loop counts twice in the degree. *)
Definition add_unique (x : Z) (l : list Z) : list Z :=
  if bool_decide (x ∈ l) then l else l ++ [x].

Definition nx_nodes (ns : list Z) (es : list (Z * Z)) : list Z :=
  foldl (λ acc e, add_unique e.2 (add_unique e.1 acc)) (foldl (flip add_unique) [] ns) es.

Definition nx_succ (es : list (Z * Z)) (n : Z) : list Z :=
  foldl (λ acc e, if bool_decide (e.1 = n) then add_unique e.2 acc else acc) [] es.

Definition nx_pred (es : list (Z * Z)) (n : Z) : list Z :=
  foldl (λ acc e, if bool_decide (e.2 = n) then add_unique e.1 acc else acc) [] es.

Definition nx_adj (es : list (Z * Z)) (n : Z) : list Z :=
  foldl (λ acc e,
           let acc := if bool_decide (e.1 = n) then add_unique e.2 acc else acc in
           if bool_decide (e.2 = n) then add_unique e.1 acc else acc) [] es.

Definition len (l : list Z) : Z := Z.of_nat (length l).

(** [nx.Graph] *)
Definition nx_Graph (ns : list Z) (es : list (Z * Z)) : Graph := {|
  is_directed := false;
  nodes := nx_nodes ns es;
  degree := λ n, len (nx_adj es n) + (if bool_decide (n ∈ nx_adj es n) then 1 else 0);
  in_degree := λ _, 0;
  out_degree := λ _, 0;
  neighbors := nx_adj es;
  predecessors := λ _, [];
  successors := λ _, []
|}.

(** [nx.DiGraph] *)
Definition nx_DiGraph (ns : list Z) (es : list (Z * Z)) : Graph := {|
  is_directed := true;
  nodes := nx_nodes ns es;
  degree := λ n, len (nx_pred es n) + len (nx_succ es n);
  in_degree := λ n, len (nx_pred es n);
  out_degree := λ n, len (nx_succ es n);
  neighbors := nx_succ es;
  predecessors := nx_pred es;
  successors := nx_succ es
|}.

(** The builtin [hash] of CPython 3.8 and later on a 64-bit build, for the
    examples: an [int] is reduced modulo [2^61 - 1] and keeps its sign, a
    tuple is mixed lane by lane in 64-bit wrap-around arithmetic, and -1
    is never a hash. *)
Definition wrap64 (x : Z) : Z := x mod 2 ^ 64.
Definition signed64 (x : Z) : Z := if x <? 2 ^ 63 then x else x - 2 ^ 64.

Definition hash_int (n : Z) : Z :=
  let h := Z.sgn n * (Z.abs n mod (2 ^ 61 - 1)) in
  if h =? -1 then -2 else h.

Definition XXPRIME_1 : Z := 11400714785074694791.
Definition XXPRIME_2 : Z := 14029467366897019727.
Definition XXPRIME_5 : Z := 2870177450012600261.
Definition XXROTATE (x : Z) : Z := wrap64 (Z.lor (Z.shiftl x 31) (Z.shiftr x 33)).

Definition hash_tuple (t : list Z) : Z :=
  let acc :=
    foldl (λ acc item,
             let lane := wrap64 (hash_int item) in
             let acc := wrap64 (acc + lane * XXPRIME_2) in
             let acc := XXROTATE acc in
             wrap64 (acc * XXPRIME_1))
          XXPRIME_5 t in
  let acc := wrap64 (acc + Z.lxor (len t) (Z.lxor XXPRIME_5 3527539)) in
  if acc =? 2 ^ 64 - 1 then 1546275796 else signed64 acc.

Definition cpython_hash (v : hashable) : Z :=
  match v with
  | HInt n => hash_int n
  | HTuple t => hash_tuple t
  end.

(** The graphs of [test_wlgk.py]. *)
Definition G1 : Graph := nx_DiGraph [] [(1, 2); (2, 3); (3, 1)].
Definition G2 : Graph := nx_DiGraph [] [(1, 2); (2, 3); (3, 4); (4, 1)].
Definition G3 : Graph := nx_Graph [] [(1, 2); (2, 3); (3, 1)].
Definition G4 : Graph := nx_Graph [] [(1, 2); (2, 3); (3, 4); (4, 1)].

(** ** Vocabulary of the properties *)

(** The sum of the counts of a histogram. *)
Definition total (h : gmap Z Z) : Z := map_fold (λ _ v acc, v + acc) 0 h.

(** Every recorded count is at least one. *)
Definition counts_positive (h : gmap Z Z) : Prop := map_Forall (λ _ v, 1 ≤ v) h.

(** The number of occurrences of a colour in a list of colours. *)
Definition occurrences (c : Z) (l : list Z) : Z :=
  len (filter (λ x, x = c) l).

(** One step of the loop of [_update_colour_counts]. *)
Definition tally (colour_counts : gmap Z Z) (colour : Z) : gmap Z Z :=
  <[colour := get0 colour_counts colour + 1]> colour_counts.

(** The colour the initial colourer gives a node. *)
Definition initial_colour (hash : hashable → Z) (G : Graph) (node : Z) : Z :=
  if is_directed G then hash (HTuple [in_degree G node; out_degree G node])
  else hash (HInt (degree G node)).

(** The histogram of the initial colouring alone. *)
Definition initial_histogram (hash : hashable → Z) (G : Graph) : gmap Z Z :=
  _update_colour_counts ∅ (_get_initial_colours hash G).

(** What holds of [(node_colours, colour_counts)] after [passes]
    accumulation passes over a graph. *)
Definition after_passes (G : Graph) (passes : Z) (st : gmap Z Z * gmap Z Z) : Prop :=
  dom st.1 = list_to_set (nodes G)
  ∧ total st.2 = passes * len (nodes G)
  ∧ counts_positive st.2.

(** The dot product of two lists of reals. *)
Fixpoint dotR (a b : list R) : R :=
  match a, b with
  | x :: a', y :: b' => x * y + dotR a' b'
  | _, _ => 0
  end.

(** A count vector as a list of reals. *)
Definition realv (v : list Z) : list R := IZR <$> v.

(** The Euclidean norm of a count vector, as a real. *)
Definition normR (v : list Z) : R := R_sqrt.sqrt (dotR (realv v) (realv v)).

(** The cosine of the angle between two count vectors. *)
Definition cosine (l : list Z) (h1 h2 : gmap Z Z) : R :=
  (dotR (realv (colour_vector l h1)) (realv (colour_vector l h2))
   / (normR (colour_vector l h1) * normR (colour_vector l h2)))%R.

(** The tolerance of [test_wlgk.py]. *)
Definition SMALL_VALUE : R := (1 / 100000)%R.

(** The tolerance and the assertions of [test_wlgk.py], in binary64. *)
Definition SMALL_VALUE_f : float := 0x1.4f8b588e368f1p-17%float.

Definition in_range (similarity : float) : bool :=
  PrimFloat.leb (0 - SMALL_VALUE_f) similarity
  && PrimFloat.leb similarity (1 + SMALL_VALUE_f).

Definition near_one (similarity : float) : bool :=
  PrimFloat.ltb (PrimFloat.abs (1 - similarity)) SMALL_VALUE_f.

Definition passes (check : float → bool) (run : list string * outcome float) : bool :=
  match run.2 with
  | Return similarity => check similarity
  | Raise _ => false
  end.

(** ** Vocabulary of the further properties *)

(** The first element of a list that is not among the keys. *)
Fixpoint first_missing (keys : gset Z) (l : list Z) : option Z :=
  match l with
  | [] => None
  | n :: l' => if bool_decide (n ∈ keys) then first_missing keys l' else Some n
  end.

(** The colours of the coloured nodes of a list. *)
Definition colours_at (node_colours : gmap Z Z) (l : list Z) : list Z :=
  omap (λ n, node_colours !! n) l.

(** The signature a node gets from the colours of its neighbourhood. *)
Definition neighbourhood_signature (hash : hashable → Z) (G : Graph)
    (node_colours : gmap Z Z) (node : Z) : Z :=
  if is_directed G then
    hash (HTuple [hash (HTuple (sorted (colours_at node_colours (predecessors G node))));
                  hash (HTuple (sorted (colours_at node_colours (successors G node))))])
  else hash (HTuple (sorted (colours_at node_colours (neighbors G node)))).

(** The first node, in the order of a refinement round, that is adjacent
    to something which is not a node of the graph. *)
Fixpoint first_dangling (G : Graph) (ns : list Z) : option Z :=
  match ns with
  | [] => None
  | n :: ns' =>
      match first_missing (list_to_set (nodes G)) (adjacent G n) with
      | Some key => Some key
      | None => first_dangling G ns'
      end
  end.

Definition dangling (G : Graph) : option Z := first_dangling G (nodes G).

(** The colour a refinement round gives a node: its previous colour
    combined with the signature of its neighbourhood.  (Every node has a
    colour when a round starts; [get0] is only a total lookup here.) *)
Definition refined_colour (hash : hashable → Z) (G : Graph)
    (node_colours : gmap Z Z) (node : Z) : Z :=
  _new_colour_from_colour_pair hash (get0 node_colours node)
    (neighbourhood_signature hash G node_colours node).

(** The colouring a successful refinement round produces. *)
Definition refine_colouring (hash : hashable → Z) (G : Graph)
    (node_colours : gmap Z Z) : gmap Z Z :=
  foldl (λ d node, <[node := refined_colour hash G node_colours node]> d) ∅ (nodes G).

(** The colouring and the histogram after a number of successful rounds. *)
Fixpoint colouring_after (hash : hashable → Z) (G : Graph) (rounds : nat) : gmap Z Z :=
  match rounds with
  | O => _get_initial_colours hash G
  | S rounds' => refine_colouring hash G (colouring_after hash G rounds')
  end.

Fixpoint histogram_after (hash : hashable → Z) (G : Graph) (rounds : nat) : gmap Z Z :=
  match rounds with
  | O => initial_histogram hash G
  | S rounds' =>
      _update_colour_counts (histogram_after hash G rounds')
        (colouring_after hash G (S rounds'))
  end.

(** A graph adjacent to a node it does not have; networkx builds none. *)
Definition dangling_graph : Graph := {|
  is_directed := false;
  nodes := [1];
  degree := λ _, 1;
  in_degree := λ _, 0;
  out_degree := λ _, 0;
  neighbors := λ _, [2];
  predecessors := λ _, [];
  successors := λ _, []
|}.

(** [G'] is [G] with every node [n] renamed to [π n]; the nodes and the
    neighbours of a node may be enumerated in another order. *)
Record relabelled (π : Z → Z) (G G' : Graph) : Prop := {
  relabelled_directed : is_directed G' = is_directed G;
  relabelled_nodes : nodes G' ≡ₚ π <$> nodes G;
  relabelled_degree : ∀ n, n ∈ nodes G → degree G' (π n) = degree G n;
  relabelled_in_degree : ∀ n, n ∈ nodes G → in_degree G' (π n) = in_degree G n;
  relabelled_out_degree : ∀ n, n ∈ nodes G → out_degree G' (π n) = out_degree G n;
  relabelled_neighbors :
    ∀ n, n ∈ nodes G → neighbors G' (π n) ≡ₚ π <$> neighbors G n;
  relabelled_predecessors :
    ∀ n, n ∈ nodes G → predecessors G' (π n) ≡ₚ π <$> predecessors G n;
  relabelled_successors :
    ∀ n, n ∈ nodes G → successors G' (π n) ≡ₚ π <$> successors G n
}.

(** The triangle of the test suite with its nodes renamed and its edges
    inserted in another order. *)
Definition shift10 (n : Z) : Z := n + 10.
Definition G3_shifted : Graph := nx_Graph [] [(12, 13); (11, 12); (13, 11)].

(** A histogram with every count multiplied by [a]. *)
Definition scale (a : Z) (h : gmap Z Z) : gmap Z Z := (λ v, a * v) <$> h.

(** What a node of a regular graph looks like: its degree and its number
    of neighbours (undirected), or its in- and out-degree and its numbers
    of predecessors and successors (directed). *)
Record profile : Type := {
  p_directed : bool;
  p_degree : Z;
  p_in_degree : Z;
  p_out_degree : Z;
  p_neighbors : nat;
  p_predecessors : nat;
  p_successors : nat
}.

Definition has_profile (p : profile) (G : Graph) (n : Z) : bool :=
  if is_directed G then
    bool_decide (in_degree G n = p_in_degree p)
    && bool_decide (out_degree G n = p_out_degree p)
    && bool_decide (length (predecessors G n) = p_predecessors p)
    && bool_decide (length (successors G n) = p_successors p)
  else
    bool_decide (degree G n = p_degree p)
    && bool_decide (length (neighbors G n) = p_neighbors p).

(** Every node of the graph has the profile. *)
Definition regular (p : profile) (G : Graph) : bool :=
  bool_decide (is_directed G = p_directed p) && forallb (has_profile p G) (nodes G).

(** The colour all nodes of a regular graph share, round after round. *)
Definition uniform_initial (hash : hashable → Z) (p : profile) : Z :=
  if p_directed p then hash (HTuple [p_in_degree p; p_out_degree p])
  else hash (HInt (p_degree p)).

Definition uniform_next (hash : hashable → Z) (p : profile) (c : Z) : Z :=
  _new_colour_from_colour_pair hash c
    (if p_directed p then
       hash (HTuple [hash (HTuple (replicate (p_predecessors p) c));
                     hash (HTuple (replicate (p_successors p) c))])
     else hash (HTuple (replicate (p_neighbors p) c))).

Fixpoint uniform_colour (hash : hashable → Z) (p : profile) (rounds : nat) : Z :=
  match rounds with
  | O => uniform_initial hash p
  | S rounds' => uniform_next hash p (uniform_colour hash p rounds')
  end.

(** The histogram of the shared colours, one observation per round. *)
Fixpoint uniform_histogram (hash : hashable → Z) (p : profile) (rounds : nat)
    : gmap Z Z :=
  match rounds with
  | O => tally ∅ (uniform_colour hash p 0)
  | S rounds' => tally (uniform_histogram hash p rounds') (uniform_colour hash p (S rounds'))
  end.

(** The colouring that gives every node of a graph the colour [c]. *)
Definition constant_colouring (G : Graph) (c : Z) : gmap Z Z :=
  foldl (λ d node, <[node := c]> d) ∅ (nodes G).

(** The profile of a cycle: two neighbours (undirected), or one
    predecessor and one successor (directed). *)
Definition cycle_profile : profile := {|
  p_directed := false; p_degree := 2; p_in_degree := 0; p_out_degree := 0;
  p_neighbors := 2; p_predecessors := 0; p_successors := 0
|}.

Definition dicycle_profile : profile := {|
  p_directed := true; p_degree := 2; p_in_degree := 1; p_out_degree := 1;
  p_neighbors := 1; p_predecessors := 1; p_successors := 1
|}.

(** ** The standard model of floating-point arithmetic *)

(** The unit roundoff of binary64, [2^-53], and the range in which a
    result is neither subnormal nor overflows. *)
Definition unit_roundoff : R := (/ 9007199254740992)%R.
Definition tiny : R := (/ IZR (2 ^ 1022))%R.
Definition big : R := IZR (2 ^ 1023).

(** An arithmetic follows the standard model when each operation on finite
    numbers returns the exact result times [1 + δ] with [|δ|] at most the
    unit roundoff, as long as the exact result is zero or lies in the
    normal range; integers up to [2^53] convert exactly.  [fval x r] reads
    "[x] is the finite number [r]"; a float is at most one number.
    Binary64 with rounding to nearest is such an arithmetic (instance
    [binary64_model], proved from the specification of the primitive
    floats), and so is exact arithmetic (instance [exact_model]). *)
Class StandardModel (F : Type) `{!Float64 F} : Type := {
  fval : F → R → Prop;
  fval_unique (x : F) (a b : R) : fval x a → fval x b → a = b;
  sm_of_int (z : Z) : Z.abs z ≤ 2 ^ 53 → fval (f_of_int z) (IZR z);
  sm_zero : fval f_zero 0;
  sm_add (x y : F) (a b : R) :
    fval x a → fval y b → (Rabs (a + b) <= big)%R →
    ∃ δ, (Rabs δ <= unit_roundoff)%R ∧ fval (f_add x y) ((a + b) * (1 + δ));
  sm_mul (x y : F) (a b : R) :
    fval x a → fval y b →
    (a * b = 0 ∨ tiny <= Rabs (a * b) <= big)%R →
    ∃ δ, (Rabs δ <= unit_roundoff)%R ∧ fval (f_mul x y) (a * b * (1 + δ));
  sm_div (x y : F) (a b : R) :
    fval x a → fval y b → b ≠ 0%R →
    (a = 0 ∨ tiny <= Rabs (a / b) <= big)%R →
    ∃ δ, (Rabs δ <= unit_roundoff)%R ∧ fval (f_div x y) (a / b * (1 + δ));
  sm_sqrt (x : F) (a : R) :
    fval x a → (0 <= a)%R →
    ∃ δ, (Rabs δ <= unit_roundoff)%R ∧ fval (f_sqrt x) (R_sqrt.sqrt a * (1 + δ))
}.

(** The factor by which one rounding can change a number is between
    [/ relerr] and [relerr]. *)
Definition relerr : R := (/ (1 - unit_roundoff))%R.

(** [x] is the non-negative number [r] up to [k] roundings. *)
Definition near {F : Type} `{StandardModel F} (k : nat) (x : F) (r : R) : Prop :=
  ∃ v, fval x v ∧ (r / relerr ^ k <= v <= r * relerr ^ k)%R.

(** A non-negative exact result that survives two-fold error in the
    normal range. *)
Definition representable (r : R) : Prop := (r = 0 ∨ 2 * tiny <= r <= big / 2)%R.

(** The size up to which the rounding analysis is carried out: at most
    [2^33] colours, each counted at most [2^33] times. *)
Definition size_limit : Z := 2 ^ 33.

(** A count vector within the size limit that is not entirely zero. *)
Definition moderate (v : list Z) : Prop :=
  Z.of_nat (length v) ≤ size_limit
  ∧ Forall (λ c, 0 ≤ c ≤ size_limit) v
  ∧ ∃ c, c ∈ v ∧ c ≠ 0.

(** [size_limit] as a real. *)
Definition limitR : R := IZR size_limit.

(** The error factor of the comparator on vectors within the size limit. *)
Definition tolerance : R := (3 / 1000000)%R.

(** A quotient of a count by a norm: zero, or between [/ limitR^3] and
    [limitR]. *)
Definition quotient_like (a : R) : Prop :=
  (a = 0 ∨ / (limitR * limitR * limitR) <= a <= limitR)%R.

(** Two histograms small enough for the rounding analysis: together they
    hold at most [size_limit] observations. *)
Definition within_limit (h1 h2 : gmap Z Z) : Prop := total h1 + total h2 ≤ size_limit.

(** The result [s] of the comparator is a finite number that satisfies [P]. *)
Definition finite_with {F : Type} `{StandardModel F} (s : F) (P : R → Prop) : Prop :=
  ∃ r, fval s r ∧ P r.

(** The integers numpy holds in an [int64] array. *)
Definition int64 (z : Z) : Prop := - 2 ^ 63 ≤ z < 2 ^ 63.

(** A histogram whose counts numpy holds as [int64]. *)
Definition int64_counts (h : gmap Z Z) : Prop := map_Forall (λ _ v, int64 v) h.

(** ** The numbers of binary64 *)

(** [2^e], for an integer [e] of either sign. *)
Definition pow2 (e : Z) : R := powerRZ 2 e.

(** The sign of a float, as a factor. *)
Definition sign_factor (s : bool) : R := if s then (-1)%R else 1%R.

(** The real number a finite [spec_float] stands for. *)
Definition SF2R (x : spec_float) : R :=
  match x with
  | S754_finite s m e => (sign_factor s * (IZR (Z.pos m) * pow2 e))%R
  | _ => 0%R
  end.

(** Zeros and finite numbers, as opposed to infinities and NaN. *)
Definition SF_finite (x : spec_float) : bool :=
  match x with
  | S754_zero _ | S754_finite _ _ _ => true
  | _ => false
  end.

(** [x] is finite and stands for [r]. *)
Definition binary64_value (x : float) (r : R) : Prop :=
  SF_finite (Prim2SF x) = true ∧ SF2R (Prim2SF x) = r.

(** The position of [t] in the unit interval that starts at the integer
    [m], as a [location] records it. *)
Definition locates (m : Z) (l : location) (t : R) : Prop :=
  match l with
  | loc_Exact => t = IZR m
  | loc_Inexact Lt => (IZR m < t < IZR m + / 2)%R
  | loc_Inexact Eq => (t = IZR m + / 2)%R
  | loc_Inexact Gt => (IZR m + / 2 < t < IZR m + 1)%R
  end.

(** * Properties *)

(** ** Histograms *)

Lemma total_empty : total ∅ = 0.
Proof. apply map_fold_empty. Qed.

Lemma total_insert_fresh (h : gmap Z Z) c v :
  h !! c = None → total (<[c := v]> h) = v + total h.
Proof.
  intros Hc. unfold total.
  rewrite map_fold_insert_L; [done | intros; lia | done].
Qed.

Lemma total_insert (h : gmap Z Z) c v :
  total (<[c := v]> h) = total h - get0 h c + v.
Proof.
  unfold get0. destruct (h !! c) as [old|] eqn:Hc; simpl.
  - rewrite <- (insert_delete_eq h c v).
    rewrite <- (insert_delete_id h c old Hc) at 2.
    rewrite !total_insert_fresh by apply lookup_delete_eq. lia.
  - rewrite total_insert_fresh by done. lia.
Qed.

Lemma total_tally h c : total (tally h c) = total h + 1.
Proof. unfold tally. rewrite total_insert. lia. Qed.

Lemma get0_tally h c c' :
  get0 (tally h c) c' = get0 h c' + (if bool_decide (c = c') then 1 else 0).
Proof.
  unfold tally, get0 at 1. case_bool_decide as Hc.
  - subst. rewrite lookup_insert_eq. done.
  - rewrite lookup_insert_ne by done. unfold get0. lia.
Qed.

Lemma dom_tally h c : dom (tally h c) = {[c]} ∪ dom h.
Proof. unfold tally. apply dom_insert_L. Qed.

Lemma counts_positive_tally h c : counts_positive h → counts_positive (tally h c).
Proof.
  intros Hh. unfold tally. apply map_Forall_insert_2; [|done].
  unfold get0. destruct (h !! c) as [v|] eqn:Hc; simpl; [|lia].
  specialize (Hh c v Hc). simpl in Hh. lia.
Qed.

Lemma total_foldl_tally l h : total (foldl tally h l) = total h + len l.
Proof.
  revert h. induction l as [|c l IH]; intros h; simpl.
  - unfold len. simpl. lia.
  - rewrite IH, total_tally. unfold len. simpl length. lia.
Qed.

Lemma get0_foldl_tally l h c :
  get0 (foldl tally h l) c = get0 h c + occurrences c l.
Proof.
  revert h. induction l as [|x l IH]; intros h; simpl.
  - unfold occurrences, len. simpl. lia.
  - rewrite IH, get0_tally. unfold occurrences, len.
    rewrite filter_cons. case_bool_decide; case_decide; simpl length; try done; lia.
Qed.

Lemma dom_foldl_tally l h : dom (foldl tally h l) = list_to_set l ∪ dom h.
Proof.
  revert h. induction l as [|x l IH]; intros h; simpl.
  - set_solver.
  - rewrite IH, dom_tally. set_solver.
Qed.

Lemma counts_positive_foldl_tally l h :
  counts_positive h → counts_positive (foldl tally h l).
Proof.
  revert h. induction l as [|x l IH]; intros h Hh; simpl; [done|].
  apply IH, counts_positive_tally, Hh.
Qed.

(** A histogram is a multiset of colours: the order in which the colours
    of a round are tallied is immaterial. *)
Lemma update_colour_counts_Permutation l1 l2 h :
  l1 ≡ₚ l2 → foldl tally h l1 = foldl tally h l2.
Proof.
  intros Hp. apply map_eq. intros c.
  assert (Hd : dom (foldl tally h l1) = dom (foldl tally h l2)).
  { rewrite !dom_foldl_tally. f_equal. apply set_eq. intros x.
    rewrite !elem_of_list_to_set. by rewrite Hp. }
  assert (Hg : get0 (foldl tally h l1) c = get0 (foldl tally h l2) c).
  { rewrite !get0_foldl_tally. f_equal. unfold occurrences, len. by rewrite Hp. }
  unfold get0 in Hg.
  destruct (foldl tally h l1 !! c) as [v1|] eqn:H1,
           (foldl tally h l2 !! c) as [v2|] eqn:H2; simpl in Hg.
  - by subst.
  - apply (elem_of_dom_2 (D := gset Z)) in H1. rewrite Hd in H1.
    apply elem_of_dom in H1 as [? ?]. congruence.
  - apply (elem_of_dom_2 (D := gset Z)) in H2. rewrite <- Hd in H2.
    apply elem_of_dom in H2 as [? ?]. congruence.
  - done.
Qed.

Lemma update_colour_counts_unfold h m :
  _update_colour_counts h m = foldl tally h (dict_values m).
Proof. reflexivity. Qed.

Lemma length_dict_values (m : gmap Z Z) : length (dict_values m) = size m.
Proof. unfold dict_values. rewrite length_fmap. apply length_map_to_list. Qed.

(** ** Colourings *)

Lemma well_formed_NoDup G : well_formed G = true → NoDup (nodes G).
Proof.
  unfold well_formed. intros [Hn _]%andb_prop. by apply bool_decide_eq_true in Hn.
Qed.

Lemma well_formed_adjacent G n m :
  well_formed G = true → n ∈ nodes G → m ∈ adjacent G n → m ∈ nodes G.
Proof.
  unfold well_formed. intros [_ Ha]%andb_prop Hn Hm.
  rewrite forallb_forall in Ha. apply list_elem_of_In, Ha in Hn.
  rewrite forallb_forall in Hn. apply list_elem_of_In, Hn in Hm.
  by apply bool_decide_eq_true in Hm.
Qed.

Lemma size_of_colouring (G : Graph) (node_colours : gmap Z Z) :
  NoDup (nodes G) → dom node_colours = list_to_set (nodes G) →
  size node_colours = length (nodes G).
Proof.
  intros Hnd Hdom. rewrite <- size_dom, Hdom. by apply size_list_to_set.
Qed.

Lemma dom_foldl_insert (f : Z → Z) l (d : gmap Z Z) :
  dom (foldl (λ d node, <[node := f node]> d) d l) = list_to_set l ∪ dom d.
Proof.
  revert d. induction l as [|x l IH]; intros d; simpl.
  - set_solver.
  - rewrite IH, dom_insert_L. set_solver.
Qed.

Lemma lookup_foldl_insert (f : Z → Z) l (d : gmap Z Z) n :
  n ∈ l → foldl (λ d node, <[node := f node]> d) d l !! n = Some (f n).
Proof.
  revert d. induction l as [|x l IH] using rev_ind; intros d Hn.
  - by apply elem_of_nil in Hn.
  - rewrite foldl_app. simpl. destruct (decide (x = n)) as [->|Hne].
    + apply lookup_insert_eq.
    + rewrite lookup_insert_ne by done. apply IH.
      apply elem_of_app in Hn as [Hn|Hn]; [done|]. apply list_elem_of_singleton in Hn.
      congruence.
Qed.

Section ColouringFacts.

Context (hash : hashable → Z).

Lemma get_initial_colours_unfold G :
  _get_initial_colours hash G =
  foldl (λ d node, <[node := initial_colour hash G node]> d) ∅ (nodes G).
Proof.
  unfold _get_initial_colours, initial_colour. by destruct (is_directed G).
Qed.

Lemma dom_get_initial_colours G :
  dom (_get_initial_colours hash G) = list_to_set (nodes G).
Proof. rewrite get_initial_colours_unfold, dom_foldl_insert. set_solver. Qed.

Lemma lookup_get_initial_colours G n :
  n ∈ nodes G → _get_initial_colours hash G !! n = Some (initial_colour hash G n).
Proof.
  intros Hn. rewrite get_initial_colours_unfold.
  by apply (lookup_foldl_insert (initial_colour hash G)).
Qed.

Lemma getitem_Some (d : gmap Z Z) k v : d !! k = Some v → getitem d k = Return v.
Proof. unfold getitem. by intros ->. Qed.

Lemma comprehension_getitem_Return (d : gmap Z Z) (l : list Z) :
  (∀ n, n ∈ l → n ∈ dom d) → ∃ cl, comprehension (getitem d) l = Return cl.
Proof.
  induction l as [|x l IH]; intros Hl; simpl.
  - by eexists.
  - destruct IH as [cl Hcl]. { intros n Hn. apply Hl. by right. }
    assert (Hx : x ∈ dom d) by (apply Hl; by left).
    apply elem_of_dom in Hx as [v Hv].
    rewrite (getitem_Some d x v Hv), Hcl. by eexists.
Qed.

Lemma new_colour_from_neighbours_Return G node (node_colours : gmap Z Z) :
  (∀ m, m ∈ adjacent G node → m ∈ dom node_colours) →
  ∃ c, _new_colour_from_neighbours hash G node node_colours = Return c.
Proof.
  unfold _new_colour_from_neighbours, adjacent. intros Hadj.
  destruct (is_directed G); simpl.
  - destruct (comprehension_getitem_Return node_colours (predecessors G node))
      as [cp Hcp]. { intros m Hm. apply Hadj, elem_of_app. by left. }
    destruct (comprehension_getitem_Return node_colours (successors G node))
      as [cs Hcs]. { intros m Hm. apply Hadj, elem_of_app. by right. }
    rewrite Hcp. simpl. rewrite Hcs. simpl. by eexists.
  - destruct (comprehension_getitem_Return node_colours (neighbors G node))
      as [cn Hcn]; [done|].
    rewrite Hcn. simpl. by eexists.
Qed.

Lemma refine_node_Return G (node_colours acc : gmap Z Z) node :
  node ∈ dom node_colours →
  (∀ m, m ∈ adjacent G node → m ∈ dom node_colours) →
  ∃ c, refine_node hash G node_colours acc node = Return (<[node := c]> acc).
Proof.
  intros Hn Hadj. unfold refine_node.
  apply elem_of_dom in Hn as [old Hold]. rewrite (getitem_Some _ _ _ Hold). simpl.
  destruct (new_colour_from_neighbours_Return G node node_colours Hadj) as [c Hc].
  rewrite Hc. simpl. by eexists.
Qed.

Lemma for_each_refine_node_Return G (node_colours : gmap Z Z) l acc :
  (∀ n, n ∈ l → n ∈ dom node_colours) →
  (∀ n m, n ∈ l → m ∈ adjacent G n → m ∈ dom node_colours) →
  ∃ new_node_colours,
    for_each l (refine_node hash G node_colours) acc = Return new_node_colours
    ∧ dom new_node_colours = list_to_set l ∪ dom acc.
Proof.
  revert acc. induction l as [|x l IH]; intros acc Hl Hadj; simpl.
  - eexists. split; [done|]. set_solver.
  - destruct (refine_node_Return G node_colours acc x) as [c Hc].
    { apply Hl. by left. } { intros m. apply Hadj. by left. }
    rewrite Hc. simpl.
    destruct (IH (<[x := c]> acc)) as (new & Hnew & Hdom).
    { intros n Hn. apply Hl. by right. }
    { intros n m Hn. apply Hadj. by right. }
    exists new. split; [done|]. rewrite Hdom, dom_insert_L. set_solver.
Qed.

Lemma refine_round_Return G passes st :
  well_formed G = true → after_passes G passes st →
  ∃ st', refine_round hash G st = Return st' ∧ after_passes G (passes + 1) st'.
Proof.
  intros Hwf (Hdom & Htot & Hpos). destruct st as [node_colours colour_counts].
  simpl in *. unfold refine_round.
  destruct (for_each_refine_node_Return G node_colours (nodes G) ∅)
    as (new & Hnew & Hdomnew).
  { intros n Hn. rewrite Hdom. by apply elem_of_list_to_set. }
  { intros n m Hn Hm. rewrite Hdom. apply elem_of_list_to_set.
    by apply (well_formed_adjacent G n m). }
  rewrite Hnew. simpl. eexists. split; [done|].
  assert (Hd : dom new = list_to_set (nodes G)) by (rewrite Hdomnew; set_solver).
  repeat split; simpl.
  - done.
  - rewrite update_colour_counts_unfold, total_foldl_tally, Htot.
    unfold len. rewrite length_dict_values.
    rewrite (size_of_colouring G new (well_formed_NoDup G Hwf) Hd). lia.
  - rewrite update_colour_counts_unfold. by apply counts_positive_foldl_tally.
Qed.

Lemma refine_rounds_Return G rounds : ∀ passes st,
  well_formed G = true → after_passes G passes st →
  ∃ st', refine_rounds hash G rounds st = Return st'
         ∧ after_passes G (passes + Z.of_nat rounds) st'.
Proof.
  induction rounds as [|rounds IH]; intros passes st Hwf Hst; simpl.
  - exists st. split; [done|]. by replace (passes + Z.of_nat 0) with passes by lia.
  - destruct (refine_round_Return G passes st Hwf Hst) as (st1 & Hst1 & Hinv1).
    rewrite Hst1. simpl.
    destruct (IH (passes + 1) st1 Hwf Hinv1) as (st2 & Hst2 & Hinv2).
    exists st2. split; [done|].
    by replace (passes + Z.of_nat (S rounds)) with (passes + 1 + Z.of_nat rounds) by lia.
Qed.

Lemma after_initial_pass G :
  NoDup (nodes G) →
  after_passes G 1
    (_get_initial_colours hash G,
     _update_colour_counts ∅ (_get_initial_colours hash G)).
Proof.
  intros Hnd. repeat split; simpl.
  - apply dom_get_initial_colours.
  - rewrite update_colour_counts_unfold, total_foldl_tally, total_empty.
    unfold len. rewrite length_dict_values.
    rewrite (size_of_colouring G _ Hnd (dom_get_initial_colours G)). lia.
  - rewrite update_colour_counts_unfold. apply counts_positive_foldl_tally.
    apply map_Forall_empty.
Qed.

(** On a well-formed graph the histogram is always produced, it holds one
    observation per node and pass, and no count of it is zero. *)
Lemma compute_colour_counts_Return G num_iterations :
  well_formed G = true →
  ∃ h, _compute_colour_counts hash G num_iterations = Return h
       ∧ total h = (1 + Z.of_nat (Z.to_nat num_iterations)) * len (nodes G)
       ∧ counts_positive h.
Proof.
  intros Hwf. unfold _compute_colour_counts.
  destruct (refine_rounds_Return G (Z.to_nat num_iterations) 1 _ Hwf
              (after_initial_pass G (well_formed_NoDup G Hwf)))
    as ([nc h] & Hst & _ & Htot & Hpos).
  rewrite Hst. simpl. by exists h.
Qed.

End ColouringFacts.

(** ** The comparator in exact arithmetic *)

Lemma dotR_comm a b : dotR a b = dotR b a.
Proof.
  revert b. induction a as [|x a IH]; intros [|y b]; simpl; try done.
  rewrite IH. lra.
Qed.

Lemma dotR_self_nonneg a : (0 <= dotR a a)%R.
Proof. induction a as [|x a IH]; simpl; [lra|]. nra. Qed.

Lemma dotR_nonneg a b :
  Forall (λ x, (0 <= x)%R) a → Forall (λ x, (0 <= x)%R) b → (0 <= dotR a b)%R.
Proof.
  intros Ha. revert b. induction Ha as [|x a Hx Ha IH]; intros b Hb; simpl; [lra|].
  destruct Hb as [|y b Hy Hb]; [lra|]. specialize (IH b Hb). nra.
Qed.

Lemma dotR_scale a b (s t : R) :
  s ≠ 0%R → t ≠ 0%R →
  dotR ((λ x, x / s)%R <$> a) ((λ y, y / t)%R <$> b) = (dotR a b / (s * t))%R.
Proof.
  intros Hs Ht. revert b. induction a as [|x a IH]; intros [|y b]; simpl;
    try (unfold Rdiv; rewrite Rmult_0_l; done).
  rewrite IH. by field.
Qed.

(** Twice the dot product is at most the sum of the squared norms. *)
Lemma dotR_mean a b :
  length a = length b → (2 * dotR a b <= dotR a a + dotR b b)%R.
Proof.
  revert b. induction a as [|x a IH]; intros [|y b] Hlen; simpl in *; try done; [lra|].
  specialize (IH b ltac:(congruence)).
  pose proof (Rle_0_sqr (x - y)) as Hsq. unfold Rsqr in Hsq. lra.
Qed.

Lemma dotR_self_pos (v : list Z) :
  (∃ c, c ∈ v ∧ c ≠ 0) → (0 < dotR (realv v) (realv v))%R.
Proof.
  intros (c & Hc & Hne). induction v as [|x v IH]; [by apply elem_of_nil in Hc|].
  simpl. pose proof (dotR_self_nonneg (realv v)) as Hv.
  apply elem_of_cons in Hc as [<-|Hc].
  - assert (IZR c <> 0)%R by (by apply not_0_IZR). nra.
  - specialize (IH Hc). unfold realv in *. nra.
Qed.

Lemma realv_nonneg (v : list Z) :
  Forall (λ c, 0 ≤ c) v → Forall (λ x, (0 <= x)%R) (realv v).
Proof.
  intros Hv. unfold realv. apply Forall_fmap. eapply Forall_impl; [exact Hv|].
  intros c Hc. simpl. by apply IZR_le.
Qed.

Lemma foldl_add_Fin acc a b :
  foldl ideal_add (Fin acc) (zip_with ideal_mul (Fin <$> a) (Fin <$> b))
  = Fin (acc + dotR a b).
Proof.
  revert acc b. induction a as [|x a IH]; intros acc [|y b]; simpl;
    try (f_equal; lra).
  rewrite IH. f_equal. lra.
Qed.

Lemma np_dot_Fin a b : np_dot (F := ideal) (Fin <$> a) (Fin <$> b) = Fin (dotR a b).
Proof.
  unfold np_dot. simpl. rewrite foldl_add_Fin. f_equal. lra.
Qed.

Lemma of_int_realv (v : list Z) : f_of_int (F := ideal) <$> v = Fin <$> realv v.
Proof. unfold realv. by rewrite <- list_fmap_compose. Qed.

Lemma is_neg_nonneg r : (0 <= r)%R → is_neg r = false.
Proof. intros Hr. unfold is_neg. destruct (Rlt_dec r 0); [lra|done]. Qed.

Lemma is_zero_nonzero r : r ≠ 0%R → is_zero r = false.
Proof. intros Hr. unfold is_zero. by destruct (Req_dec_T r 0). Qed.

Lemma is_zero_zero : is_zero 0 = true.
Proof. unfold is_zero. by destruct (Req_dec_T 0 0). Qed.

Lemma np_linalg_norm_exact (v : list Z) :
  np_linalg_norm (F := ideal) v = Fin (normR v).
Proof.
  unfold np_linalg_norm, normR. rewrite of_int_realv, np_dot_Fin. simpl.
  by rewrite is_neg_nonneg by apply dotR_self_nonneg.
Qed.

Lemma normR_sqr v : (normR v * normR v = dotR (realv v) (realv v))%R.
Proof. unfold normR. apply sqrt_sqrt, dotR_self_nonneg. Qed.

Lemma normR_pos v : (∃ c, c ∈ v ∧ c ≠ 0) → (0 < normR v)%R.
Proof. intros Hv. unfold normR. by apply sqrt_lt_R0, dotR_self_pos. Qed.

Lemma np_divide_exact (v : list Z) (s : R) :
  s ≠ 0%R →
  np_divide (F := ideal) v (Fin s) = Fin <$> ((λ x, x / s)%R <$> realv v).
Proof.
  intros Hs. unfold np_divide, realv. rewrite <- !list_fmap_compose.
  apply list_fmap_ext. intros i c _. simpl. by rewrite is_zero_nonzero.
Qed.

(** With both norms non-zero the comparator is the cosine of the angle
    between the two count vectors. *)
Lemma wlgk_over_exact l (h1 h2 : gmap Z Z) :
  normR (colour_vector l h1) ≠ 0%R → normR (colour_vector l h2) ≠ 0%R →
  wlgk_over (F := ideal) l h1 h2
  = Fin (dotR (realv (colour_vector l h1)) (realv (colour_vector l h2))
         / (normR (colour_vector l h1) * normR (colour_vector l h2))).
Proof.
  intros H1 H2. unfold wlgk_over.
  rewrite !np_linalg_norm_exact, !np_divide_exact by done.
  by rewrite np_dot_Fin, dotR_scale by done.
Qed.

(** ** Count vectors of histograms *)

Lemma colour_vector_nonneg l (h : gmap Z Z) :
  counts_positive h → Forall (λ c, 0 ≤ c) (colour_vector l h).
Proof.
  intros Hh. unfold colour_vector. apply Forall_fmap, Forall_forall.
  intros c _. simpl. unfold get0. destruct (h !! c) as [v|] eqn:Hc; simpl; [|lia].
  specialize (Hh c v Hc). simpl in Hh. lia.
Qed.

Lemma colour_vector_nonzero l (h : gmap Z Z) :
  h ≠ ∅ → counts_positive h → (∀ c, c ∈ dom h → c ∈ l) →
  ∃ c, c ∈ colour_vector l h ∧ c ≠ 0.
Proof.
  intros Hne Hpos Hsub. apply map_choose in Hne as (c & v & Hc).
  exists v. split.
  - unfold colour_vector. apply list_elem_of_fmap. exists c. split.
    + unfold get0. by rewrite Hc.
    + apply Hsub. by apply elem_of_dom.
  - specialize (Hpos c v Hc). simpl in Hpos. lia.
Qed.

Lemma length_colour_vector l (h : gmap Z Z) : length (colour_vector l h) = length l.
Proof. unfold colour_vector. apply length_fmap. Qed.

Lemma total_pos_nonempty (h : gmap Z Z) : 0 < total h → h ≠ ∅.
Proof. intros Ht ->. rewrite total_empty in Ht. lia. Qed.

Lemma no_nodes_false G : no_nodes G = false → 0 < len (nodes G).
Proof.
  unfold no_nodes, len. intros Hn%bool_decide_eq_false. lia.
Qed.

(** The histogram of a non-empty well-formed graph. *)
Lemma histogram_of_graph hash G num_iterations :
  well_formed G = true → no_nodes G = false →
  ∃ h, _compute_colour_counts hash G num_iterations = Return h
       ∧ h ≠ ∅ ∧ counts_positive h.
Proof.
  intros Hwf Hne.
  destruct (compute_colour_counts_Return hash G num_iterations Hwf)
    as (h & Hh & Htot & Hpos).
  exists h. repeat split; [done| |done].
  apply total_pos_nonempty. rewrite Htot. apply no_nodes_false in Hne. lia.
Qed.

(** The norm of the count vector of a non-empty histogram over a list of
    colours that covers it. *)
Lemma norm_of_histogram l (h : gmap Z Z) :
  h ≠ ∅ → counts_positive h → (∀ c, c ∈ dom h → c ∈ l) →
  (0 < normR (colour_vector l h))%R.
Proof. intros. by apply normR_pos, colour_vector_nonzero. Qed.

Lemma in_union_l (h1 h2 : gmap Z Z) c :
  c ∈ dom h1 → c ∈ elements (dom h1 ∪ dom h2).
Proof. intros Hc. apply elem_of_elements. set_solver. Qed.

Lemma in_union_r (h1 h2 : gmap Z Z) c :
  c ∈ dom h2 → c ∈ elements (dom h1 ∪ dom h2).
Proof. intros Hc. apply elem_of_elements. set_solver. Qed.

Lemma comparator_exact (h1 h2 : gmap Z Z) :
  h1 ≠ ∅ → counts_positive h1 → h2 ≠ ∅ → counts_positive h2 →
  _compute_wlgk_from_colour_counts (F := ideal) h1 h2
  = Fin (cosine (elements (dom h1 ∪ dom h2)) h1 h2).
Proof.
  intros Hn1 Hp1 Hn2 Hp2. unfold _compute_wlgk_from_colour_counts, cosine.
  pose proof (norm_of_histogram _ h1 Hn1 Hp1 (in_union_l h1 h2)).
  pose proof (norm_of_histogram _ h2 Hn2 Hp2 (in_union_r h1 h2)).
  apply wlgk_over_exact; lra.
Qed.

(** The enumeration order of the union of the colours is immaterial. *)
Lemma dotR_colour_vector_Permutation l l' (h1 h2 : gmap Z Z) :
  l ≡ₚ l' →
  dotR (realv (colour_vector l h1)) (realv (colour_vector l h2))
  = dotR (realv (colour_vector l' h1)) (realv (colour_vector l' h2)).
Proof.
  induction 1 as [|c l l' _ IH|c c' l|l l' l'' _ IH1 _ IH2];
    unfold realv, colour_vector in *; csimpl.
  - done.
  - unfold realv, colour_vector in *. by rewrite IH.
  - lra.
  - by rewrite IH1.
Qed.

Lemma cosine_Permutation l l' (h1 h2 : gmap Z Z) :
  l ≡ₚ l' → cosine l h1 h2 = cosine l' h1 h2.
Proof.
  intros Hp. unfold cosine, normR.
  by rewrite (dotR_colour_vector_Permutation l l' h1 h2 Hp),
             (dotR_colour_vector_Permutation l l' h1 h1 Hp),
             (dotR_colour_vector_Permutation l l' h2 h2 Hp).
Qed.

Lemma comparator_any_order l (h1 h2 : gmap Z Z) :
  l ≡ₚ elements (dom h1 ∪ dom h2) →
  h1 ≠ ∅ → counts_positive h1 → h2 ≠ ∅ → counts_positive h2 →
  wlgk_over (F := ideal) l h1 h2 = _compute_wlgk_from_colour_counts h1 h2.
Proof.
  intros Hp Hn1 Hp1 Hn2 Hp2. rewrite comparator_exact by done.
  rewrite <- (cosine_Permutation l _ h1 h2 Hp).
  assert (H1 : (0 < normR (colour_vector l h1))%R).
  { apply norm_of_histogram; [done..|]. intros c Hc. rewrite Hp. by apply in_union_l. }
  assert (H2 : (0 < normR (colour_vector l h2))%R).
  { apply norm_of_histogram; [done..|]. intros c Hc. rewrite Hp. by apply in_union_r. }
  apply wlgk_over_exact; lra.
Qed.

Lemma cosine_self l (h : gmap Z Z) :
  (0 < normR (colour_vector l h))%R → cosine l h h = 1%R.
Proof.
  intros Hn. unfold cosine. rewrite <- normR_sqr. field. lra.
Qed.

Lemma cosine_comm l (h1 h2 : gmap Z Z) : cosine l h1 h2 = cosine l h2 h1.
Proof. unfold cosine. rewrite dotR_comm. f_equal. lra. Qed.

Lemma cosine_range l (h1 h2 : gmap Z Z) :
  counts_positive h1 → counts_positive h2 →
  (0 < normR (colour_vector l h1))%R → (0 < normR (colour_vector l h2))%R →
  (0 <= cosine l h1 h2 <= 1)%R.
Proof.
  intros Hp1 Hp2 Hn1 Hn2. unfold cosine.
  set (v1 := colour_vector l h1) in *. set (v2 := colour_vector l h2) in *.
  assert (Hpos : (0 < normR v1 * normR v2)%R) by by apply Rmult_lt_0_compat.
  split.
  - apply Rmult_le_pos.
    + apply dotR_nonneg; by apply realv_nonneg, colour_vector_nonneg.
    + left. by apply Rinv_0_lt_compat.
  - rewrite <- dotR_scale by lra.
    set (u1 := (λ x, x / normR v1)%R <$> realv v1).
    set (u2 := (λ x, x / normR v2)%R <$> realv v2).
    assert (Hlen : length u1 = length u2).
    { unfold u1, u2, realv, v1, v2. by rewrite !length_fmap, !length_colour_vector. }
    pose proof (dotR_mean u1 u2 Hlen) as Hmean.
    assert (Hu1 : dotR u1 u1 = 1%R).
    { unfold u1. rewrite dotR_scale by lra. rewrite <- normR_sqr. field. lra. }
    assert (Hu2 : dotR u2 u2 = 1%R).
    { unfold u2. rewrite dotR_scale by lra. rewrite <- normR_sqr. field. lra. }
    lra.
Qed.

(** ** The kernel on non-empty graphs *)

Lemma wlgk_nonempty hash {F : Type} `{!Float64 F} G1 G2 num_iterations :
  no_nodes G1 = false → no_nodes G2 = false →
  wlgk hash (F := F) G1 G2 num_iterations
  = ([],
     g1_colour_count ← _compute_colour_counts hash G1 num_iterations;
     g2_colour_count ← _compute_colour_counts hash G2 num_iterations;
     Return (_compute_wlgk_from_colour_counts g1_colour_count g2_colour_count)).
Proof. intros H1 H2. unfold wlgk. by rewrite H1, H2. Qed.

(** On two non-empty well-formed graphs the kernel is the cosine of their
    histograms. *)
Lemma wlgk_exact hash G1 G2 num_iterations :
  well_formed G1 = true → well_formed G2 = true →
  no_nodes G1 = false → no_nodes G2 = false →
  ∃ h1 h2,
    _compute_colour_counts hash G1 num_iterations = Return h1
    ∧ _compute_colour_counts hash G2 num_iterations = Return h2
    ∧ (h1 ≠ ∅ ∧ counts_positive h1) ∧ (h2 ≠ ∅ ∧ counts_positive h2)
    ∧ wlgk hash (F := ideal) G1 G2 num_iterations
      = ([], Return (Fin (cosine (elements (dom h1 ∪ dom h2)) h1 h2))).
Proof.
  intros Hwf1 Hwf2 Hne1 Hne2.
  destruct (histogram_of_graph hash G1 num_iterations Hwf1 Hne1) as (h1 & Hh1 & Hn1 & Hp1).
  destruct (histogram_of_graph hash G2 num_iterations Hwf2 Hne2) as (h2 & Hh2 & Hn2 & Hp2).
  exists h1, h2. repeat split; try done.
  rewrite wlgk_nonempty by done. rewrite Hh1, Hh2. simpl.
  by rewrite comparator_exact.
Qed.

(** * The stated properties *)

(** C3. Empty graphs: when either graph has no nodes the kernel prints its
    notice and returns [1.0]; nothing is coloured or compared, so neither
    the hash, nor the graphs' edges, nor the arithmetic enter the result,
    and no exception is raised. *)
Theorem wlgk_empty hash {F : Type} `{!Float64 F} G1 G2 num_iterations :
  no_nodes G1 = true ∨ no_nodes G2 = true →
  wlgk hash (F := F) G1 G2 num_iterations
  = (["Warning: One or both graphs have no nodes. Returning 1.0."%string],
     Return f_one).
Proof.
  intros [H|H]; unfold wlgk; rewrite H; [done|]. by rewrite orb_true_r.
Qed.

Lemma wlgk_empty_witness :
  wlgk cpython_hash (F := float) (nx_DiGraph [] []) G1 5
  = (["Warning: One or both graphs have no nodes. Returning 1.0."%string],
     Return 1%float).
Proof. exact (wlgk_empty cpython_hash (nx_DiGraph [] []) G1 5 (or_introl eq_refl)). Defined.

(** C4. Histogram total: the counts of the histogram of a graph sum to
    [(num_iterations + 1)] times its number of nodes. *)
Theorem histogram_total hash G num_iterations :
  well_formed G = true → 0 ≤ num_iterations →
  ∃ h, _compute_colour_counts hash G num_iterations = Return h
       ∧ total h = (num_iterations + 1) * len (nodes G).
Proof.
  intros Hwf Hk.
  destruct (compute_colour_counts_Return hash G num_iterations Hwf)
    as (h & Hh & Htot & _).
  exists h. split; [done|]. rewrite Htot, Z2Nat.id by done. lia.
Qed.

Lemma histogram_total_witness :
  ∃ h, _compute_colour_counts cpython_hash G4 5 = Return h
       ∧ total h = (5 + 1) * len (nodes G4).
Proof. apply (histogram_total cpython_hash G4 5); [reflexivity | lia]. Defined.

(** C5. The combination of a colour pair is symmetric: the pair is sorted
    before it is hashed. *)
Theorem new_colour_from_colour_pair_comm hash colour_1 colour_2 :
  _new_colour_from_colour_pair hash colour_1 colour_2
  = _new_colour_from_colour_pair hash colour_2 colour_1.
Proof.
  unfold _new_colour_from_colour_pair. do 2 f_equal. simpl.
  destruct (Z.leb_spec colour_1 colour_2), (Z.leb_spec colour_2 colour_1);
    try done; try lia.
  by replace colour_2 with colour_1 by lia.
Qed.

(** C7. No division by a zero norm: on non-empty graphs both histograms
    reach the comparator non-empty and with every count at least one, so
    both count vectors have a non-zero entry and both norms are strictly
    positive. *)
Theorem norms_positive hash G1 G2 num_iterations :
  well_formed G1 = true → well_formed G2 = true →
  no_nodes G1 = false → no_nodes G2 = false →
  ∃ h1 h2,
    _compute_colour_counts hash G1 num_iterations = Return h1
    ∧ _compute_colour_counts hash G2 num_iterations = Return h2
    ∧ (h1 ≠ ∅ ∧ counts_positive h1) ∧ (h2 ≠ ∅ ∧ counts_positive h2)
    ∧ let union_colours := elements (dom h1 ∪ dom h2) in
      let g1_colour_vector := colour_vector union_colours h1 in
      let g2_colour_vector := colour_vector union_colours h2 in
      (∃ c, c ∈ g1_colour_vector ∧ c ≠ 0) ∧ (∃ c, c ∈ g2_colour_vector ∧ c ≠ 0)
      ∧ ∃ n1 n2,
          np_linalg_norm (F := ideal) g1_colour_vector = Fin n1
          ∧ np_linalg_norm (F := ideal) g2_colour_vector = Fin n2
          ∧ (0 < n1)%R ∧ (0 < n2)%R.
Proof.
  intros Hwf1 Hwf2 Hne1 Hne2.
  destruct (histogram_of_graph hash G1 num_iterations Hwf1 Hne1) as (h1 & Hh1 & Hn1 & Hp1).
  destruct (histogram_of_graph hash G2 num_iterations Hwf2 Hne2) as (h2 & Hh2 & Hn2 & Hp2).
  exists h1, h2. do 4 (split; [done|]). intros l v1 v2.
  assert (Hv1 : ∃ c, c ∈ v1 ∧ c ≠ 0).
  { apply colour_vector_nonzero; [done..|]. apply in_union_l. }
  assert (Hv2 : ∃ c, c ∈ v2 ∧ c ≠ 0).
  { apply colour_vector_nonzero; [done..|]. apply in_union_r. }
  do 2 (split; [done|]). exists (normR v1), (normR v2).
  rewrite !np_linalg_norm_exact. repeat split; by apply normR_pos.
Qed.

Lemma norms_positive_witness :
  ∃ h1 h2,
    _compute_colour_counts cpython_hash G1 5 = Return h1
    ∧ _compute_colour_counts cpython_hash G2 5 = Return h2
    ∧ (h1 ≠ ∅ ∧ counts_positive h1) ∧ (h2 ≠ ∅ ∧ counts_positive h2)
    ∧ let union_colours := elements (dom h1 ∪ dom h2) in
      let g1_colour_vector := colour_vector union_colours h1 in
      let g2_colour_vector := colour_vector union_colours h2 in
      (∃ c, c ∈ g1_colour_vector ∧ c ≠ 0) ∧ (∃ c, c ∈ g2_colour_vector ∧ c ≠ 0)
      ∧ ∃ n1 n2,
          np_linalg_norm (F := ideal) g1_colour_vector = Fin n1
          ∧ np_linalg_norm (F := ideal) g2_colour_vector = Fin n2
          ∧ (0 < n1)%R ∧ (0 < n2)%R.
Proof. apply (norms_positive cpython_hash G1 G2 5); reflexivity. Defined.

(** *** The comparator on a zero vector *)

Lemma foldl_add_NaN acc (l : list ideal) :
  l ≠ [] → Forall (λ x, x = NaN) l → foldl ideal_add acc l = NaN.
Proof.
  revert acc. induction l as [|x l IH]; intros acc Hne Hl; [done|].
  apply Forall_cons in Hl as [-> Hl]. simpl.
  assert (Hacc : ideal_add acc NaN = NaN) by by destruct acc.
  rewrite Hacc. destruct l as [|y l]; [done|]. by apply IH.
Qed.

Lemma zip_with_mul_NaN (a b : list ideal) :
  Forall (λ x, x = NaN) a ∨ Forall (λ x, x = NaN) b →
  Forall (λ x, x = NaN) (zip_with ideal_mul a b).
Proof.
  revert b. induction a as [|x a IH]; intros [|y b] Hab; simpl; try done.
  apply Forall_cons. split.
  - destruct Hab as [Ha|Hb].
    + apply Forall_cons in Ha as [-> _]. done.
    + apply Forall_cons in Hb as [-> _]. by destruct x.
  - apply IH. destruct Hab as [Ha|Hb]; [left|right]; by eapply Forall_cons_1.
Qed.

Lemma np_dot_NaN (a b : list ideal) :
  length a = length b → a ≠ [] →
  Forall (λ x, x = NaN) a ∨ Forall (λ x, x = NaN) b →
  np_dot (F := ideal) a b = NaN.
Proof.
  intros Hlen Hne Hab. unfold np_dot. apply foldl_add_NaN.
  - destruct a, b; simpl in *; done.
  - by apply zip_with_mul_NaN.
Qed.

Lemma normR_zero (v : list Z) : Forall (λ c, c = 0) v → normR v = 0%R.
Proof.
  intros Hv. unfold normR.
  assert (Hd : dotR (realv v) (realv v) = 0%R).
  { induction Hv as [|c v -> Hv IH]; simpl; [done|]. fold (realv v). rewrite IH. lra. }
  rewrite Hd. apply sqrt_0.
Qed.

Lemma np_divide_zero (v : list Z) :
  Forall (λ c, c = 0) v →
  Forall (λ x, x = NaN) (np_divide (F := ideal) v (np_linalg_norm v)).
Proof.
  intros Hv. rewrite np_linalg_norm_exact, (normR_zero v Hv).
  unfold np_divide. apply Forall_fmap. eapply Forall_impl; [exact Hv|].
  intros c ->. simpl. by rewrite is_zero_zero.
Qed.

(** The comparator never raises.  When one of the count vectors is
    entirely zero, every entry of its normalised vector is [0.0 / 0.0], so
    the dot product is NaN; over an empty union of colours both vectors
    are empty and the dot product is [0.0]. *)
Lemma comparator_zero_vector l (h1 h2 : gmap Z Z) :
  Forall (λ c, c = 0) (colour_vector l h1) ∨ Forall (λ c, c = 0) (colour_vector l h2) →
  (l = [] → wlgk_over (F := ideal) l h1 h2 = Fin 0)
  ∧ (l ≠ [] → wlgk_over (F := ideal) l h1 h2 = NaN).
Proof.
  intros Hz. split.
  - intros ->. reflexivity.
  - intros Hne. unfold wlgk_over. apply np_dot_NaN.
    + unfold np_divide. by rewrite !length_fmap, !length_colour_vector.
    + unfold np_divide, colour_vector. destruct l; [done|]. done.
    + destruct Hz as [Hz|Hz]; [left|right]; by apply np_divide_zero.
Qed.

Lemma union_of_example :
  elements (dom (∅ : gmap Z Z) ∪ dom ({[7 := 1]} : gmap Z Z)) = [7].
Proof. vm_compute. reflexivity. Qed.

(** C8, as stated, fails: called with the empty histogram and a histogram
    of one colour, the comparator builds the all-zero vector [[0]] for the
    first and returns NaN, in exact arithmetic and in binary64 alike; called
    with two empty histograms it returns [0.0]. *)
Lemma zero_vector_is_not_fatal :
  colour_vector (elements (dom (∅ : gmap Z Z) ∪ dom ({[7 := 1]} : gmap Z Z))) ∅ = [0]
  ∧ _compute_wlgk_from_colour_counts (F := ideal) ∅ {[7 := 1]} = NaN
  ∧ PrimFloat.is_nan (_compute_wlgk_from_colour_counts (F := float) ∅ {[7 := 1]}) = true
  ∧ _compute_wlgk_from_colour_counts (F := float) ∅ ∅ = 0%float.
Proof.
  split; [by rewrite union_of_example|]. split.
  - apply comparator_zero_vector.
    + left. rewrite union_of_example. by repeat constructor.
    + by rewrite union_of_example.
  - split; vm_compute; reflexivity.
Qed.

(** *** Zero iterations *)

Lemma occurrences_Permutation c l1 l2 :
  l1 ≡ₚ l2 → occurrences c l1 = occurrences c l2.
Proof. intros Hp. unfold occurrences, len. by rewrite Hp. Qed.

Lemma dict_values_foldl_insert (f : Z → Z) (l : list Z) :
  NoDup l →
  dict_values (foldl (λ d node, <[node := f node]> d) ∅ l) ≡ₚ f <$> l.
Proof.
  induction l as [|x l IH] using rev_ind; intros Hnd.
  - unfold dict_values. simpl. by rewrite map_to_list_empty.
  - apply NoDup_app in Hnd as (Hl & Hx & _).
    rewrite foldl_app, fmap_app. simpl. unfold dict_values.
    rewrite map_to_list_insert.
    + rewrite fmap_cons. simpl. fold (dict_values (foldl (λ d node, <[node := f node]> d) ∅ l)).
      rewrite (IH Hl). by rewrite Permutation_app_comm.
    + apply not_elem_of_dom. rewrite dom_foldl_insert.
      intros Hin. apply elem_of_union in Hin as [Hin|Hin]; [|set_solver].
      apply elem_of_list_to_set in Hin. apply (Hx x Hin). by left.
Qed.

Lemma compute_colour_counts_zero hash G num_iterations :
  num_iterations ≤ 0 →
  _compute_colour_counts hash G num_iterations = Return (initial_histogram hash G).
Proof.
  intros Hk. unfold _compute_colour_counts. by rewrite Z2Nat.nonpos.
Qed.

Lemma initial_histogram_counts hash G c :
  NoDup (nodes G) →
  get0 (initial_histogram hash G) c
  = occurrences c (initial_colour hash G <$> nodes G).
Proof.
  intros Hnd. unfold initial_histogram.
  rewrite update_colour_counts_unfold, get0_foldl_tally.
  rewrite get_initial_colours_unfold.
  rewrite (occurrences_Permutation c _ _
             (dict_values_foldl_insert (initial_colour hash G) (nodes G) Hnd)).
  unfold get0. by rewrite lookup_empty.
Qed.

(** C9. With zero iterations the kernel of two non-empty graphs is the
    comparator applied to the histograms of the initial colourings: no
    refinement round runs, and each histogram counts, for every colour,
    the nodes whose degree (undirected) or pair of in- and out-degree
    (directed) hashes to it, one observation per node. *)
Theorem wlgk_zero_iterations hash {F : Type} `{!Float64 F} G1 G2 :
  NoDup (nodes G1) → NoDup (nodes G2) →
  no_nodes G1 = false → no_nodes G2 = false →
  wlgk hash (F := F) G1 G2 0
  = ([], Return (_compute_wlgk_from_colour_counts
                   (initial_histogram hash G1) (initial_histogram hash G2)))
  ∧ (∀ G, G = G1 ∨ G = G2 →
       _compute_colour_counts hash G 0 = Return (initial_histogram hash G)
       ∧ total (initial_histogram hash G) = len (nodes G)
       ∧ (∀ c, get0 (initial_histogram hash G) c
               = occurrences c (initial_colour hash G <$> nodes G))
       ∧ (∀ node, initial_colour hash G node
                  = if is_directed G
                    then hash (HTuple [in_degree G node; out_degree G node])
                    else hash (HInt (degree G node)))).
Proof.
  intros Hnd1 Hnd2 Hne1 Hne2. split.
  - rewrite wlgk_nonempty by done.
    by rewrite !compute_colour_counts_zero by done.
  - intros G HG.
    assert (Hnd : NoDup (nodes G)) by by destruct HG as [->| ->].
    split; [by apply compute_colour_counts_zero|]. split; [|split].
    + destruct (after_initial_pass hash G Hnd) as (_ & Htot & _). simpl in Htot.
      unfold initial_histogram. rewrite Htot. lia.
    + intros c. by apply initial_histogram_counts.
    + done.
Qed.

Lemma wlgk_zero_iterations_witness :
  wlgk cpython_hash (F := float) G1 G3 0
  = ([], Return (_compute_wlgk_from_colour_counts
                   (initial_histogram cpython_hash G1) (initial_histogram cpython_hash G3)))
  ∧ (∀ G, G = G1 ∨ G = G3 →
       _compute_colour_counts cpython_hash G 0 = Return (initial_histogram cpython_hash G)
       ∧ total (initial_histogram cpython_hash G) = len (nodes G)
       ∧ (∀ c, get0 (initial_histogram cpython_hash G) c
               = occurrences c (initial_colour cpython_hash G <$> nodes G))
       ∧ (∀ node, initial_colour cpython_hash G node
                  = if is_directed G
                    then cpython_hash (HTuple [in_degree G node; out_degree G node])
                    else cpython_hash (HInt (degree G node)))).
Proof.
  apply (wlgk_zero_iterations cpython_hash G1 G3);
    first [ by apply (bool_decide_unpack _) | reflexivity ].
Defined.

(** C10. A negative [num_iterations] behaves as zero: the refinement loop
    does not run, the result is that of zero iterations, and nothing is
    raised. *)
Theorem wlgk_negative_iterations hash {F : Type} `{!Float64 F} G1 G2 num_iterations :
  num_iterations < 0 →
  wlgk hash (F := F) G1 G2 num_iterations = wlgk hash G1 G2 0
  ∧ ∃ v, (wlgk hash (F := F) G1 G2 num_iterations).2 = Return v.
Proof.
  intros Hk. unfold wlgk. destruct (no_nodes G1 || no_nodes G2).
  - split; [done|]. by eexists.
  - rewrite !compute_colour_counts_zero by lia. split; [done|]. by eexists.
Qed.

Lemma wlgk_negative_iterations_witness :
  wlgk cpython_hash (F := float) G1 G2 (-3) = wlgk cpython_hash G1 G2 0
  ∧ ∃ v, (wlgk cpython_hash (F := float) G1 G2 (-3)).2 = Return v.
Proof. apply (wlgk_negative_iterations cpython_hash G1 G2 (-3)). lia. Defined.

(** ** The test suite, in binary64 *)

Example test_wlgk_on_directed_graphs :
  passes in_range (wlgk cpython_hash G1 G2 5) = true.
Proof. vm_compute. reflexivity. Qed.

Example test_wlgk_on_undirected_graphs :
  passes in_range (wlgk cpython_hash G3 G4 5) = true.
Proof. vm_compute. reflexivity. Qed.

Example test_wlgk_on_same_graph :
  passes near_one (wlgk cpython_hash G1 G1 5) = true.
Proof. vm_compute. reflexivity. Qed.

Example test_wlgk_on_empty_graphs :
  passes near_one (wlgk cpython_hash (nx_DiGraph [] []) (nx_DiGraph [] []) 5) = true.
Proof. vm_compute. reflexivity. Qed.

(** * Further properties of the code *)

(** ** Sorting *)

Lemma insort_Permutation x l : insort x l ≡ₚ x :: l.
Proof.
  induction l as [|y l IH]; simpl; [done|].
  destruct (x <=? y); [done|]. rewrite IH. apply Permutation_swap.
Qed.

Lemma sorted_Permutation l : sorted l ≡ₚ l.
Proof.
  induction l as [|x l IH]; simpl; [done|].
  by rewrite insort_Permutation, IH.
Qed.

Lemma insort_StronglySorted x l :
  StronglySorted Z.le l → StronglySorted Z.le (insort x l).
Proof.
  induction 1 as [|y l Hl IH Hy]; simpl.
  - repeat constructor.
  - destruct (Z.leb_spec x y).
    + constructor; [by constructor|]. constructor; [done|].
      eapply Forall_impl; [exact Hy|]. intros z Hz. simpl in *. lia.
    + constructor; [done|]. rewrite insort_Permutation.
      constructor; [lia | done].
Qed.

Lemma sorted_StronglySorted l : StronglySorted Z.le (sorted l).
Proof.
  induction l as [|x l IH]; simpl; [constructor|]. by apply insort_StronglySorted.
Qed.

Lemma sorted_of_Permutation l l' : l ≡ₚ l' → sorted l = sorted l'.
Proof.
  intros Hp. apply (StronglySorted_unique Z.le).
  - apply sorted_StronglySorted.
  - apply sorted_StronglySorted.
  - by rewrite !sorted_Permutation.
Qed.

(** ** The single functions *)

(** X1. [_update_colour_counts] adds to the count of every colour the
    number of nodes that carry it in the colouring, creates the keys of the
    colours it meets, keeps every other key, and raises the total by the
    number of coloured nodes. *)
Theorem update_colour_counts_spec (colour_counts current_node_colours : gmap Z Z) :
  (∀ c, get0 (_update_colour_counts colour_counts current_node_colours) c
        = get0 colour_counts c + occurrences c (dict_values current_node_colours))
  ∧ dom (_update_colour_counts colour_counts current_node_colours)
    = dom colour_counts ∪ list_to_set (dict_values current_node_colours)
  ∧ total (_update_colour_counts colour_counts current_node_colours)
    = total colour_counts + Z.of_nat (size current_node_colours).
Proof.
  rewrite update_colour_counts_unfold. split; [|split].
  - intros c. apply get0_foldl_tally.
  - rewrite dom_foldl_tally. set_solver.
  - rewrite total_foldl_tally. unfold len. by rewrite length_dict_values.
Qed.

(** X2. The histogram does not depend on the order in which the colours of
    a round are enumerated. *)
Theorem update_colour_counts_any_order (colour_counts current_node_colours : gmap Z Z)
    (colours : list Z) :
  colours ≡ₚ dict_values current_node_colours →
  foldl (λ colour_counts colour,
           <[colour := get0 colour_counts colour + 1]> colour_counts)
        colour_counts colours
  = _update_colour_counts colour_counts current_node_colours.
Proof.
  intros Hp. rewrite update_colour_counts_unfold.
  by apply (update_colour_counts_Permutation colours).
Qed.

Lemma update_colour_counts_any_order_witness :
  foldl (λ colour_counts colour,
           <[colour := get0 colour_counts colour + 1]> colour_counts)
        ∅ [9; 8; 9]
  = _update_colour_counts ∅ (<[1 := 9]> (<[2 := 9]> (<[3 := 8]> ∅))).
Proof.
  apply (update_colour_counts_any_order ∅ (<[1 := 9]> (<[2 := 9]> (<[3 := 8]> ∅)))).
  assert (Hv : dict_values (<[1 := 9]> (<[2 := 9]> (<[3 := 8]> ∅))) = [8; 9; 9])
    by (vm_compute; reflexivity).
  rewrite Hv. apply Permutation_swap.
Defined.

(** X3. [_get_initial_colours] colours exactly the nodes of the graph, each
    with the hash of its degree (undirected) or of the pair of its in- and
    out-degree (directed). *)
Theorem get_initial_colours_lookup hash G n :
  _get_initial_colours hash G !! n
  = if bool_decide (n ∈ nodes G)
    then Some (if is_directed G
               then hash (HTuple [in_degree G n; out_degree G n])
               else hash (HInt (degree G n)))
    else None.
Proof.
  case_bool_decide as Hn.
  - by rewrite (lookup_get_initial_colours hash G n Hn).
  - apply not_elem_of_dom. rewrite dom_get_initial_colours.
    by rewrite elem_of_list_to_set.
Qed.

(** X4. [_new_colour_from_colour_pair] hashes the pair of the smaller and
    the larger colour. *)
Theorem new_colour_from_colour_pair_min_max hash colour_1 colour_2 :
  _new_colour_from_colour_pair hash colour_1 colour_2
  = hash (HTuple [Z.min colour_1 colour_2; Z.max colour_1 colour_2]).
Proof.
  unfold _new_colour_from_colour_pair. do 2 f_equal. simpl.
  destruct (Z.leb_spec colour_1 colour_2).
  - by rewrite Z.min_l, Z.max_r by lia.
  - by rewrite Z.min_r, Z.max_l by lia.
Qed.

(** *** Missing colours *)

Lemma first_missing_app keys a b :
  first_missing keys (a ++ b)
  = match first_missing keys a with
    | Some key => Some key
    | None => first_missing keys b
    end.
Proof.
  induction a as [|n a IH]; simpl; [done|]. by case_bool_decide.
Qed.

Lemma first_missing_None keys l :
  first_missing keys l = None ↔ ∀ n, n ∈ l → n ∈ keys.
Proof.
  induction l as [|x l IH]; simpl.
  - split; [|done]. intros _ n Hn. by apply elem_of_nil in Hn.
  - case_bool_decide as Hx.
    + rewrite IH. split.
      * intros Hl n [->|Hn]%elem_of_cons; [done|by apply Hl].
      * intros Hl n Hn. apply Hl. by right.
    + split; [done|]. intros Hl. destruct Hx. apply Hl. by left.
Qed.

Lemma first_missing_Some keys l key :
  first_missing keys l = Some key → key ∈ l ∧ key ∉ keys.
Proof.
  induction l as [|x l IH]; simpl; [done|]. case_bool_decide as Hx.
  - intros [Hl Hk]%IH. split; [by right|done].
  - intros [= ->]. split; [by left|done].
Qed.

Lemma comprehension_getitem_outcome (node_colours : gmap Z Z) l :
  comprehension (getitem node_colours) l
  = match first_missing (dom node_colours) l with
    | Some key => Raise (KeyError key)
    | None => Return (colours_at node_colours l)
    end.
Proof.
  induction l as [|n l IH]; simpl; [done|]. case_bool_decide as Hn.
  - apply elem_of_dom in Hn as [v Hv].
    rewrite (getitem_Some _ _ _ Hv), IH. unfold colours_at. simpl. rewrite Hv.
    by destruct (first_missing (dom node_colours) l).
  - apply not_elem_of_dom in Hn. unfold getitem. by rewrite Hn.
Qed.

Lemma new_colour_from_neighbours_signature hash G node (node_colours : gmap Z Z) :
  _new_colour_from_neighbours hash G node node_colours
  = match first_missing (dom node_colours) (adjacent G node) with
    | Some key => Raise (KeyError key)
    | None => Return (neighbourhood_signature hash G node_colours node)
    end.
Proof.
  unfold _new_colour_from_neighbours, neighbourhood_signature, adjacent.
  destruct (is_directed G); simpl.
  - rewrite first_missing_app, !comprehension_getitem_outcome.
    destruct (first_missing (dom node_colours) (predecessors G node)); [done|]. simpl.
    by destruct (first_missing (dom node_colours) (successors G node)).
  - rewrite comprehension_getitem_outcome.
    by destruct (first_missing (dom node_colours) (neighbors G node)).
Qed.

(** X5. Called on a node of the graph, [_new_colour_from_neighbours]
    raises [KeyError] for the first
    neighbour without a colour (predecessors before successors in a
    directed graph), and otherwise returns the hash of the sorted colours
    of the neighbours (undirected) or of the two hashes of the sorted
    colours of the predecessors and of the successors (directed). *)
Theorem new_colour_from_neighbours_outcome hash G node (node_colours : gmap Z Z) :
  node ∈ nodes G →
  _new_colour_from_neighbours hash G node node_colours
  = match first_missing (dom node_colours) (adjacent G node) with
    | Some key => Raise (KeyError key)
    | None =>
        Return (if is_directed G
                then hash (HTuple
                       [hash (HTuple (sorted (colours_at node_colours (predecessors G node))));
                        hash (HTuple (sorted (colours_at node_colours (successors G node))))])
                else hash (HTuple (sorted (colours_at node_colours (neighbors G node)))))
    end.
Proof. intros _. apply new_colour_from_neighbours_signature. Qed.

Lemma new_colour_from_neighbours_outcome_witness :
  _new_colour_from_neighbours cpython_hash G3 1 (_get_initial_colours cpython_hash G3)
  = match first_missing (dom (_get_initial_colours cpython_hash G3)) (adjacent G3 1) with
    | Some key => Raise (KeyError key)
    | None =>
        Return (if is_directed G3
                then cpython_hash (HTuple
                       [cpython_hash (HTuple (sorted (colours_at
                          (_get_initial_colours cpython_hash G3) (predecessors G3 1))));
                        cpython_hash (HTuple (sorted (colours_at
                          (_get_initial_colours cpython_hash G3) (successors G3 1))))])
                else cpython_hash (HTuple (sorted (colours_at
                       (_get_initial_colours cpython_hash G3) (neighbors G3 1)))))
    end.
Proof.
  apply (new_colour_from_neighbours_outcome cpython_hash G3 1).
  apply (bool_decide_unpack _). vm_compute. exact I.
Defined.

Lemma colours_at_Permutation (node_colours : gmap Z Z) l l' :
  l ≡ₚ l' → colours_at node_colours l ≡ₚ colours_at node_colours l'.
Proof. intros Hp. unfold colours_at. by rewrite Hp. Qed.

Lemma first_missing_None_Permutation keys l l' :
  l ≡ₚ l' → first_missing keys l = None → first_missing keys l' = None.
Proof.
  intros Hp. rewrite !first_missing_None. intros Hl n Hn. apply Hl. by rewrite Hp.
Qed.

(** X6. When every neighbour has a colour, the new colour does not depend
    on the order in which the graph enumerates the neighbours,
    predecessors and successors of the node. *)
Theorem new_colour_from_neighbours_any_order hash G G' node (node_colours : gmap Z Z) :
  is_directed G' = is_directed G →
  neighbors G' node ≡ₚ neighbors G node →
  predecessors G' node ≡ₚ predecessors G node →
  successors G' node ≡ₚ successors G node →
  first_missing (dom node_colours) (adjacent G node) = None →
  _new_colour_from_neighbours hash G' node node_colours
  = _new_colour_from_neighbours hash G node node_colours.
Proof.
  intros Hd Hn Hp Hs Hall.
  assert (Hadj : adjacent G' node ≡ₚ adjacent G node).
  { unfold adjacent. rewrite Hd. destruct (is_directed G); [by rewrite Hp, Hs|done]. }
  rewrite !new_colour_from_neighbours_signature, Hall.
  rewrite (first_missing_None_Permutation _ _ _ (symmetry Hadj) Hall).
  f_equal. unfold neighbourhood_signature. rewrite Hd.
  destruct (is_directed G).
  - by rewrite (sorted_of_Permutation _ _ (colours_at_Permutation node_colours _ _ Hp)),
               (sorted_of_Permutation _ _ (colours_at_Permutation node_colours _ _ Hs)).
  - by rewrite (sorted_of_Permutation _ _ (colours_at_Permutation node_colours _ _ Hn)).
Qed.

Lemma new_colour_from_neighbours_any_order_witness :
  _new_colour_from_neighbours cpython_hash (nx_Graph [] [(1, 3); (1, 2)]) 1
    (_get_initial_colours cpython_hash (nx_Graph [] [(1, 2); (1, 3)]))
  = _new_colour_from_neighbours cpython_hash (nx_Graph [] [(1, 2); (1, 3)]) 1
      (_get_initial_colours cpython_hash (nx_Graph [] [(1, 2); (1, 3)])).
Proof.
  apply (new_colour_from_neighbours_any_order cpython_hash
           (nx_Graph [] [(1, 2); (1, 3)]) (nx_Graph [] [(1, 3); (1, 2)]) 1).
  - reflexivity.
  - apply Permutation_swap.
  - reflexivity.
  - reflexivity.
  - vm_compute. reflexivity.
Defined.

(** *** Rounds of refinement *)

Lemma refine_node_outcome hash G (node_colours acc : gmap Z Z) node :
  node ∈ dom node_colours →
  refine_node hash G node_colours acc node
  = match first_missing (dom node_colours) (adjacent G node) with
    | Some key => Raise (KeyError key)
    | None => Return (<[node := refined_colour hash G node_colours node]> acc)
    end.
Proof.
  intros [old Hold]%elem_of_dom. unfold refine_node, refined_colour, get0.
  rewrite (getitem_Some _ _ _ Hold), Hold. simpl.
  rewrite new_colour_from_neighbours_signature.
  by destruct (first_missing (dom node_colours) (adjacent G node)).
Qed.

Lemma for_each_refine_node_outcome hash G (node_colours : gmap Z Z) ns acc :
  dom node_colours = list_to_set (nodes G) →
  (∀ n, n ∈ ns → n ∈ nodes G) →
  for_each ns (refine_node hash G node_colours) acc
  = match first_dangling G ns with
    | Some key => Raise (KeyError key)
    | None =>
        Return (foldl (λ d node, <[node := refined_colour hash G node_colours node]> d)
                      acc ns)
    end.
Proof.
  intros Hdom. revert acc. induction ns as [|n ns IH]; intros acc Hns; simpl; [done|].
  rewrite refine_node_outcome by (rewrite Hdom; apply elem_of_list_to_set, Hns; by left).
  rewrite Hdom.
  destruct (first_missing (list_to_set (nodes G)) (adjacent G n)); [done|]. simpl.
  apply IH. intros m Hm. apply Hns. by right.
Qed.

Lemma dom_refine_colouring hash G (node_colours : gmap Z Z) :
  dom (refine_colouring hash G node_colours) = list_to_set (nodes G).
Proof. unfold refine_colouring. rewrite dom_foldl_insert. set_solver. Qed.

Lemma dom_colouring_after hash G rounds :
  dom (colouring_after hash G rounds) = list_to_set (nodes G).
Proof.
  destruct rounds; simpl; [apply dom_get_initial_colours | apply dom_refine_colouring].
Qed.

Lemma refine_round_outcome hash G (node_colours colour_counts : gmap Z Z) :
  dom node_colours = list_to_set (nodes G) →
  refine_round hash G (node_colours, colour_counts)
  = match dangling G with
    | Some key => Raise (KeyError key)
    | None =>
        Return (refine_colouring hash G node_colours,
                _update_colour_counts colour_counts (refine_colouring hash G node_colours))
    end.
Proof.
  intros Hdom. unfold refine_round, dangling.
  rewrite (for_each_refine_node_outcome hash G node_colours (nodes G) ∅ Hdom) by done.
  by destruct (first_dangling G (nodes G)).
Qed.

Lemma refine_rounds_S hash G rounds st :
  refine_rounds hash G (S rounds) st
  = (st' ← refine_round hash G st; refine_rounds hash G rounds st').
Proof. reflexivity. Qed.

Lemma refine_rounds_outcome hash G rounds : ∀ done_rounds,
  refine_rounds hash G rounds
    (colouring_after hash G done_rounds, histogram_after hash G done_rounds)
  = match dangling G, rounds with
    | Some key, S _ => Raise (KeyError key)
    | _, _ =>
        Return (colouring_after hash G (done_rounds + rounds),
                histogram_after hash G (done_rounds + rounds))
    end.
Proof.
  induction rounds as [|rounds IH]; intros done_rounds.
  - simpl. rewrite Nat.add_0_r. by destruct (dangling G).
  - rewrite refine_rounds_S, refine_round_outcome by apply dom_colouring_after.
    specialize (IH (S done_rounds)).
    destruct (dangling G) as [key|] eqn:Hd; [done|].
    change (refine_rounds hash G rounds
              (colouring_after hash G (S done_rounds), histogram_after hash G (S done_rounds))
            = Return (colouring_after hash G (done_rounds + S rounds),
                      histogram_after hash G (done_rounds + S rounds))).
    rewrite IH.
    by replace (done_rounds + S rounds)%nat with (S done_rounds + rounds)%nat by lia.
Qed.

Lemma compute_colour_counts_cases hash G num_iterations :
  _compute_colour_counts hash G num_iterations
  = match dangling G with
    | Some key =>
        if bool_decide (0 < num_iterations) then Raise (KeyError key)
        else Return (initial_histogram hash G)
    | None => Return (histogram_after hash G (Z.to_nat num_iterations))
    end.
Proof.
  unfold _compute_colour_counts.
  pose proof (refine_rounds_outcome hash G (Z.to_nat num_iterations) 0) as Hr.
  simpl in Hr. unfold initial_histogram in Hr. rewrite Hr. clear Hr.
  destruct (dangling G) as [key|].
  - case_bool_decide as Hk.
    + destruct (Z.to_nat num_iterations) eqn:Hn; [lia|done].
    + by rewrite Z2Nat.nonpos by lia.
  - done.
Qed.

(** X7. [_compute_colour_counts] fails only on a graph with a dangling
    adjacency and at least one iteration: it then raises [KeyError] for
    the first neighbour, in the order of the round, that is not a node.
    Otherwise it returns the histogram accumulated over the initial
    colouring and the [num_iterations] refined colourings. *)
Theorem compute_colour_counts_outcome hash G num_iterations :
  _compute_colour_counts hash G num_iterations
  = match dangling G with
    | Some key =>
        if bool_decide (0 < num_iterations) then Raise (KeyError key)
        else Return (initial_histogram hash G)
    | None => Return (histogram_after hash G (Z.to_nat num_iterations))
    end.
Proof. apply compute_colour_counts_cases. Qed.

Lemma well_formed_dangling G : well_formed G = true → dangling G = None.
Proof.
  intros Hwf. unfold dangling.
  assert (Hns : ∀ n, n ∈ nodes G → n ∈ nodes G) by done. revert Hns.
  generalize (nodes G) at 1 3. intros ns. induction ns as [|n ns IH]; intros Hns; simpl; [done|].
  assert (Hn : first_missing (list_to_set (nodes G)) (adjacent G n) = None).
  { apply first_missing_None. intros m Hm. apply elem_of_list_to_set.
    apply (well_formed_adjacent G n m Hwf); [|done]. apply Hns. by left. }
  rewrite Hn. apply IH. intros m Hm. apply Hns. by right.
Qed.

(** X8. More iterations only add observations: from [num_iterations] to
    [num_iterations + 1] no count of the histogram decreases and no colour
    is dropped. *)
Theorem compute_colour_counts_monotone hash G num_iterations :
  well_formed G = true → 0 ≤ num_iterations →
  ∃ h h',
    _compute_colour_counts hash G num_iterations = Return h
    ∧ _compute_colour_counts hash G (num_iterations + 1) = Return h'
    ∧ (∀ c, get0 h c ≤ get0 h' c) ∧ dom h ⊆ dom h'.
Proof.
  intros Hwf Hk. rewrite !compute_colour_counts_cases, (well_formed_dangling G Hwf).
  replace (Z.to_nat (num_iterations + 1)) with (S (Z.to_nat num_iterations)) by lia.
  do 2 eexists. do 2 (split; [done|]). simpl.
  rewrite update_colour_counts_unfold. split.
  - intros c. rewrite get0_foldl_tally. unfold occurrences, len. lia.
  - rewrite dom_foldl_tally. set_solver.
Qed.

Lemma compute_colour_counts_monotone_witness :
  ∃ h h',
    _compute_colour_counts cpython_hash G4 2 = Return h
    ∧ _compute_colour_counts cpython_hash G4 (2 + 1) = Return h'
    ∧ (∀ c, get0 h c ≤ get0 h' c) ∧ dom h ⊆ dom h'.
Proof. apply (compute_colour_counts_monotone cpython_hash G4 2); [reflexivity | lia]. Defined.

(** X9. On non-empty graphs and with at least one iteration, [wlgk] raises
    the [KeyError] of the first graph with a dangling adjacency, the first
    argument before the second, and prints nothing. *)
Theorem wlgk_dangling hash {F : Type} `{!Float64 F} G1 G2 num_iterations key :
  no_nodes G1 = false → no_nodes G2 = false → 0 < num_iterations →
  match dangling G1 with
  | Some key1 => Some key1
  | None => dangling G2
  end = Some key →
  wlgk hash (F := F) G1 G2 num_iterations = ([], Raise (KeyError key)).
Proof.
  intros Hne1 Hne2 Hk Hkey. rewrite wlgk_nonempty by done.
  rewrite !compute_colour_counts_cases.
  destruct (dangling G1) as [key1|].
  - injection Hkey as ->. by rewrite bool_decide_eq_true_2.
  - simpl. rewrite Hkey. by rewrite bool_decide_eq_true_2.
Qed.

Lemma wlgk_dangling_witness :
  wlgk cpython_hash (F := float) G3 dangling_graph 5 = ([], Raise (KeyError 2)).
Proof. apply (wlgk_dangling cpython_hash G3 dangling_graph 5 2); [reflexivity.. | lia | reflexivity]. Defined.

(** ** Renaming the nodes *)

Lemma lookup_foldl_insert_total (f : Z → Z) l (d : gmap Z Z) n :
  foldl (λ d node, <[node := f node]> d) d l !! n
  = if bool_decide (n ∈ l) then Some (f n) else d !! n.
Proof.
  case_bool_decide as Hn; [by apply lookup_foldl_insert|].
  revert d. induction l as [|x l IH]; intros d; simpl; [done|].
  rewrite IH by (intros Hl; apply Hn; by right).
  apply lookup_insert_ne. intros ->. apply Hn. by left.
Qed.

Lemma foldl_insert_Permutation (f : Z → Z) l l' (d : gmap Z Z) :
  l ≡ₚ l' →
  foldl (λ d node, <[node := f node]> d) d l
  = foldl (λ d node, <[node := f node]> d) d l'.
Proof.
  intros Hp. apply map_eq. intros n. rewrite !lookup_foldl_insert_total.
  rewrite (bool_decide_ext (n ∈ l) (n ∈ l')); [done|]. by rewrite Hp.
Qed.

Lemma foldl_insert_ext (f g : Z → Z) l (d : gmap Z Z) :
  (∀ n, n ∈ l → f n = g n) →
  foldl (λ d node, <[node := f node]> d) d l
  = foldl (λ d node, <[node := g node]> d) d l.
Proof.
  revert d. induction l as [|x l IH]; intros d Hfg; simpl; [done|].
  rewrite (Hfg x) by by left. apply IH. intros n Hn. apply Hfg. by right.
Qed.

Section Relabelling.

Context (hash : hashable → Z) (π : Z → Z) `{!Inj (=) (=) π}.

(** A colouring with its nodes renamed. *)
Local Abbreviation renamed := (kmap (M1 := gmap Z) (M2 := gmap Z) π).

Lemma kmap_foldl_insert (f : Z → Z) l (d : gmap Z Z) :
  renamed (foldl (λ d node, <[node := f node]> d) d l)
  = foldl (λ d p, <[p.1 := p.2]> d) (renamed d) ((λ n, (π n, f n)) <$> l).
Proof.
  revert d. induction l as [|x l IH]; intros d; simpl; [done|].
  by rewrite IH, kmap_insert.
Qed.

Lemma foldl_insert_fmap (f' : Z → Z) (f : Z → Z) l (d : gmap Z Z) :
  (∀ n, n ∈ l → f' (π n) = f n) →
  foldl (λ d node, <[node := f' node]> d) d (π <$> l)
  = foldl (λ d p, <[p.1 := p.2]> d) d ((λ n, (π n, f n)) <$> l).
Proof.
  revert d. induction l as [|x l IH]; intros d Hf; simpl; [done|].
  rewrite (Hf x) by by left. apply IH. intros n Hn. apply Hf. by right.
Qed.

Lemma colours_at_kmap (node_colours : gmap Z Z) l :
  colours_at (renamed node_colours) (π <$> l) = colours_at node_colours l.
Proof.
  unfold colours_at. induction l as [|x l IH]; csimpl; [done|].
  by rewrite lookup_kmap, IH.
Qed.

Lemma dict_values_kmap (node_colours : gmap Z Z) :
  dict_values (renamed node_colours) ≡ₚ dict_values node_colours.
Proof.
  assert (Heq : (snd ∘ prod_map π Datatypes.id) <$> map_to_list node_colours
                = dict_values node_colours)
    by (apply list_fmap_ext; by intros i [k v] _).
  rewrite <- Heq. unfold dict_values.
  by rewrite map_to_list_kmap, <- list_fmap_compose.
Qed.

Lemma update_colour_counts_kmap (h node_colours : gmap Z Z) :
  _update_colour_counts h (renamed node_colours) = _update_colour_counts h node_colours.
Proof.
  rewrite !update_colour_counts_unfold.
  apply update_colour_counts_Permutation, dict_values_kmap.
Qed.

Context (G G' : Graph) (Hrel : relabelled π G G').

Lemma relabelled_initial_colour n :
  n ∈ nodes G → initial_colour hash G' (π n) = initial_colour hash G n.
Proof.
  intros Hn. unfold initial_colour.
  by rewrite (relabelled_directed _ _ _ Hrel), (relabelled_degree _ _ _ Hrel n Hn),
             (relabelled_in_degree _ _ _ Hrel n Hn),
             (relabelled_out_degree _ _ _ Hrel n Hn).
Qed.

Lemma relabelled_get_initial_colours :
  _get_initial_colours hash G' = renamed (_get_initial_colours hash G).
Proof.
  rewrite !get_initial_colours_unfold, kmap_foldl_insert, kmap_empty.
  rewrite (foldl_insert_Permutation _ _ _ ∅ (relabelled_nodes _ _ _ Hrel)).
  apply foldl_insert_fmap. intros n Hn. by apply relabelled_initial_colour.
Qed.

Lemma relabelled_signature (node_colours : gmap Z Z) n :
  n ∈ nodes G →
  neighbourhood_signature hash G' (renamed node_colours) (π n)
  = neighbourhood_signature hash G node_colours n.
Proof.
  intros Hn. unfold neighbourhood_signature.
  rewrite (relabelled_directed _ _ _ Hrel). destruct (is_directed G).
  - rewrite (sorted_of_Permutation _ _
               (colours_at_Permutation _ _ _ (relabelled_predecessors _ _ _ Hrel n Hn))),
            (sorted_of_Permutation _ _
               (colours_at_Permutation _ _ _ (relabelled_successors _ _ _ Hrel n Hn))).
    by rewrite !colours_at_kmap.
  - rewrite (sorted_of_Permutation _ _
               (colours_at_Permutation _ _ _ (relabelled_neighbors _ _ _ Hrel n Hn))).
    by rewrite colours_at_kmap.
Qed.

Lemma relabelled_refine_colouring (node_colours : gmap Z Z) :
  refine_colouring hash G' (renamed node_colours)
  = renamed (refine_colouring hash G node_colours).
Proof.
  unfold refine_colouring. rewrite kmap_foldl_insert, kmap_empty.
  rewrite (foldl_insert_Permutation _ _ _ ∅ (relabelled_nodes _ _ _ Hrel)).
  apply foldl_insert_fmap. intros n Hn. unfold refined_colour, get0.
  by rewrite lookup_kmap, relabelled_signature.
Qed.

Lemma relabelled_colouring_after rounds :
  colouring_after hash G' rounds = renamed (colouring_after hash G rounds).
Proof.
  induction rounds as [|rounds IH]; simpl.
  - apply relabelled_get_initial_colours.
  - by rewrite IH, relabelled_refine_colouring.
Qed.

Lemma relabelled_histogram_after rounds :
  histogram_after hash G' rounds = histogram_after hash G rounds.
Proof.
  induction rounds as [|rounds IH].
  - simpl. unfold initial_histogram.
    by rewrite relabelled_get_initial_colours, update_colour_counts_kmap.
  - change (_update_colour_counts (histogram_after hash G' rounds)
              (colouring_after hash G' (S rounds))
            = _update_colour_counts (histogram_after hash G rounds)
                (colouring_after hash G (S rounds))).
    by rewrite IH, relabelled_colouring_after, update_colour_counts_kmap.
Qed.

Lemma relabelled_adjacent n :
  n ∈ nodes G → adjacent G' (π n) ≡ₚ π <$> adjacent G n.
Proof.
  intros Hn. unfold adjacent. rewrite (relabelled_directed _ _ _ Hrel).
  destruct (is_directed G).
  - by rewrite fmap_app, (relabelled_predecessors _ _ _ Hrel n Hn),
               (relabelled_successors _ _ _ Hrel n Hn).
  - by apply (relabelled_neighbors _ _ _ Hrel).
Qed.

Lemma first_dangling_None H ns :
  first_dangling H ns = None
  ↔ ∀ n m, n ∈ ns → m ∈ adjacent H n → m ∈ nodes H.
Proof.
  induction ns as [|x ns IH]; simpl.
  - split; [|done]. intros _ n m Hn. by apply elem_of_nil in Hn.
  - destruct (first_missing (list_to_set (nodes H)) (adjacent H x)) as [key|] eqn:Hx.
    + split; [done|]. intros Hall. apply first_missing_Some in Hx as [Hk Hnk].
      destruct Hnk. apply elem_of_list_to_set. apply (Hall x key); [by left|done].
    + rewrite IH. rewrite first_missing_None in Hx. split.
      * intros Hall n m [->|Hn]%elem_of_cons Hm.
        -- specialize (Hx m Hm). by apply elem_of_list_to_set in Hx.
        -- by apply (Hall n m).
      * intros Hall n m Hn. apply Hall. by right.
Qed.

Lemma relabelled_dangling : dangling G = None → dangling G' = None.
Proof.
  unfold dangling. rewrite !first_dangling_None. intros Hall n' m' Hn' Hm'.
  rewrite (relabelled_nodes _ _ _ Hrel) in Hn'.
  apply list_elem_of_fmap in Hn' as (n & -> & Hn).
  rewrite (relabelled_adjacent n Hn) in Hm'.
  apply list_elem_of_fmap in Hm' as (m & -> & Hm).
  rewrite (relabelled_nodes _ _ _ Hrel). apply list_elem_of_fmap.
  exists m. split; [done|]. by apply (Hall n m).
Qed.

Lemma relabelled_no_nodes : no_nodes G' = no_nodes G.
Proof.
  assert (Hlen : length (nodes G') = length (nodes G)).
  { rewrite (Permutation_length (relabelled_nodes _ _ _ Hrel)). apply length_fmap. }
  unfold no_nodes. apply bool_decide_ext. by rewrite Hlen.
Qed.

Lemma relabelled_compute_colour_counts num_iterations :
  dangling G = None →
  _compute_colour_counts hash G' num_iterations
  = _compute_colour_counts hash G num_iterations.
Proof.
  intros Hd. rewrite !compute_colour_counts_cases, Hd, (relabelled_dangling Hd).
  by rewrite relabelled_histogram_after.
Qed.

End Relabelling.

(** X10. The histogram of a graph is invariant under renaming its nodes
    by an injective function and under the order in which the nodes and
    the neighbours of a node are enumerated. *)
Theorem compute_colour_counts_relabelled hash (π : Z → Z) G G' num_iterations :
  Inj (=) (=) π → relabelled π G G' → well_formed G = true →
  _compute_colour_counts hash G' num_iterations
  = _compute_colour_counts hash G num_iterations.
Proof.
  intros Hinj Hrel Hwf.
  by apply (relabelled_compute_colour_counts hash π G G' Hrel), well_formed_dangling.
Qed.

#[global] Instance shift10_inj : Inj (=) (=) shift10.
Proof. intros x y. unfold shift10. lia. Qed.

Lemma in_three (a b c n : Z) : n ∈ [a; b; c] → n = a ∨ n = b ∨ n = c.
Proof. set_solver. Qed.

Lemma G3_shifted_relabelled : relabelled shift10 G3 G3_shifted.
Proof.
  split; try reflexivity.
  - apply (bool_decide_unpack _). vm_compute. exact I.
  - intros n [->|[->| ->]]%in_three; reflexivity.
  - intros n [->|[->| ->]]%in_three; apply (bool_decide_unpack _); vm_compute; exact I.
Qed.

Lemma compute_colour_counts_relabelled_witness :
  _compute_colour_counts cpython_hash G3_shifted 5
  = _compute_colour_counts cpython_hash G3 5.
Proof.
  apply (compute_colour_counts_relabelled cpython_hash shift10 G3 G3_shifted 5);
    [apply _ | apply G3_shifted_relabelled | reflexivity].
Defined.

Lemma relabelled_refl G : relabelled Datatypes.id G G.
Proof. split; try done; intros; by rewrite list_fmap_id. Qed.

(** ** The comparator on histograms *)

Lemma get0_in_dom (h : gmap Z Z) c : counts_positive h → c ∈ dom h → 1 ≤ get0 h c.
Proof.
  intros Hp [v Hv]%elem_of_dom. unfold get0. rewrite Hv. simpl.
  by apply (Hp c v).
Qed.

Lemma get0_not_in_dom (h : gmap Z Z) c : c ∉ dom h → get0 h c = 0.
Proof. intros Hc%not_elem_of_dom. unfold get0. by rewrite Hc. Qed.

Lemma dotR_colour_vector_zero l (h1 h2 : gmap Z Z) :
  counts_positive h1 → counts_positive h2 →
  dotR (realv (colour_vector l h1)) (realv (colour_vector l h2)) = 0%R
  ↔ ∀ c, c ∈ l → ¬ (c ∈ dom h1 ∧ c ∈ dom h2).
Proof.
  intros Hp1 Hp2. induction l as [|x l IH]; unfold realv, colour_vector in *; csimpl.
  - split; [|done]. intros _ c Hc. by apply elem_of_nil in Hc.
  - pose proof (dotR_nonneg _ _ (realv_nonneg _ (colour_vector_nonneg l h1 Hp1))
                  (realv_nonneg _ (colour_vector_nonneg l h2 Hp2))) as Hrest.
    unfold realv, colour_vector in Hrest.
    set (rest := dotR (IZR <$> (get0 h1 <$> l)) (IZR <$> (get0 h2 <$> l))) in *.
    destruct (decide (x ∈ dom h1)) as [H1|H1], (decide (x ∈ dom h2)) as [H2|H2].
    + pose proof (IZR_le _ _ (get0_in_dom h1 x Hp1 H1)) as Ha.
      pose proof (IZR_le _ _ (get0_in_dom h2 x Hp2 H2)) as Hb.
      split.
      * intros Hz. exfalso. nra.
      * intros Hall. destruct (Hall x); [by left|done].
    + rewrite (get0_not_in_dom h2 x H2), Rmult_0_r, Rplus_0_l, IH. split.
      * intros Hall c [->|Hc]%elem_of_cons; [tauto|by apply Hall].
      * intros Hall c Hc. apply Hall. by right.
    + rewrite (get0_not_in_dom h1 x H1), Rmult_0_l, Rplus_0_l, IH. split.
      * intros Hall c [->|Hc]%elem_of_cons; [tauto|by apply Hall].
      * intros Hall c Hc. apply Hall. by right.
    + rewrite (get0_not_in_dom h1 x H1), Rmult_0_l, Rplus_0_l, IH. split.
      * intros Hall c [->|Hc]%elem_of_cons; [tauto|by apply Hall].
      * intros Hall c Hc. apply Hall. by right.
Qed.

Lemma singleton_counts_positive (c v : Z) : 1 ≤ v → counts_positive {[c := v]}.
Proof. intros Hv. by apply map_Forall_singleton. Qed.

Lemma singleton_non_empty (c v : Z) : ({[c := v]} : gmap Z Z) ≠ ∅.
Proof. apply insert_non_empty. Qed.

(** *** Scaling *)

Lemma dom_scale a (h : gmap Z Z) : dom (scale a h) = dom h.
Proof. unfold scale. apply dom_fmap_L. Qed.

Lemma get0_scale a (h : gmap Z Z) c : get0 (scale a h) c = a * get0 h c.
Proof.
  unfold get0, scale. rewrite lookup_fmap. destruct (h !! c); simpl; lia.
Qed.

Lemma scale_non_empty a (h : gmap Z Z) : h ≠ ∅ → scale a h ≠ ∅.
Proof. unfold scale. by rewrite fmap_empty_iff. Qed.

Lemma scale_counts_positive a (h : gmap Z Z) :
  0 < a → counts_positive h → counts_positive (scale a h).
Proof.
  intros Ha Hp c v. unfold scale. rewrite lookup_fmap.
  destruct (h !! c) as [w|] eqn:Hw; simpl; [|done]. intros [= <-].
  specialize (Hp c w Hw). simpl in Hp. nia.
Qed.

Lemma realv_colour_vector_scale l a (h : gmap Z Z) :
  realv (colour_vector l (scale a h))
  = (λ x, IZR a * x)%R <$> realv (colour_vector l h).
Proof.
  unfold realv, colour_vector. rewrite <- !list_fmap_compose.
  apply list_fmap_ext. intros i c _. simpl. by rewrite get0_scale, mult_IZR.
Qed.

Lemma dotR_scale_l (s : R) a b :
  dotR ((λ x, s * x)%R <$> a) b = (s * dotR a b)%R.
Proof.
  revert b. induction a as [|x a IH]; intros [|y b]; csimpl; try lra.
  rewrite IH. lra.
Qed.

Lemma normR_scale l a (h : gmap Z Z) :
  0 < a →
  normR (colour_vector l (scale a h)) = (IZR a * normR (colour_vector l h))%R.
Proof.
  intros Ha. unfold normR. rewrite realv_colour_vector_scale.
  rewrite dotR_scale_l, (dotR_comm _ ((λ x, IZR a * x)%R <$> _)), dotR_scale_l.
  assert (Hs : (0 < IZR a)%R) by by apply IZR_lt.
  rewrite <- Rmult_assoc, sqrt_mult; [|nra|apply dotR_self_nonneg].
  by rewrite sqrt_square by lra.
Qed.

Lemma cosine_scale_l l a (h1 h2 : gmap Z Z) :
  0 < a → (0 < normR (colour_vector l h1))%R → (0 < normR (colour_vector l h2))%R →
  cosine l (scale a h1) h2 = cosine l h1 h2.
Proof.
  intros Ha H1 H2. unfold cosine.
  rewrite normR_scale, realv_colour_vector_scale, dotR_scale_l by done.
  assert (Hs : (0 < IZR a)%R) by by apply IZR_lt.
  field. lra.
Qed.

(** ** Regular graphs *)

Lemma gmap_eq_get0 (h h' : gmap Z Z) :
  dom h = dom h' → (∀ c, get0 h c = get0 h' c) → h = h'.
Proof.
  intros Hd Hg. apply map_eq. intros c. specialize (Hg c). unfold get0 in Hg.
  destruct (h !! c) as [v|] eqn:H1, (h' !! c) as [v'|] eqn:H2; simpl in Hg.
  - by subst.
  - apply (elem_of_dom_2 (D := gset Z)) in H1. rewrite Hd in H1.
    apply elem_of_dom in H1 as [? ?]. congruence.
  - apply (elem_of_dom_2 (D := gset Z)) in H2. rewrite <- Hd in H2.
    apply elem_of_dom in H2 as [? ?]. congruence.
  - done.
Qed.

Lemma sorted_replicate k c : sorted (replicate k c) = replicate k c.
Proof.
  induction k as [|k IH]; simpl; [done|]. rewrite IH.
  destruct k; simpl; [done|]. by rewrite Z.leb_refl.
Qed.

Lemma colours_at_constant (node_colours : gmap Z Z) l c :
  (∀ m, m ∈ l → node_colours !! m = Some c) →
  colours_at node_colours l = replicate (length l) c.
Proof.
  unfold colours_at. induction l as [|x l IH]; intros Hl; csimpl; [done|].
  rewrite (Hl x) by by left. simpl. f_equal. apply IH. intros m Hm. apply Hl. by right.
Qed.

Lemma occurrences_replicate c k c' :
  occurrences c (replicate k c') = if bool_decide (c' = c) then Z.of_nat k else 0.
Proof.
  unfold occurrences, len. induction k as [|k IH]; simpl.
  - by case_bool_decide.
  - rewrite filter_cons. case_bool_decide; case_decide; try done; simpl length; lia.
Qed.

Lemma list_to_set_replicate k (c : Z) :
  (0 < k)%nat → list_to_set (replicate k c) =@{gset Z} {[c]}.
Proof.
  intros Hk. apply set_eq. intros x.
  rewrite elem_of_list_to_set, elem_of_replicate, elem_of_singleton. split.
  - by intros [-> _].
  - intros ->. split; [done|lia].
Qed.

Lemma tally_scale_replicate k (m : gmap Z Z) c :
  (0 < k)%nat →
  foldl tally (scale (Z.of_nat k) m) (replicate k c) = scale (Z.of_nat k) (tally m c).
Proof.
  intros Hk. apply gmap_eq_get0.
  - by rewrite dom_foldl_tally, !dom_scale, dom_tally, list_to_set_replicate.
  - intros c'. rewrite get0_foldl_tally, !get0_scale, get0_tally, occurrences_replicate.
    case_bool_decide; lia.
Qed.

Lemma constant_values (d : gmap Z Z) c :
  (∀ k v, d !! k = Some v → v = c) → dict_values d = replicate (size d) c.
Proof.
  intros Hd. rewrite <- length_dict_values.
  assert (Hall : Forall (λ v, v = c) (dict_values d)).
  { unfold dict_values. apply Forall_fmap, Forall_forall. intros [k v] Hkv. simpl.
    apply elem_of_map_to_list in Hkv. by apply (Hd k). }
  induction Hall as [|v l -> _ IH]; simpl; [done|]. by rewrite <- IH.
Qed.

Section Regular.

Context (hash : hashable → Z) (p : profile) (G : Graph).
Context (Hwf : well_formed G = true) (Hreg : regular p G = true).

Lemma regular_directed : is_directed G = p_directed p.
Proof.
  unfold regular in Hreg. apply andb_prop in Hreg as [Hd _].
  by apply bool_decide_eq_true in Hd.
Qed.

Lemma regular_has_profile n : n ∈ nodes G → has_profile p G n = true.
Proof.
  intros Hn. unfold regular in Hreg. apply andb_prop in Hreg as [_ Hall].
  rewrite forallb_forall in Hall. by apply Hall, list_elem_of_In.
Qed.

Lemma lookup_constant_colouring c n :
  n ∈ nodes G → constant_colouring G c !! n = Some c.
Proof. intros Hn. by apply (lookup_foldl_insert (λ _, c)). Qed.

Lemma regular_initial_colours :
  _get_initial_colours hash G = constant_colouring G (uniform_colour hash p 0).
Proof.
  rewrite get_initial_colours_unfold. apply foldl_insert_ext. intros n Hn.
  pose proof (regular_has_profile n Hn) as Hp.
  unfold has_profile in Hp. unfold initial_colour. simpl. unfold uniform_initial.
  rewrite <- regular_directed. destruct (is_directed G).
  - apply andb_prop in Hp as [[[Hi Ho]%andb_prop _]%andb_prop _].
    apply bool_decide_eq_true in Hi, Ho. by rewrite Hi, Ho.
  - apply andb_prop in Hp as [Hd _]. apply bool_decide_eq_true in Hd. by rewrite Hd.
Qed.

Lemma regular_refined_colour c n :
  n ∈ nodes G →
  refined_colour hash G (constant_colouring G c) n = uniform_next hash p c.
Proof.
  intros Hn. pose proof (regular_has_profile n Hn) as Hp.
  assert (Hadj : ∀ m, m ∈ adjacent G n → constant_colouring G c !! m = Some c).
  { intros m Hm. apply lookup_constant_colouring.
    by apply (well_formed_adjacent G n m). }
  unfold refined_colour, uniform_next, neighbourhood_signature, get0.
  rewrite (lookup_constant_colouring c n Hn). simpl. f_equal.
  unfold has_profile in Hp. unfold adjacent in Hadj. rewrite <- regular_directed.
  destruct (is_directed G).
  - apply andb_prop in Hp as [[_ Hnp%bool_decide_eq_true]%andb_prop
                                Hns%bool_decide_eq_true].
    rewrite (colours_at_constant _ (predecessors G n) c),
            (colours_at_constant _ (successors G n) c).
    + by rewrite !sorted_replicate, Hnp, Hns.
    + intros m Hm. apply Hadj, elem_of_app. by right.
    + intros m Hm. apply Hadj, elem_of_app. by left.
  - apply andb_prop in Hp as [_ Hnn%bool_decide_eq_true].
    rewrite (colours_at_constant _ (neighbors G n) c) by done.
    by rewrite sorted_replicate, Hnn.
Qed.

Lemma regular_colouring_after rounds :
  colouring_after hash G rounds = constant_colouring G (uniform_colour hash p rounds).
Proof.
  induction rounds as [|rounds IH]; simpl.
  - apply regular_initial_colours.
  - rewrite IH. unfold refine_colouring. apply foldl_insert_ext.
    intros n Hn. by apply regular_refined_colour.
Qed.

Lemma dict_values_constant_colouring c :
  dict_values (constant_colouring G c) = replicate (length (nodes G)) c.
Proof.
  rewrite <- (size_of_colouring G (constant_colouring G c)).
  - apply constant_values. intros k v. unfold constant_colouring.
    rewrite (lookup_foldl_insert_total (λ _, c)).
    case_bool_decide; [by intros [= <-] | by rewrite lookup_empty].
  - by apply well_formed_NoDup.
  - unfold constant_colouring. rewrite dom_foldl_insert. set_solver.
Qed.

Lemma regular_histogram_after rounds :
  no_nodes G = false →
  histogram_after hash G rounds
  = scale (len (nodes G)) (uniform_histogram hash p rounds).
Proof.
  intros Hne. apply no_nodes_false in Hne. unfold len in *.
  assert (Hk : (0 < length (nodes G))%nat) by lia.
  induction rounds as [|rounds IH].
  - simpl. unfold initial_histogram.
    rewrite update_colour_counts_unfold, regular_initial_colours,
            dict_values_constant_colouring.
    rewrite <- (tally_scale_replicate _ ∅ _ Hk). unfold scale. by rewrite fmap_empty.
  - change (_update_colour_counts (histogram_after hash G rounds)
              (colouring_after hash G (S rounds))
            = scale (Z.of_nat (length (nodes G)))
                (tally (uniform_histogram hash p rounds) (uniform_colour hash p (S rounds)))).
    rewrite update_colour_counts_unfold, IH, regular_colouring_after,
            dict_values_constant_colouring.
    by apply tally_scale_replicate.
Qed.

End Regular.

Lemma uniform_histogram_non_empty hash p rounds : uniform_histogram hash p rounds ≠ ∅.
Proof. destruct rounds; simpl; apply insert_non_empty. Qed.

Lemma uniform_histogram_positive hash p rounds :
  counts_positive (uniform_histogram hash p rounds).
Proof.
  induction rounds as [|rounds IH]; simpl.
  - apply counts_positive_tally, map_Forall_empty.
  - by apply counts_positive_tally.
Qed.

(** X15. Colour refinement cannot tell the nodes of a regular graph apart:
    at every round all nodes share one colour, so the histogram is the
    histogram of that sequence of colours with every count multiplied by
    the number of nodes.  It depends on the graph only through the profile
    of its nodes and their number. *)
Theorem compute_colour_counts_regular hash p G num_iterations :
  well_formed G = true → regular p G = true → no_nodes G = false →
  _compute_colour_counts hash G num_iterations
  = Return (scale (len (nodes G)) (uniform_histogram hash p (Z.to_nat num_iterations))).
Proof.
  intros Hwf Hreg Hne.
  rewrite compute_colour_counts_cases, (well_formed_dangling G Hwf).
  by rewrite (regular_histogram_after hash p G Hwf Hreg).
Qed.

Lemma compute_colour_counts_regular_witness :
  _compute_colour_counts cpython_hash G2 5
  = Return (scale (len (nodes G2)) (uniform_histogram cpython_hash dicycle_profile (Z.to_nat 5))).
Proof.
  apply (compute_colour_counts_regular cpython_hash dicycle_profile G2 5); reflexivity.
Defined.

(** * Rounding *)

Lemma unit_roundoff_pos : (0 < unit_roundoff < 1 / 2)%R.
Proof. unfold unit_roundoff. lra. Qed.

Lemma relerr_ge_1 : (1 <= relerr)%R.
Proof.
  unfold relerr. pose proof unit_roundoff_pos as Hu.
  rewrite <- Rinv_1 at 1. apply Rinv_le_contravar; lra.
Qed.

Lemma relerr_pos : (0 < relerr)%R.
Proof. pose proof relerr_ge_1. lra. Qed.

Lemma relerr_inv : (/ relerr = 1 - unit_roundoff)%R.
Proof. unfold relerr. pose proof unit_roundoff_pos. by rewrite Rinv_inv. Qed.

Lemma relerr_pow_ge_1 k : (1 <= relerr ^ k)%R.
Proof. apply pow_R1_Rle, relerr_ge_1. Qed.

Lemma relerr_pow_pos k : (0 < relerr ^ k)%R.
Proof. pose proof (relerr_pow_ge_1 k). lra. Qed.

Lemma relerr_pow_le k k' : (k ≤ k')%nat → (relerr ^ k <= relerr ^ k')%R.
Proof. intros Hk. apply Rle_pow; [apply relerr_ge_1 | done]. Qed.

Lemma Rabs_bound (x b : R) : (Rabs x <= b)%R → (- b <= x <= b)%R.
Proof. unfold Rabs. destruct (Rcase_abs x); lra. Qed.

(** One rounding. *)
Lemma rounding_factor δ :
  (Rabs δ <= unit_roundoff)%R → (/ relerr <= 1 + δ <= relerr)%R.
Proof.
  intros Hd. apply Rabs_bound in Hd. rewrite relerr_inv.
  pose proof unit_roundoff_pos as Hu. split; [lra|].
  unfold relerr. apply Rmult_le_reg_r with (1 - unit_roundoff)%R; [lra|].
  rewrite Rinv_l by lra. nra.
Qed.

(** A number known up to [k] roundings and rounded once more. *)
Lemma rounded_once (r v δ : R) k :
  (0 <= r)%R → (r / relerr ^ k <= v <= r * relerr ^ k)%R →
  (Rabs δ <= unit_roundoff)%R →
  (r / relerr ^ S k <= v * (1 + δ) <= r * relerr ^ S k)%R.
Proof.
  intros Hr [Hlo Hhi] Hd. apply rounding_factor in Hd as [Hd1 Hd2].
  pose proof (relerr_pow_pos k) as Hk. pose proof relerr_pos as Hw.
  assert (Hv : (0 <= v)%R).
  { eapply Rle_trans; [|exact Hlo]. apply Rmult_le_pos; [done|].
    left. by apply Rinv_0_lt_compat. }
  assert (Hd0 : (0 <= 1 + δ)%R).
  { eapply Rle_trans; [|exact Hd1]. left. by apply Rinv_0_lt_compat. }
  simpl. split.
  - replace (r / (relerr * relerr ^ k))%R with (r / relerr ^ k * / relerr)%R
      by (field; lra).
    apply Rmult_le_compat; try done.
    + apply Rmult_le_pos; [done|]. left. by apply Rinv_0_lt_compat.
    + left. by apply Rinv_0_lt_compat.
  - replace (r * (relerr * relerr ^ k))%R with (r * relerr ^ k * relerr)%R by ring.
    apply Rmult_le_compat; done.
Qed.

Lemma half_le_div (r P : R) : (0 <= r)%R → (0 < P <= 2)%R → (r / 2 <= r / P)%R.
Proof.
  intros Hr [HP0 HP2]. unfold Rdiv. apply Rmult_le_compat_l; [done|].
  by apply Rinv_le_contravar.
Qed.

Lemma times_le_double (r P : R) : (0 <= r)%R → (P <= 2)%R → (r * P <= 2 * r)%R.
Proof. intros Hr HP. rewrite (Rmult_comm 2). by apply Rmult_le_compat_l. Qed.

Lemma tiny_pos : (0 < tiny)%R.
Proof. unfold tiny. apply Rinv_0_lt_compat, IZR_lt. lia. Qed.

Section Rounding.

Context {F : Type} `{StandardModel F}.

Lemma near_nonneg k (x : F) r :
  (0 <= r)%R → near k x r → ∃ v, fval x v ∧ (0 <= v <= r * relerr ^ k)%R
                               ∧ (r / relerr ^ k <= v)%R.
Proof.
  intros Hr (v & Hv & Hlo & Hhi). exists v. repeat split; try done.
  eapply Rle_trans; [|exact Hlo]. apply Rmult_le_pos; [done|].
  left. apply Rinv_0_lt_compat, relerr_pow_pos.
Qed.

Lemma near_le k k' (x : F) r :
  (0 <= r)%R → (k ≤ k')%nat → near k x r → near k' x r.
Proof.
  intros Hr Hk (v & Hv & Hlo & Hhi). exists v. split; [done|].
  pose proof (relerr_pow_le k k' Hk) as Hw.
  pose proof (relerr_pow_pos k) as Hk0. pose proof (relerr_pow_pos k') as Hk0'.
  split.
  - eapply Rle_trans; [|exact Hlo]. apply Rmult_le_compat_l; [done|].
    by apply Rinv_le_contravar.
  - eapply Rle_trans; [exact Hhi|]. by apply Rmult_le_compat_l.
Qed.

Lemma near_zero k : near k f_zero 0.
Proof. exists 0%R. split; [apply sm_zero|]. unfold Rdiv. rewrite !Rmult_0_l. lra. Qed.

Lemma near_of_int (z : Z) : 0 ≤ z ≤ 2 ^ 53 → near 0 (f_of_int z) (IZR z).
Proof.
  intros Hz. exists (IZR z). split; [apply sm_of_int; lia|]. simpl. lra.
Qed.

Lemma near_add k (x y : F) a b :
  (0 <= a)%R → (0 <= b)%R → near k x a → near k y b →
  (relerr ^ k <= 2)%R → (a + b <= big / 2)%R →
  near (S k) (f_add x y) (a + b).
Proof.
  intros Ha Hb Hx Hy Hk Hab.
  destruct (near_nonneg k x a Ha Hx) as (va & Hva & [Ha0 Hahi] & Halo).
  destruct (near_nonneg k y b Hb Hy) as (vb & Hvb & [Hb0 Hbhi] & Hblo).
  pose proof (relerr_pow_pos k) as Hk0.
  destruct (sm_add x y va vb Hva Hvb) as (δ & Hd & Hv).
  { rewrite Rabs_pos_eq by lra. nra. }
  exists ((va + vb) * (1 + δ))%R. split; [done|].
  apply rounded_once; [lra| |done]. split.
  - unfold Rdiv in *. lra.
  - lra.
Qed.

Lemma near_mul k1 k2 (x y : F) a b :
  (0 <= a)%R → (0 <= b)%R → near k1 x a → near k2 y b →
  (relerr ^ (k1 + k2) <= 2)%R → representable (a * b) →
  near (S (k1 + k2)) (f_mul x y) (a * b).
Proof.
  intros Ha Hb Hx Hy Hk Hab.
  destruct (near_nonneg k1 x a Ha Hx) as (va & Hva & [Ha0 Hahi] & Halo).
  destruct (near_nonneg k2 y b Hb Hy) as (vb & Hvb & [Hb0 Hbhi] & Hblo).
  pose proof (relerr_pow_pos k1) as Hk1. pose proof (relerr_pow_pos k2) as Hk2.
  rewrite pow_add in Hk.
  assert (Hlo : (a * b / (relerr ^ k1 * relerr ^ k2) <= va * vb)%R).
  { replace (a * b / (relerr ^ k1 * relerr ^ k2))%R
      with ((a / relerr ^ k1) * (b / relerr ^ k2))%R by (field; lra).
    apply Rmult_le_compat; try done;
      (apply Rmult_le_pos; [done|]; left; by apply Rinv_0_lt_compat). }
  assert (Hhi : (va * vb <= a * b * (relerr ^ k1 * relerr ^ k2))%R).
  { replace (a * b * (relerr ^ k1 * relerr ^ k2))%R
      with ((a * relerr ^ k1) * (b * relerr ^ k2))%R by ring.
    by apply Rmult_le_compat. }
  destruct (sm_mul x y va vb Hva Hvb) as (δ & Hd & Hv).
  { destruct Hab as [Hz|[Hab1 Hab2]].
    - left. rewrite Hz, Rmult_0_l in Hhi. nra.
    - right. rewrite Rabs_pos_eq by nra. split.
      + eapply Rle_trans; [|exact Hlo].
        eapply Rle_trans; [|apply half_le_div; [nra|split; [nra|done]]]. lra.
      + eapply Rle_trans; [exact Hhi|].
        eapply Rle_trans; [apply times_le_double; [nra|done]|]. lra. }
  exists (va * vb * (1 + δ))%R. split; [done|].
  apply rounded_once; [nra| |done]. by rewrite pow_add.
Qed.

Lemma near_div k1 k2 (x y : F) a b :
  (0 <= a)%R → (0 < b)%R → near k1 x a → near k2 y b →
  (relerr ^ (k1 + k2) <= 2)%R → representable (a / b) →
  near (S (k1 + k2)) (f_div x y) (a / b).
Proof.
  intros Ha Hb Hx Hy Hk Hab.
  destruct (near_nonneg k1 x a Ha Hx) as (va & Hva & [Ha0 Hahi] & Halo).
  destruct (near_nonneg k2 y b (Rlt_le _ _ Hb) Hy) as (vb & Hvb & [Hb0 Hbhi] & Hblo).
  pose proof (relerr_pow_pos k1) as Hk1. pose proof (relerr_pow_pos k2) as Hk2.
  rewrite pow_add in Hk.
  assert (Hvb0 : (0 < vb)%R).
  { eapply Rlt_le_trans; [|exact Hblo]. apply Rmult_lt_0_compat; [done|].
    by apply Rinv_0_lt_compat. }
  assert (Hlo : (a / b / (relerr ^ k1 * relerr ^ k2) <= va / vb)%R).
  { replace (a / b / (relerr ^ k1 * relerr ^ k2))%R
      with ((a / relerr ^ k1) * / (b * relerr ^ k2))%R by (field; lra).
    apply Rmult_le_compat; try done.
    - apply Rmult_le_pos; [done|]. left. by apply Rinv_0_lt_compat.
    - left. apply Rinv_0_lt_compat. nra.
    - apply Rinv_le_contravar; done. }
  assert (Hhi : (va / vb <= a / b * (relerr ^ k1 * relerr ^ k2))%R).
  { replace (a / b * (relerr ^ k1 * relerr ^ k2))%R
      with ((a * relerr ^ k1) * / (b / relerr ^ k2))%R by (field; lra).
    apply Rmult_le_compat; try done.
    - left. by apply Rinv_0_lt_compat.
    - apply Rinv_le_contravar; [|done]. apply Rmult_lt_0_compat; [done|].
      by apply Rinv_0_lt_compat. }
  assert (Hq : (0 <= va / vb)%R).
  { apply Rmult_le_pos; [done|]. left. by apply Rinv_0_lt_compat. }
  assert (Hab0 : (0 <= a / b)%R).
  { apply Rmult_le_pos; [done|]. left. by apply Rinv_0_lt_compat. }
  destruct (sm_div x y va vb Hva Hvb) as (δ & Hd & Hv).
  { lra. }
  { destruct Hab as [Hz|[Hab1 Hab2]].
    - left. rewrite Hz, Rmult_0_l in Hhi. unfold Rdiv in Hq.
      assert (Hq0 : (va / vb = 0)%R) by (unfold Rdiv; lra).
      apply (Rmult_eq_compat_r vb) in Hq0. unfold Rdiv in Hq0.
      rewrite Rmult_assoc, Rinv_l, Rmult_1_r, Rmult_0_l in Hq0 by lra. done.
    - right. rewrite Rabs_pos_eq by done. split.
      + eapply Rle_trans; [|exact Hlo].
        eapply Rle_trans; [|apply half_le_div; [done|split; [nra|done]]]. lra.
      + eapply Rle_trans; [exact Hhi|].
        eapply Rle_trans; [apply times_le_double; [done|done]|]. lra. }
  exists (va / vb * (1 + δ))%R. split; [done|].
  apply rounded_once; [done| |done]. by rewrite pow_add.
Qed.

Lemma near_sqrt k (x : F) a :
  (0 <= a)%R → near k x a → near (S k) (f_sqrt x) (R_sqrt.sqrt a).
Proof.
  intros Ha Hx.
  destruct (near_nonneg k x a Ha Hx) as (va & Hva & [Ha0 Hahi] & Halo).
  pose proof (relerr_pow_pos k) as Hk0. pose proof (relerr_pow_ge_1 k) as Hk1.
  destruct (sm_sqrt x va Hva Ha0) as (δ & Hd & Hv).
  exists (R_sqrt.sqrt va * (1 + δ))%R. split; [done|].
  apply rounded_once; [apply sqrt_pos| |done].
  assert (Hs : (R_sqrt.sqrt (relerr ^ k) <= relerr ^ k)%R).
  { rewrite <- (sqrt_square (relerr ^ k)) at 2 by lra.
    apply sqrt_le_1_alt. nra. }
  assert (Hs0 : (0 < R_sqrt.sqrt (relerr ^ k))%R) by by apply sqrt_lt_R0.
  split.
  - apply Rle_trans with (R_sqrt.sqrt (a / relerr ^ k)).
    + rewrite sqrt_div_alt by done. unfold Rdiv.
      apply Rmult_le_compat_l; [apply sqrt_pos|]. by apply Rinv_le_contravar.
    + by apply sqrt_le_1_alt.
  - apply Rle_trans with (R_sqrt.sqrt (a * relerr ^ k)).
    + by apply sqrt_le_1_alt.
    + rewrite sqrt_mult by lra. apply Rmult_le_compat_l; [apply sqrt_pos|done].
Qed.

Lemma near_fold k (xs : list F) (ra : list R) :
  Forall2 (near k) xs ra →
  ∀ (ys : list F) (rb : list R) m acc A,
  Forall2 (near k) ys rb →
  Forall2 (λ a b, (0 <= a)%R ∧ (0 <= b)%R ∧ representable (a * b)) ra rb →
  (0 <= A)%R → near m acc A → (S (k + k) ≤ m)%nat →
  (relerr ^ (m + length ra) <= 2)%R → (A + dotR ra rb <= big / 2)%R →
  near (m + length ra) (foldl f_add acc (zip_with f_mul xs ys)) (A + dotR ra rb).
Proof.
  induction 1 as [|x a xs ra Hx Hxs IH]; intros ys rb m acc A Hys Hr HA Hacc Hm Hw Hsum.
  - simpl. by rewrite Nat.add_0_r, Rplus_0_r.
  - destruct rb as [|b rb]; [by apply Forall2_cons_nil_inv in Hr|].
    apply Forall2_cons_1 in Hr as [(Ha & Hb & Hab) Hr].
    destruct ys as [|y ys]; [by apply Forall2_nil_cons_inv in Hys|].
    apply Forall2_cons_1 in Hys as [Hy Hys].
    assert (Hrest : (0 <= dotR ra rb)%R).
    { apply dotR_nonneg.
      - eapply Forall2_Forall_l; [exact Hr|]. apply Forall_true. by intros ?? (? & _).
      - eapply Forall2_Forall_r; [exact Hr|]. apply Forall_true. by intros ?? (_ & ? & _). }
    assert (Hprod : (0 <= a * b)%R) by by apply Rmult_le_pos.
    simpl in *.
    assert (Hwm : (relerr ^ m <= 2)%R).
    { eapply Rle_trans; [|exact Hw]. apply relerr_pow_le. lia. }
    assert (Hp : near m (f_mul x y) (a * b)).
    { apply (near_le (S (k + k))); [done|done|].
      apply near_mul; try done.
      eapply Rle_trans; [|exact Hwm]. apply relerr_pow_le. lia. }
    assert (Hacc' : near (S m) (f_add acc (f_mul x y)) (A + a * b)).
    { apply near_add; try done. lra. }
    replace (m + S (length ra))%nat with (S m + length ra)%nat by lia.
    replace (A + (a * b + dotR ra rb))%R with (A + a * b + dotR ra rb)%R by ring.
    apply IH; try done.
    + lra.
    + lia.
    + by replace (S m + length ra)%nat with (m + S (length ra))%nat by lia.
    + lra.
Qed.

Lemma near_dot k (xs ys : list F) (ra rb : list R) :
  Forall2 (near k) xs ra → Forall2 (near k) ys rb →
  Forall2 (λ a b, (0 <= a)%R ∧ (0 <= b)%R ∧ representable (a * b)) ra rb →
  (relerr ^ (S (k + k) + length ra) <= 2)%R → (dotR ra rb <= big / 2)%R →
  near (S (k + k) + length ra) (np_dot xs ys) (dotR ra rb).
Proof.
  intros Hx Hy Hr Hw Hsum. unfold np_dot.
  rewrite <- (Rplus_0_l (dotR ra rb)).
  apply (near_fold k xs ra Hx ys rb (S (k + k)) f_zero 0%R Hy Hr).
  - lra.
  - apply near_zero.
  - done.
  - done.
  - lra.
Qed.

End Rounding.

(** ** Numbers *)

Lemma bernoulli (K : nat) :
  (1 - INR K * unit_roundoff <= (1 - unit_roundoff) ^ K)%R.
Proof.
  pose proof unit_roundoff_pos as Hu.
  induction K as [|K IH]; [simpl; lra|].
  rewrite S_INR. simpl.
  assert (Hk : (0 <= INR K)%R) by apply pos_INR.
  apply Rle_trans with ((1 - unit_roundoff) * (1 - INR K * unit_roundoff))%R.
  - nra.
  - apply Rmult_le_compat_l; [lra|done].
Qed.

Lemma relerr_pow_bound (K : nat) :
  (INR K * unit_roundoff < 1)%R →
  (relerr ^ K <= / (1 - INR K * unit_roundoff))%R.
Proof.
  intros HK. pose proof unit_roundoff_pos as Hu. unfold relerr.
  rewrite pow_inv. apply Rinv_le_contravar; [lra|apply bernoulli].
Qed.

Lemma relerr_budget (n K : nat) :
  Z.of_nat n ≤ size_limit → (K ≤ 3 * n + 7)%nat →
  (relerr ^ K <= 1 + tolerance)%R.
Proof.
  intros Hn HK. eapply Rle_trans; [apply (relerr_pow_le K (3 * n + 7) HK)|].
  assert (HnR : (INR n <= 8589934592)%R).
  { rewrite INR_IZR_INZ. apply IZR_le. unfold size_limit in Hn. lia. }
  assert (Hn0 : (0 <= INR n)%R) by apply pos_INR.
  assert (HKR : (INR (3 * n + 7) = 3 * INR n + 7)%R).
  { rewrite plus_INR, mult_INR. simpl. lra. }
  assert (Hq : (INR (3 * n + 7) * unit_roundoff <= 287 / 100000000)%R).
  { rewrite HKR. unfold unit_roundoff. lra. }
  assert (Hq0 : (0 <= INR (3 * n + 7) * unit_roundoff)%R).
  { rewrite HKR. unfold unit_roundoff. nra. }
  eapply Rle_trans; [apply relerr_pow_bound; lra|].
  set (q := (INR (3 * n + 7) * unit_roundoff)%R) in *.
  apply Rmult_le_reg_r with (1 - q)%R; [lra|].
  rewrite Rinv_l by lra. unfold tolerance. lra.
Qed.

Lemma relerr_budget_2 (n K : nat) :
  Z.of_nat n ≤ size_limit → (K ≤ 3 * n + 7)%nat → (relerr ^ K <= 2)%R.
Proof.
  intros Hn HK. pose proof (relerr_budget n K Hn HK). unfold tolerance in *. lra.
Qed.

Lemma limitR_ge_1 : (1 <= limitR)%R.
Proof. unfold limitR, size_limit. apply IZR_le. lia. Qed.

Lemma Rinv_le_1 (x : R) : (1 <= x)%R → (/ x <= 1)%R.
Proof. intros Hx. rewrite <- Rinv_1. apply Rinv_le_contravar; lra. Qed.

Lemma limit_powers :
  (1 <= limitR * limitR
   ∧ limitR <= limitR * limitR
   ∧ 1 <= limitR * limitR * limitR
   ∧ limitR * limitR <= limitR * limitR * limitR
   ∧ limitR <= limitR * limitR * limitR
   ∧ 1 <= limitR * limitR * limitR * (limitR * limitR * limitR)
   ∧ limitR * limitR * limitR
     <= limitR * limitR * limitR * (limitR * limitR * limitR))%R.
Proof.
  pose proof limitR_ge_1 as HL.
  assert (H2 : (1 <= limitR * limitR)%R) by nra.
  assert (H12 : (limitR <= limitR * limitR)%R) by nra.
  set (L2 := (limitR * limitR)%R) in *.
  assert (H3 : (1 <= L2 * limitR)%R) by nra.
  assert (H23 : (L2 <= L2 * limitR)%R) by nra.
  set (L3 := (L2 * limitR)%R) in *.
  assert (H6 : (1 <= L3 * L3)%R) by nra.
  assert (H36 : (L3 <= L3 * L3)%R) by nra.
  repeat split; lra.
Qed.

Lemma limit_cube_big : (limitR * limitR * limitR <= big / 2)%R.
Proof.
  unfold limitR, big, size_limit. rewrite <- !mult_IZR.
  apply Rmult_le_reg_r with 2%R; [lra|].
  unfold Rdiv. rewrite Rmult_assoc, Rinv_l, Rmult_1_r by lra.
  rewrite <- mult_IZR. apply IZR_le. by vm_compute.
Qed.

Lemma limit_sixth_tiny :
  (2 * tiny <= / (limitR * limitR * limitR * (limitR * limitR * limitR)))%R.
Proof.
  unfold limitR, tiny, size_limit. rewrite <- !mult_IZR.
  assert (H2 : (2 * / IZR (2 ^ 1022) = / IZR (2 ^ 1021))%R).
  { change (2 ^ 1022)%Z with (2 * 2 ^ 1021)%Z. rewrite mult_IZR.
    assert (0 < IZR (2 ^ 1021))%R by (apply IZR_lt; by vm_compute).
    field. lra. }
  rewrite H2. apply Rinv_le_contravar.
  - apply IZR_lt. by vm_compute.
  - apply IZR_le. by vm_compute.
Qed.

(** ** The comparator under rounding *)

Lemma dotR_bound (ra rb : list R) (Ma Mb : R) :
  Forall (λ a, (0 <= a <= Ma)%R) ra → Forall (λ b, (0 <= b <= Mb)%R) rb →
  (0 <= Ma)%R → (0 <= Mb)%R →
  (dotR ra rb <= INR (length ra) * (Ma * Mb))%R.
Proof.
  intros Ha. revert rb. induction Ha as [|a ra [Ha0 Ha1] Hra IH];
    intros rb Hb HMa HMb.
  - simpl. lra.
  - destruct Hb as [|b rb [Hb0 Hb1] Hrb].
    + simpl dotR. apply Rmult_le_pos; [apply pos_INR|by apply Rmult_le_pos].
    + specialize (IH rb Hrb HMa HMb). simpl length. rewrite S_INR. simpl dotR.
      assert (a * b <= Ma * Mb)%R by by apply Rmult_le_compat.
      lra.
Qed.

Lemma count_real (c : Z) :
  0 ≤ c ≤ size_limit → (0 <= IZR c <= limitR)%R ∧ (c ≠ 0 → (1 <= IZR c)%R).
Proof.
  intros [Hc0 Hc1]. repeat split.
  - by apply IZR_le.
  - by apply IZR_le.
  - intros Hne. apply IZR_le. lia.
Qed.

Lemma realv_bounded (v : list Z) :
  Forall (λ c, 0 ≤ c ≤ size_limit) v →
  Forall (λ a, (0 <= a <= limitR)%R) (realv v).
Proof.
  intros Hv. unfold realv. apply Forall_fmap. eapply Forall_impl; [exact Hv|].
  intros c Hc. simpl. by apply count_real.
Qed.

Lemma length_real (v : list Z) :
  Z.of_nat (length v) ≤ size_limit → (INR (length v) <= limitR)%R.
Proof. intros Hn. rewrite INR_IZR_INZ. by apply IZR_le. Qed.

Lemma dotR_self_ge_1 (v : list Z) :
  (∃ c, c ∈ v ∧ c ≠ 0) → (1 <= dotR (realv v) (realv v))%R.
Proof.
  intros (c & Hc & Hne). induction v as [|x v IH]; [by apply elem_of_nil in Hc|].
  unfold realv in *. csimpl. pose proof (dotR_self_nonneg (IZR <$> v)) as Hv.
  apply elem_of_cons in Hc as [<-|Hc].
  - assert (Hc1 : (1 <= IZR (c * c))%R) by (apply IZR_le; nia).
    rewrite mult_IZR in Hc1. lra.
  - specialize (IH Hc). assert (0 <= IZR x * IZR x)%R by nra. lra.
Qed.

Lemma moderate_sum_squares (v : list Z) :
  moderate v →
  (1 <= dotR (realv v) (realv v) <= limitR * limitR * limitR)%R.
Proof.
  intros (Hn & Hv & Hnz). split; [by apply dotR_self_ge_1|].
  pose proof limitR_ge_1 as HL.
  eapply Rle_trans.
  - apply (dotR_bound _ _ limitR limitR); try (by apply realv_bounded); lra.
  - unfold realv. rewrite length_fmap. pose proof (length_real v Hn).
    assert (0 <= limitR * limitR)%R by nra. nra.
Qed.

Lemma moderate_norm (v : list Z) :
  moderate v → (1 <= normR v <= limitR * limitR * limitR)%R.
Proof.
  intros Hv. destruct (moderate_sum_squares v Hv) as [H1 H2]. unfold normR.
  set (S := dotR (realv v) (realv v)) in *. split.
  - rewrite <- sqrt_1. by apply sqrt_le_1_alt.
  - eapply Rle_trans; [|exact H2].
    rewrite <- (sqrt_square S) at 2 by lra. apply sqrt_le_1_alt. nra.
Qed.

Lemma square_representable (a : R) :
  (a = 0 ∨ 1 <= a <= limitR)%R → representable (a * a).
Proof.
  pose proof limitR_ge_1 as HL. pose proof limit_cube_big as HB.
  pose proof limit_sixth_tiny as HT. pose proof tiny_pos as Ht0.
  destruct limit_powers as (H2 & H12 & H3 & H23 & H13 & H6 & H36).
  intros [->|[Ha1 Ha2]]; [left; lra|]. right.
  assert (Hinv : (/ (limitR * limitR * limitR * (limitR * limitR * limitR)) <= 1)%R).
  { by apply Rinv_le_1. }
  assert (Hsq1 : (1 <= a * a)%R) by nra.
  assert (Hsq2 : (a * a <= limitR * limitR)%R) by (apply Rmult_le_compat; lra).
  split; lra.
Qed.

Lemma quotient_like_nonneg a : quotient_like a → (0 <= a)%R.
Proof.
  destruct limit_powers as (H2 & H12 & H3 & H23 & H13 & H6 & H36).
  intros [->|[Ha _]]; [lra|].
  eapply Rle_trans; [|exact Ha]. left. apply Rinv_0_lt_compat. lra.
Qed.

Lemma quotient_is_quotient_like (c : Z) (N : R) :
  0 ≤ c ≤ size_limit → (1 <= N <= limitR * limitR * limitR)%R →
  quotient_like (IZR c / N).
Proof.
  intros Hc [HN1 HN2]. destruct (count_real c Hc) as [[Hc0 Hc1] Hc2].
  destruct (decide (c = 0)) as [->|Hne].
  - left. unfold Rdiv. apply Rmult_0_l.
  - right. specialize (Hc2 Hne). split.
    + apply Rle_trans with (/ N)%R; [apply Rinv_le_contravar; lra|].
      unfold Rdiv. rewrite <- (Rmult_1_l (/ N)) at 1.
      apply Rmult_le_compat_r; [|done]. left. apply Rinv_0_lt_compat. lra.
    + apply Rle_trans with (IZR c); [|done].
      unfold Rdiv. rewrite <- (Rmult_1_r (IZR c)) at 2.
      apply Rmult_le_compat_l; [done|]. by apply Rinv_le_1.
Qed.

Lemma quotient_like_representable a : quotient_like a → representable a.
Proof.
  pose proof limitR_ge_1 as HL. pose proof limit_cube_big as HB.
  pose proof limit_sixth_tiny as HT. pose proof tiny_pos as Ht0.
  destruct limit_powers as (H2 & H12 & H3 & H23 & H13 & H6 & H36).
  intros [->|[Ha1 Ha2]]; [by left|]. right.
  assert (H63 : (/ (limitR * limitR * limitR * (limitR * limitR * limitR))
                 <= / (limitR * limitR * limitR))%R).
  { apply Rinv_le_contravar; lra. }
  split; lra.
Qed.

Lemma quotient_product_representable a b :
  quotient_like a → quotient_like b → representable (a * b).
Proof.
  pose proof limitR_ge_1 as HL. pose proof limit_cube_big as HB.
  pose proof limit_sixth_tiny as HT. pose proof tiny_pos as Ht0.
  destruct limit_powers as (H2 & H12 & H3 & H23 & H13 & H6 & H36).
  intros [->|[Ha1 Ha2]]; [left; lra|]. intros [->|[Hb1 Hb2]]; [left; lra|]. right.
  assert (Hi0 : (0 < / (limitR * limitR * limitR))%R) by (apply Rinv_0_lt_compat; lra).
  split.
  - eapply Rle_trans; [exact HT|]. rewrite Rinv_mult.
    apply Rmult_le_compat; lra.
  - apply Rle_trans with (limitR * limitR)%R; [apply Rmult_le_compat; lra|]. lra.
Qed.

Lemma count_like (c : Z) :
  0 ≤ c ≤ size_limit → (IZR c = 0 ∨ 1 <= IZR c <= limitR)%R.
Proof.
  intros Hc. destruct (count_real c Hc) as [[Hc0 Hc1] Hc2].
  destruct (decide (c = 0)) as [->|Hne]; [by left|]. right. split; [by apply Hc2|done].
Qed.

Section Comparator.

Context {F : Type} `{StandardModel F}.

Lemma near_counts (v : list Z) :
  Forall (λ c, 0 ≤ c ≤ size_limit) v →
  Forall2 (near 0) (f_of_int <$> v) (realv v).
Proof.
  intros Hv. unfold realv. apply Forall2_fmap, Forall_Forall2_diag.
  eapply Forall_impl; [exact Hv|]. intros c [Hc0 Hc1]. simpl.
  apply near_of_int. unfold size_limit in Hc1. lia.
Qed.

Lemma near_norm (v : list Z) :
  moderate v → near (length v + 2) (np_linalg_norm v) (normR v).
Proof.
  intros Hv. pose proof Hv as (Hn & Hc & Hnz).
  destruct (moderate_sum_squares v Hv) as [HS1 HS2].
  unfold np_linalg_norm, normR.
  replace (length v + 2)%nat with (S (S (0 + 0) + length (realv v)))
    by (unfold realv; rewrite length_fmap; lia).
  apply near_sqrt; [lra|].
  apply near_dot; try by apply near_counts.
  - unfold realv. apply Forall2_fmap, Forall_Forall2_diag.
    eapply Forall_impl; [exact Hc|]. intros c Hc'. simpl.
    destruct (count_real c Hc') as [[Hc0 _] _]. repeat split; try done.
    by apply square_representable, count_like.
  - apply (relerr_budget_2 (length v)); [done|].
    unfold realv. rewrite length_fmap. lia.
  - eapply Rle_trans; [exact HS2|]. apply limit_cube_big.
Qed.

Lemma near_normalised (v : list Z) :
  moderate v →
  Forall2 (near (length v + 3)) (np_divide v (np_linalg_norm v))
          ((λ x, x / normR v)%R <$> realv v).
Proof.
  intros Hv. pose proof Hv as (Hn & Hc & Hnz).
  pose proof (near_norm v Hv) as HN. destruct (moderate_norm v Hv) as [HN1 HN2].
  unfold np_divide, realv. rewrite <- list_fmap_compose.
  apply Forall2_fmap, Forall_Forall2_diag.
  eapply Forall_impl; [exact Hc|]. intros c Hc'. simpl.
  destruct (count_real c Hc') as [[Hc0 _] _].
  replace (length v + 3)%nat with (S (0 + (length v + 2))) by lia.
  apply near_div; try done.
  - lra.
  - apply near_of_int. unfold size_limit in Hc'. lia.
  - apply (relerr_budget_2 (length v)); [done|lia].
  - by apply quotient_like_representable, quotient_is_quotient_like.
Qed.

Lemma normalised_quotient_like (v : list Z) :
  moderate v → Forall quotient_like ((λ x, x / normR v)%R <$> realv v).
Proof.
  intros Hv. pose proof Hv as (Hn & Hc & Hnz).
  unfold realv. rewrite <- list_fmap_compose. apply Forall_fmap.
  eapply Forall_impl; [exact Hc|]. intros c Hc'. simpl.
  apply quotient_is_quotient_like; [done|by apply moderate_norm].
Qed.

Lemma Forall2_of_Forall {A B} (P : A → Prop) (Q : B → Prop) l1 l2 :
  length l1 = length l2 → Forall P l1 → Forall Q l2 →
  Forall2 (λ a b, P a ∧ Q b) l1 l2.
Proof.
  intros Hlen H1. revert l2 Hlen. induction H1 as [|a l1 Ha H1 IH];
    intros [|b l2] Hlen H2; simpl in *; try done.
  apply Forall_cons in H2 as [Hb H2]. constructor; [done|]. apply IH; [lia|done].
Qed.

(** The comparator on two count vectors within the size limit returns the
    cosine up to [3 n + 7] roundings, [n] the number of colours. *)
Lemma near_cosine (v1 v2 : list Z) :
  length v1 = length v2 → moderate v1 → moderate v2 →
  near (3 * length v1 + 7)
    (np_dot (np_divide v1 (np_linalg_norm v1)) (np_divide v2 (np_linalg_norm v2)))
    (dotR (realv v1) (realv v2) / (normR v1 * normR v2)).
Proof.
  intros Hlen Hv1 Hv2. pose proof Hv1 as (Hn1 & Hc1 & Hnz1).
  destruct (moderate_norm v1 Hv1) as [HN1 _]. destruct (moderate_norm v2 Hv2) as [HN2 _].
  rewrite <- dotR_scale by lra.
  set (r1 := (λ x, x / normR v1)%R <$> realv v1).
  set (r2 := (λ x, x / normR v2)%R <$> realv v2).
  assert (Hl1 : length r1 = length v1) by (unfold r1, realv; by rewrite !length_fmap).
  assert (Hl2 : length r2 = length v1) by (unfold r2, realv; by rewrite !length_fmap).
  pose proof (normalised_quotient_like v1 Hv1) as Hq1.
  pose proof (normalised_quotient_like v2 Hv2) as Hq2.
  fold r1 in Hq1. fold r2 in Hq2.
  replace (3 * length v1 + 7)%nat
    with (S ((length v1 + 3) + (length v1 + 3)) + length r1)%nat by lia.
  apply near_dot.
  - by apply near_normalised.
  - rewrite Hlen. by apply near_normalised.
  - eapply Forall2_impl; [apply (Forall2_of_Forall quotient_like quotient_like);
                          [lia|done|done]|].
    intros a b [Ha Hb]. simpl. repeat split.
    + by apply quotient_like_nonneg.
    + by apply quotient_like_nonneg.
    + by apply quotient_product_representable.
  - apply (relerr_budget_2 (length v1)); [done|lia].
  - pose proof limitR_ge_1 as HL.
    eapply Rle_trans; [apply (dotR_bound r1 r2 limitR limitR)|]; try lra.
    + eapply Forall_impl; [exact Hq1|]. intros a Ha. split; [by apply quotient_like_nonneg|].
      destruct Ha as [->|[_ Ha]]; lra.
    + eapply Forall_impl; [exact Hq2|]. intros a Ha. split; [by apply quotient_like_nonneg|].
      destruct Ha as [->|[_ Ha]]; lra.
    + rewrite Hl1. pose proof (length_real v1 Hn1).
      eapply Rle_trans; [|exact limit_cube_big].
      assert (0 <= limitR * limitR)%R by nra. nra.
Qed.

End Comparator.

(** ** Histograms within the size limit *)

Lemma total_ge_size (h : gmap Z Z) :
  counts_positive h → Z.of_nat (size h) ≤ total h.
Proof.
  induction h as [|c v h Hc IH] using map_ind; intros Hp.
  - by rewrite map_size_empty, total_empty.
  - apply map_Forall_insert in Hp as [Hv Hp]; [|done].
    rewrite map_size_insert_None, total_insert_fresh by done.
    specialize (IH Hp). simpl in Hv. lia.
Qed.

Lemma get0_le_total (h : gmap Z Z) c :
  counts_positive h → 0 ≤ get0 h c ≤ total h.
Proof.
  intros Hp. unfold get0. destruct (h !! c) as [v|] eqn:Hc; simpl.
  - pose proof (Hp c v Hc) as Hv. simpl in Hv.
    rewrite <- (insert_delete_id h c v Hc), total_insert_fresh by apply lookup_delete_eq.
    pose proof (total_ge_size (delete c h) (map_Forall_delete _ _ c Hp)). lia.
  - pose proof (total_ge_size h Hp). lia.
Qed.

Lemma length_union_le (l : list Z) (h1 h2 : gmap Z Z) :
  l ≡ₚ elements (dom h1 ∪ dom h2) →
  counts_positive h1 → counts_positive h2 →
  Z.of_nat (length l) ≤ total h1 + total h2.
Proof.
  intros Hl Hp1 Hp2. rewrite (Permutation_length Hl).
  change (length (elements (dom h1 ∪ dom h2))) with (size (dom h1 ∪ dom h2)).
  rewrite size_union_alt.
  assert (Hsub : (size (dom h2 ∖ dom h1) ≤ size (dom h2))%nat)
    by (apply subseteq_size; set_solver).
  rewrite !size_dom in *.
  pose proof (total_ge_size h1 Hp1). pose proof (total_ge_size h2 Hp2).
  lia.
Qed.

Lemma moderate_colour_vector (l : list Z) (h h' : gmap Z Z) :
  Z.of_nat (length l) ≤ size_limit → total h ≤ size_limit →
  h ≠ ∅ → counts_positive h → (∀ c, c ∈ dom h → c ∈ l) →
  moderate (colour_vector l h).
Proof.
  intros Hlen Htot Hne Hp Hcov. repeat split.
  - by rewrite length_colour_vector.
  - unfold colour_vector. apply Forall_fmap, Forall_forall. intros c _. simpl.
    pose proof (get0_le_total h c Hp). lia.
  - by apply colour_vector_nonzero.
Qed.

Section ComparatorOnHistograms.

Context {F : Type} `{StandardModel F}.

(** The comparator returns the cosine of the two histograms up to
    [3 n + 7] roundings, whatever the enumeration of the [n] colours. *)
Lemma near_comparator (l : list Z) (h1 h2 : gmap Z Z) :
  l ≡ₚ elements (dom h1 ∪ dom h2) →
  h1 ≠ ∅ → counts_positive h1 → h2 ≠ ∅ → counts_positive h2 →
  within_limit h1 h2 →
  near (3 * length l + 7) (wlgk_over l h1 h2)
       (cosine (elements (dom h1 ∪ dom h2)) h1 h2)
  ∧ Z.of_nat (length l) ≤ size_limit.
Proof.
  intros Hl Hn1 Hp1 Hn2 Hp2 Hlim. unfold within_limit in Hlim.
  pose proof (length_union_le l h1 h2 Hl Hp1 Hp2) as Hlen.
  pose proof (total_ge_size h1 Hp1). pose proof (total_ge_size h2 Hp2).
  split; [|lia].
  rewrite <- (cosine_Permutation l _ h1 h2 Hl). unfold wlgk_over, cosine.
  rewrite <- (length_colour_vector l h1).
  apply near_cosine.
  - by rewrite !length_colour_vector.
  - apply (moderate_colour_vector l h1 h1); try done; try lia.
    intros c Hc. rewrite Hl. by apply in_union_l.
  - apply (moderate_colour_vector l h2 h2); try done; try lia.
    intros c Hc. rewrite Hl. by apply in_union_r.
Qed.

(** The result is finite and within the factor [1 + tolerance] of the
    cosine. *)
Lemma comparator_rounded (l : list Z) (h1 h2 : gmap Z Z) :
  l ≡ₚ elements (dom h1 ∪ dom h2) →
  h1 ≠ ∅ → counts_positive h1 → h2 ≠ ∅ → counts_positive h2 →
  within_limit h1 h2 →
  let c := cosine (elements (dom h1 ∪ dom h2)) h1 h2 in
  (0 <= c <= 1)%R
  ∧ ∃ r, fval (wlgk_over l h1 h2) r
         ∧ (c / (1 + tolerance) <= r <= c * (1 + tolerance))%R.
Proof.
  intros Hl Hn1 Hp1 Hn2 Hp2 Hlim c.
  assert (Hc : (0 <= c <= 1)%R).
  { apply cosine_range; try done; apply norm_of_histogram; try done.
    - apply in_union_l.
    - apply in_union_r. }
  split; [done|].
  destruct (near_comparator l h1 h2 Hl Hn1 Hp1 Hn2 Hp2 Hlim) as [(r & Hr & Hlo & Hhi) Hlen].
  fold c in Hlo, Hhi. exists r. split; [done|].
  pose proof (relerr_budget (length l) (3 * length l + 7) Hlen (le_n _)) as HW.
  pose proof (relerr_pow_pos (3 * length l + 7)) as HW0.
  assert (Ht : (0 < 1 + tolerance)%R) by (unfold tolerance; lra).
  split.
  - eapply Rle_trans; [|exact Hlo]. unfold Rdiv.
    apply Rmult_le_compat_l; [lra|]. by apply Rinv_le_contravar.
  - eapply Rle_trans; [exact Hhi|]. apply Rmult_le_compat_l; lra.
Qed.

End ComparatorOnHistograms.

(** What the factor [1 + tolerance] leaves of the claimed tolerance. *)
Lemma close_to_one (r : R) :
  (1 / (1 + tolerance) <= r <= 1 * (1 + tolerance))%R → (Rabs (1 - r) < SMALL_VALUE)%R.
Proof.
  unfold tolerance, SMALL_VALUE. intros [Hlo Hhi].
  assert (Hl : (1 - 3 / 1000000 <= 1 / (1 + 3 / 1000000))%R).
  { apply Rmult_le_reg_r with (1 + 3 / 1000000)%R; [lra|].
    unfold Rdiv at 3. rewrite Rmult_assoc, Rinv_l by lra. lra. }
  apply Rabs_def1; lra.
Qed.

Lemma in_unit_range (c r : R) :
  (0 <= c <= 1)%R → (c / (1 + tolerance) <= r <= c * (1 + tolerance))%R →
  (0 <= r)%R ∧ (0 - SMALL_VALUE <= r <= 1 + SMALL_VALUE)%R.
Proof.
  unfold tolerance, SMALL_VALUE. intros [Hc0 Hc1] [Hlo Hhi].
  assert (H0 : (0 <= c / (1 + 3 / 1000000))%R).
  { apply Rmult_le_pos; [done|]. left. apply Rinv_0_lt_compat. lra. }
  split; [lra|]. split; [lra|]. nra.
Qed.

Lemma close_to_each_other (c r r' : R) :
  (0 <= c <= 1)%R →
  (c / (1 + tolerance) <= r <= c * (1 + tolerance))%R →
  (c / (1 + tolerance) <= r' <= c * (1 + tolerance))%R →
  (Rabs (r - r') < SMALL_VALUE)%R.
Proof.
  unfold tolerance, SMALL_VALUE. intros [Hc0 Hc1] [Hlo Hhi] [Hlo' Hhi'].
  assert (Hl : (c * (1 - 3 / 1000000) <= c / (1 + 3 / 1000000))%R).
  { unfold Rdiv. apply Rmult_le_compat_l; [done|].
    apply Rmult_le_reg_r with (1 + 3 / 1000000)%R; [lra|].
    rewrite Rinv_l by lra. lra. }
  apply Rabs_def1; nra.
Qed.

(** ** Exact arithmetic follows the standard model *)

#[global] Instance exact_model : StandardModel ideal.
Proof.
  refine {| fval := λ x r, x = Fin r |}.
  - intros x a b -> [= ->]. done.
  - intros z _. reflexivity.
  - reflexivity.
  - intros x y a b -> -> _. exists 0%R. split.
    + rewrite Rabs_R0. pose proof unit_roundoff_pos. lra.
    + simpl. f_equal. ring.
  - intros x y a b -> -> _. exists 0%R. split.
    + rewrite Rabs_R0. pose proof unit_roundoff_pos. lra.
    + simpl. f_equal. ring.
  - intros x y a b -> -> Hb _. exists 0%R. split.
    + rewrite Rabs_R0. pose proof unit_roundoff_pos. lra.
    + simpl. rewrite (is_zero_nonzero b Hb). f_equal. ring.
  - intros x a -> Ha. exists 0%R. split.
    + rewrite Rabs_R0. pose proof unit_roundoff_pos. lra.
    + simpl. rewrite (is_neg_nonneg a Ha). f_equal. ring.
Defined.

(** * Binary64 rounds as the standard model prescribes *)

(** ** Powers of two *)

Lemma pow2_pos e : (0 < pow2 e)%R.
Proof. unfold pow2. apply powerRZ_lt. lra. Qed.

Lemma pow2_add a b : pow2 (a + b) = (pow2 a * pow2 b)%R.
Proof. unfold pow2. apply powerRZ_add. lra. Qed.

Lemma pow2_0 : pow2 0 = 1%R.
Proof. reflexivity. Qed.

Lemma pow2_opp a : pow2 (- a) = (/ pow2 a)%R.
Proof.
  assert (H : (pow2 (- a) * pow2 a = 1)%R).
  { rewrite <- pow2_add. replace (- a + a) with 0 by lia. apply pow2_0. }
  pose proof (pow2_pos a). apply Rmult_eq_reg_r with (pow2 a); [|lra].
  rewrite H. field. lra.
Qed.

Lemma pow2_sub a b : pow2 (a - b) = (pow2 a / pow2 b)%R.
Proof. unfold Z.sub, Rdiv. by rewrite pow2_add, pow2_opp. Qed.

Lemma pow2_IZR k : 0 ≤ k → pow2 k = IZR (2 ^ k).
Proof.
  intros Hk. unfold pow2. rewrite <- (Z2Nat.id k Hk) at 1.
  rewrite <- pow_powerRZ. rewrite <- (Z2Nat.id k Hk) at 2.
  by rewrite pow_IZR.
Qed.

Lemma pow2_succ a : pow2 (a + 1) = (2 * pow2 a)%R.
Proof. rewrite pow2_add. rewrite (pow2_IZR 1) by lia. simpl. lra. Qed.

Lemma pow2_ge_1 k : 0 ≤ k → (1 <= pow2 k)%R.
Proof.
  intros Hk. rewrite pow2_IZR by done. apply IZR_le.
  pose proof (Z.pow_pos_nonneg 2 k). lia.
Qed.

Lemma pow2_le a b : a ≤ b → (pow2 a <= pow2 b)%R.
Proof.
  intros Hab. replace b with (a + (b - a)) by lia. rewrite pow2_add.
  pose proof (pow2_pos a). pose proof (pow2_ge_1 (b - a) ltac:(lia)). nra.
Qed.

Lemma pow2_lt a b : a < b → (pow2 a < pow2 b)%R.
Proof.
  intros Hab. replace b with (a + 1 + (b - a - 1)) by lia.
  rewrite pow2_add, pow2_succ.
  pose proof (pow2_pos a). pose proof (pow2_ge_1 (b - a - 1) ltac:(lia)). nra.
Qed.

Lemma pow2_lt_inv a b : (pow2 a < pow2 b)%R → a < b.
Proof.
  intros H. destruct (decide (a < b)) as [|Hn]; [done|].
  assert (Hl : b ≤ a) by lia. apply pow2_le in Hl. lra.
Qed.

Lemma pow2_le_inv a b : (pow2 a <= pow2 b)%R → a ≤ b.
Proof.
  intros H. destruct (decide (a ≤ b)) as [|Hn]; [done|].
  assert (Hl : b < a) by lia. apply pow2_lt in Hl. lra.
Qed.

(** ** Digits *)

Lemma digits2_pos_bounds (p : positive) :
  2 ^ (Z.pos (digits2_pos p) - 1) ≤ Z.pos p < 2 ^ Z.pos (digits2_pos p).
Proof.
  induction p as [p IH|p IH|]; simpl digits2_pos.
  - rewrite Pos2Z.inj_succ.
    replace (Z.succ (Z.pos (digits2_pos p)) - 1) with (Z.succ (Z.pos (digits2_pos p) - 1)) by lia.
    rewrite !Z.pow_succ_r by lia. lia.
  - rewrite Pos2Z.inj_succ.
    replace (Z.succ (Z.pos (digits2_pos p)) - 1) with (Z.succ (Z.pos (digits2_pos p) - 1)) by lia.
    rewrite !Z.pow_succ_r by lia. lia.
  - simpl. lia.
Qed.

Lemma digits_unique (m d : Z) :
  0 < d → 2 ^ (d - 1) ≤ m < 2 ^ d → Zdigits2 m = d.
Proof.
  intros Hd [Hlo Hhi].
  assert (0 < 2 ^ (d - 1)) by (apply Z.pow_pos_nonneg; lia).
  destruct m as [|p|p]; try lia.
  simpl. pose proof (digits2_pos_bounds p) as [Hl Hh].
    set (k := Z.pos (digits2_pos p)) in *. assert (0 < k) by (unfold k; lia).
    destruct (Z.lt_trichotomy k d) as [Hlt|[Heq|Hgt]]; [|done|].
    + assert (2 ^ k ≤ 2 ^ (d - 1)) by (apply Z.pow_le_mono_r; lia). lia.
    + assert (2 ^ d ≤ 2 ^ (k - 1)) by (apply Z.pow_le_mono_r; lia). lia.
Qed.

Lemma digits_ge (p : positive) (k : Z) :
  0 ≤ k → 2 ^ k ≤ Z.pos p → k + 1 ≤ Z.pos (digits2_pos p).
Proof.
  intros Hk Hp. pose proof (digits2_pos_bounds p) as [_ Hh].
  destruct (decide (k + 1 ≤ Z.pos (digits2_pos p))) as [|Hn]; [done|].
  assert (2 ^ Z.pos (digits2_pos p) ≤ 2 ^ k) by (apply Z.pow_le_mono_r; lia). lia.
Qed.

(** ** Shifting the mantissa right *)

Lemma loc_of_shr_record_of_loc m l : loc_of_shr_record (shr_record_of_loc m l) = l.
Proof. by destruct l as [|[]]. Qed.

Lemma shr_m_of_loc m l : shr_m (shr_record_of_loc m l) = m.
Proof. by destruct l as [|[]]. Qed.

Lemma shr_1_spec m r s :
  0 ≤ m →
  shr_1 {| shr_m := m; shr_r := r; shr_s := s |}
  = {| shr_m := m / 2; shr_r := Z.odd m; shr_s := r || s |}.
Proof.
  intros Hm. destruct m as [|[p|p|]|]; try lia; unfold shr_1; f_equal.
  - rewrite Pos2Z.inj_xI. apply (Z.div_unique _ _ _ 1); lia.
  - rewrite Pos2Z.inj_xO. apply (Z.div_unique _ _ _ 0); lia.
Qed.

Lemma locates_half m r s t :
  0 ≤ m →
  locates m (loc_of_shr_record {| shr_m := m; shr_r := r; shr_s := s |}) t →
  locates (m / 2)
    (loc_of_shr_record {| shr_m := m / 2; shr_r := Z.odd m; shr_s := r || s |}) (t / 2).
Proof.
  intros Hm Ht.
  assert (Hd : IZR m = (2 * IZR (m / 2) + (if Z.odd m then 1 else 0))%R).
  { rewrite (Z.div_mod m 2) at 1 by lia. rewrite plus_IZR, mult_IZR.
    rewrite Zmod_odd. by destruct (Z.odd m). }
  destruct (Z.odd m), r, s; simpl in *; lra.
Qed.

Lemma shr_1_locates mrs t :
  0 ≤ shr_m mrs → locates (shr_m mrs) (loc_of_shr_record mrs) t →
  0 ≤ shr_m (shr_1 mrs)
  ∧ locates (shr_m (shr_1 mrs)) (loc_of_shr_record (shr_1 mrs)) (t / 2).
Proof.
  destruct mrs as [m r s]. simpl shr_m at 1 2. intros Hm Ht.
  rewrite shr_1_spec by done. split.
  - simpl. by apply Z.div_pos.
  - by apply locates_half.
Qed.

Lemma iter_pos_nat {A : Type} (f : A → A) p x :
  SpecFloat.iter_pos f p x = Nat.iter (Pos.to_nat p) f x.
Proof.
  revert x. induction p as [p IH|p IH|]; intros x; simpl SpecFloat.iter_pos.
  - rewrite !IH, Pos2Nat.inj_xI. rewrite <- Nat.iter_add.
    replace (S (2 * Pos.to_nat p)) with (S (Pos.to_nat p + Pos.to_nat p)) by lia.
    by rewrite Nat.iter_succ_r.
  - rewrite !IH, Pos2Nat.inj_xO. rewrite <- Nat.iter_add.
    by replace (2 * Pos.to_nat p)%nat with (Pos.to_nat p + Pos.to_nat p)%nat by lia.
  - reflexivity.
Qed.

Lemma shr_iter_locates (n : nat) mrs t :
  0 ≤ shr_m mrs → locates (shr_m mrs) (loc_of_shr_record mrs) t →
  0 ≤ shr_m (Nat.iter n shr_1 mrs)
  ∧ locates (shr_m (Nat.iter n shr_1 mrs)) (loc_of_shr_record (Nat.iter n shr_1 mrs))
      (t / pow2 (Z.of_nat n)).
Proof.
  intros Hm Ht. induction n as [|n [IHm IHt]].
  - split; [done|]. change (Z.of_nat 0) with 0. by rewrite pow2_0, Rdiv_1_r.
  - simpl Nat.iter. destruct (shr_1_locates _ _ IHm IHt) as [Hm' Ht'].
    split; [done|].
    replace (t / pow2 (Z.of_nat (S n)))%R with (t / pow2 (Z.of_nat n) / 2)%R; [done|].
    rewrite Nat2Z.inj_succ. unfold Z.succ. rewrite pow2_succ.
    pose proof (pow2_pos (Z.of_nat n)). field. lra.
Qed.

Lemma shr_locates mrs e n t :
  0 ≤ n → 0 ≤ shr_m mrs → locates (shr_m mrs) (loc_of_shr_record mrs) t →
  (shr mrs e n).2 = e + n
  ∧ 0 ≤ shr_m (shr mrs e n).1
  ∧ locates (shr_m (shr mrs e n).1) (loc_of_shr_record (shr mrs e n).1) (t / pow2 n).
Proof.
  intros Hn Hm Ht. destruct n as [|p|p]; [| |lia].
  - unfold shr. split; [simpl; lia|]. split; [done|]. by rewrite pow2_0, Rdiv_1_r.
  - unfold shr. split; [done|]. unfold fst. rewrite iter_pos_nat.
    rewrite <- (positive_nat_Z p). by apply shr_iter_locates.
Qed.

(** ** Rounding to nearest *)

Lemma locates_floor m l t : locates m l t → (IZR m <= t < IZR m + 1)%R.
Proof. destruct l as [|[]]; simpl; lra. Qed.

Lemma locates_exact m l t : locates m l t → t = IZR m → l = loc_Exact.
Proof. destruct l as [|[]]; simpl; intros; try done; lra. Qed.

Lemma round_nearest_even_close m l t :
  locates m l t →
  (round_nearest_even m l = m ∨ round_nearest_even m l = m + 1)
  ∧ (Rabs (IZR (round_nearest_even m l) - t) <= / 2)%R.
Proof.
  intros Ht. destruct l as [|[]]; simpl in *.
  - split; [by left|]. subst. rewrite Rminus_diag, Rabs_R0. lra.
  - destruct (Z.even m).
    + split; [by left|]. subst. apply Rabs_le. lra.
    + split; [by right|]. rewrite plus_IZR. subst. apply Rabs_le. lra.
  - split; [by left|]. apply Rabs_le. lra.
  - split; [by right|]. rewrite plus_IZR. apply Rabs_le. lra.
Qed.

Lemma fexp_eq e : fexp prec emax e = Z.max (e - 53) (-1074).
Proof. reflexivity. Qed.

Lemma tiny_pow2 : tiny = pow2 (-1022).
Proof.
  unfold tiny. change (-1022) with (Z.opp 1022). by rewrite pow2_opp, pow2_IZR.
Qed.

Lemma big_pow2 : big = pow2 1023.
Proof. unfold big. by rewrite pow2_IZR. Qed.

Lemma unit_roundoff_pow2 : unit_roundoff = pow2 (-53).
Proof.
  unfold unit_roundoff. change (-53) with (Z.opp 53). rewrite pow2_opp, pow2_IZR by done.
  reflexivity.
Qed.

Lemma relative_half (t m : R) :
  (pow2 52 <= t)%R → (Rabs (m - t) <= / 2)%R →
  ∃ δ, (Rabs δ <= unit_roundoff)%R ∧ m = (t * (1 + δ))%R.
Proof.
  intros Ht Hm. rewrite pow2_IZR in Ht by done.
  assert (Hp : (0 < t)%R).
  { apply Rlt_le_trans with (IZR (2 ^ 52)); [|done]. by apply IZR_lt. }
  exists ((m - t) / t)%R. split; [|field; lra].
  unfold Rdiv. rewrite Rabs_mult, (Rabs_right (/ t)).
  2:{ apply Rle_ge. left. by apply Rinv_0_lt_compat. }
  unfold unit_roundoff.
  replace (/ 9007199254740992)%R with (/ 2 * / IZR (2 ^ 52))%R.
  2:{ change (2 ^ 52) with 4503599627370496. lra. }
  apply Rmult_le_compat; [apply Rabs_pos| |done|].
  - left. by apply Rinv_0_lt_compat.
  - apply Rinv_le_contravar; [|done]. by apply IZR_lt.
Qed.

Lemma shr_fexp_normal mx ex lx t :
  0 ≤ mx → 53 ≤ Zdigits2 mx → -1074 ≤ Zdigits2 mx + ex - 53 → locates mx lx t →
  ∃ mrs,
    shr_fexp prec emax mx ex lx = (mrs, Zdigits2 mx + ex - 53)
    ∧ 0 ≤ shr_m mrs
    ∧ locates (shr_m mrs) (loc_of_shr_record mrs) (t / pow2 (Zdigits2 mx - 53)).
Proof.
  intros Hmx Hd He Ht. unfold shr_fexp.
  assert (Hn : fexp prec emax (Zdigits2 mx + ex) - ex = Zdigits2 mx - 53)
    by (rewrite fexp_eq; lia).
  rewrite Hn.
  destruct (shr_locates (shr_record_of_loc mx lx) ex (Zdigits2 mx - 53) t)
    as (He' & Hm' & Ht').
  - lia.
  - by rewrite shr_m_of_loc.
  - by rewrite shr_m_of_loc, loc_of_shr_record_of_loc.
  - exists (shr (shr_record_of_loc mx lx) ex (Zdigits2 mx - 53)).1.
    split; [|done].
    rewrite (surjective_pairing (shr _ _ _)). f_equal. rewrite He'. lia.
Qed.

Lemma shr_fexp_canonical m e :
  2 ^ 52 ≤ m < 2 ^ 53 → -1074 ≤ e →
  shr_fexp prec emax m e loc_Exact
  = ({| shr_m := m; shr_r := false; shr_s := false |}, e).
Proof.
  intros Hm He. unfold shr_fexp.
  rewrite (digits_unique m 53) by (done || lia).
  assert (Hn : fexp prec emax (53 + e) - e = 0) by (rewrite fexp_eq; lia).
  by rewrite Hn.
Qed.

Lemma shr_fexp_carry e :
  -1074 ≤ e →
  shr_fexp prec emax (2 ^ 53) e loc_Exact
  = ({| shr_m := 2 ^ 52; shr_r := false; shr_s := false |}, e + 1).
Proof.
  intros He. unfold shr_fexp.
  rewrite (digits_unique (2 ^ 53) 54) by (done || lia).
  assert (Hn : fexp prec emax (54 + e) - e = 1) by (rewrite fexp_eq; lia).
  by rewrite Hn.
Qed.

(** The result of [binary_round_aux] on a number of the normal range: a
    finite float within the unit roundoff, relatively, of the number. *)
Lemma binary_round_aux_rounds sx mx ex lx t :
  0 ≤ mx → 53 ≤ Zdigits2 mx → locates mx lx t →
  (tiny <= t * pow2 ex <= big)%R →
  ∃ m e δ,
    binary_round_aux prec emax sx mx ex lx = S754_finite sx m e
    ∧ (Rabs δ <= unit_roundoff)%R
    ∧ (IZR (Z.pos m) * pow2 e = t * pow2 ex * (1 + δ))%R.
Proof.
  intros Hmx Hd Ht [Hlo Hhi].
  set (d := Zdigits2 mx) in *.
  assert (Hb : 2 ^ (d - 1) ≤ mx < 2 ^ d).
  { unfold d in *. destruct mx as [|p|p]; [simpl in Hd; lia| |lia].
    apply digits2_pos_bounds. }
  assert (HtR : (pow2 (d - 1) <= t < pow2 d)%R).
  { pose proof (locates_floor _ _ _ Ht) as Hf. rewrite !pow2_IZR by lia. split.
    - apply Rle_trans with (IZR mx); [apply IZR_le; lia | lra].
    - apply Rlt_le_trans with (IZR mx + 1)%R; [lra|].
      rewrite <- plus_IZR. apply IZR_le. lia. }
  pose proof (pow2_pos ex) as Hpe.
  assert (He1 : -1022 < d + ex).
  { apply pow2_lt_inv. rewrite <- tiny_pow2, pow2_add. nra. }
  assert (He2 : d - 1 + ex ≤ 1023).
  { apply pow2_le_inv. rewrite <- big_pow2, pow2_add. nra. }
  destruct (shr_fexp_normal mx ex lx t Hmx Hd ltac:(fold d; lia) Ht)
    as (mrs & Heq & Hm' & Ht').
  fold d in Heq, Ht'.
  unfold binary_round_aux. rewrite Heq.
  set (m' := shr_m mrs) in *. set (l' := loc_of_shr_record mrs) in *.
  set (e' := d + ex - 53) in *. set (t' := (t / pow2 (d - 53))%R) in *.
  pose proof (pow2_pos (d - 53)) as Hpn.
  assert (Hscale : (t * pow2 ex = t' * pow2 e')%R).
  { unfold t', e'. replace (d + ex - 53) with ((d - 53) + ex) by lia.
    rewrite pow2_add. field. lra. }
  assert (Ht'R : (pow2 52 <= t' < pow2 53)%R).
  { assert (Ht'' : (t' * pow2 (d - 53) = t)%R) by (unfold t'; field; lra).
    assert (H52 : pow2 (d - 1) = (pow2 52 * pow2 (d - 53))%R)
      by (rewrite <- pow2_add; f_equal; lia).
    assert (H53 : pow2 d = (pow2 53 * pow2 (d - 53))%R)
      by (rewrite <- pow2_add; f_equal; lia).
    split.
    - apply Rmult_le_reg_r with (pow2 (d - 53)); [done|]. lra.
    - apply Rmult_lt_reg_r with (pow2 (d - 53)); [done|]. lra. }
  pose proof (locates_floor _ _ _ Ht') as Hf'.
  rewrite !pow2_IZR in Ht'R by lia.
  assert (Hm'b : 2 ^ 52 ≤ m' < 2 ^ 53).
  { split.
    - assert (2 ^ 52 < m' + 1); [|lia]. apply lt_IZR. rewrite plus_IZR. lra.
    - apply lt_IZR. lra. }
  destruct (round_nearest_even_close _ _ _ Ht') as [Hm2 Hclose].
  set (m2 := round_nearest_even m' l') in *.
  destruct (relative_half t' (IZR m2)) as (δ & Hδ & Hval);
    [rewrite pow2_IZR by lia; lra | done |].
  assert (He' : -1074 ≤ e') by (unfold e'; lia).
  destruct (decide (m2 < 2 ^ 53)) as [Hlt|Hge].
  - rewrite shr_fexp_canonical by (done || lia). simpl shr_m.
    destruct m2 as [|p|p] eqn:Hp; [lia| |lia].
    assert (Hle : (e' <=? emax - prec) = true).
    { apply Z.leb_le. change (emax - prec) with 971. unfold e'. lia. }
    rewrite Hle. exists p, e', δ. split; [done|]. split; [done|].
    rewrite Hscale, Hval. ring.
  - assert (Hm2' : m2 = 2 ^ 53) by lia.
    assert (Hup : m' = 2 ^ 53 - 1) by lia.
    rewrite Hm2', shr_fexp_carry by done. simpl shr_m.
    assert (He3 : d + ex ≤ 1023).
    { destruct (decide (d + ex ≤ 1023)) as [|Hn]; [done|]. exfalso.
      assert (Hdx : d - 1 + ex = 1023) by lia.
      assert (Hbig : (pow2 (d - 1) * pow2 ex = big)%R)
        by (by rewrite <- pow2_add, Hdx, big_pow2).
      assert (Hteq : t = pow2 (d - 1)) by nra.
      assert (Ht'eq : t' = IZR (2 ^ 52)).
      { unfold t'. rewrite Hteq, <- pow2_sub.
        replace (d - 1 - (d - 53)) with 52 by lia. by rewrite pow2_IZR. }
      assert (IZR m' <= IZR (2 ^ 52))%R by lra.
      apply le_IZR in H. lia. }
    assert (Hle : (e' + 1 <=? emax - prec) = true).
    { apply Z.leb_le. change (emax - prec) with 971. unfold e'. lia. }
    change (2 ^ 52) with (Z.pos 4503599627370496). cbv iota beta.
    rewrite Hle. exists 4503599627370496%positive, (e' + 1), δ.
    split; [done|]. split; [done|].
    rewrite Hscale, pow2_succ.
    replace (t' * pow2 e' * (1 + δ))%R with (t' * (1 + δ) * pow2 e')%R by ring.
    rewrite <- Hval, Hm2'. change (2 ^ 53) with 9007199254740992. lra.
Qed.

(** ** Numbers that need no rounding *)

Lemma pos_iter_xO (p k : positive) :
  Z.pos (Pos.iter xO p k) = Z.pos p * 2 ^ Z.pos k.
Proof.
  induction k as [|k IH] using Pos.peano_ind.
  - simpl. lia.
  - rewrite Pos.iter_succ, Pos2Z.inj_xO, IH, Pos2Z.inj_succ, Z.pow_succ_r by lia. lia.
Qed.

Lemma shl_align_spec (m : positive) e e' :
  e' ≤ e →
  Z.pos (shl_align m e e').1 = Z.pos m * 2 ^ (e - e') ∧ (shl_align m e e').2 = e'.
Proof.
  intros He. unfold shl_align. destruct (e' - e) as [|k|k] eqn:Hk; simpl.
  - replace (e - e') with 0 by lia. lia.
  - lia.
  - rewrite pos_iter_xO. replace (e - e') with (Z.pos k) by lia. done.
Qed.

Lemma shl_align_id (m : positive) e e' : e ≤ e' → shl_align m e e' = (m, e).
Proof.
  intros He. unfold shl_align. destruct (e' - e) as [|k|k] eqn:Hk; try done. lia.
Qed.

Lemma digits_shift (m : positive) k :
  0 ≤ k → Zdigits2 (Z.pos m * 2 ^ k) = Z.pos (digits2_pos m) + k.
Proof.
  intros Hk. pose proof (digits2_pos_bounds m) as [Hlo Hhi].
  assert (0 < 2 ^ k) by (apply Z.pow_pos_nonneg; lia).
  apply digits_unique; [lia|].
  replace (Z.pos (digits2_pos m) + k - 1) with (Z.pos (digits2_pos m) - 1 + k) by lia.
  rewrite !Z.pow_add_r by lia. nia.
Qed.

Lemma binary_round_aux_canonical sx (m : positive) e :
  fexp prec emax (Z.pos (digits2_pos m) + e) = e → e ≤ 971 →
  binary_round_aux prec emax sx (Z.pos m) e loc_Exact = S754_finite sx m e.
Proof.
  intros Hc He. unfold binary_round_aux, shr_fexp. simpl Zdigits2.
  rewrite Hc, Z.sub_diag. simpl. rewrite Hc, Z.sub_diag. simpl.
  assert (Hle : (e <=? emax - prec) = true) by (apply Z.leb_le; by change (emax - prec) with 971).
  by rewrite Hle.
Qed.

Lemma canonical_bounded (m : positive) e :
  fexp prec emax (Z.pos (digits2_pos m) + e) = e → e ≤ 971 →
  bounded prec emax m e = true.
Proof.
  intros Hc He. unfold bounded, canonical_mantissa.
  apply andb_true_intro. split; [by apply Z.eqb_eq|].
  apply Z.leb_le. by change (emax - prec) with 971.
Qed.

Lemma bounded_inv (m : positive) e :
  bounded prec emax m e = true →
  Z.max (Z.pos (digits2_pos m) + e - 53) (-1074) = e ∧ e ≤ 971.
Proof.
  unfold bounded, canonical_mantissa. intros [Hc He]%andb_prop.
  apply Z.eqb_eq in Hc. apply Z.leb_le in He. rewrite fexp_eq in Hc.
  by change (emax - prec) with 971 in He.
Qed.

Lemma mantissa_bounds (m : positive) :
  (pow2 (Z.pos (digits2_pos m) - 1) <= IZR (Z.pos m) < pow2 (Z.pos (digits2_pos m)))%R.
Proof.
  pose proof (digits2_pos_bounds m) as [Hlo Hhi].
  rewrite !pow2_IZR by lia. split; [by apply IZR_le|by apply IZR_lt].
Qed.

(** [binary_round] on an integer multiple of a power of two that is at
    least the smallest one: the result is finite and within the unit
    roundoff of the number, and it is the number itself when the integer
    has at most 53 digits. *)
Lemma binary_round_rounds sx (mx : positive) ex :
  -1074 ≤ ex → (IZR (Z.pos mx) * pow2 ex <= big)%R →
  ∃ m e δ,
    binary_round prec emax sx mx ex = S754_finite sx m e
    ∧ (Rabs δ <= unit_roundoff)%R
    ∧ (IZR (Z.pos m) * pow2 e = IZR (Z.pos mx) * pow2 ex * (1 + δ))%R
    ∧ (Z.pos (digits2_pos mx) ≤ 53 → δ = 0%R ∧ bounded prec emax m e = true).
Proof.
  intros Hex Hbig. set (d := Z.pos (digits2_pos mx)).
  pose proof (mantissa_bounds mx) as [Hlo Hhi]. fold d in Hlo, Hhi.
  pose proof (pow2_pos ex) as Hpe.
  assert (He2 : d - 1 + ex ≤ 1023).
  { apply pow2_le_inv. rewrite <- big_pow2, pow2_add. nra. }
  unfold binary_round. fold d. rewrite fexp_eq.
  set (e' := Z.max (d + ex - 53) (-1074)).
  destruct (decide (d ≤ 53)) as [Hd|Hd].
  - destruct (shl_align_spec mx ex e' ltac:(unfold e'; lia)) as [Hm He].
    destruct (shl_align mx ex e') as [mz ez]. simpl in Hm, He. subst ez.
    assert (Hdz : Z.pos (digits2_pos mz) = d + (ex - e')).
    { change (Z.pos (digits2_pos mz)) with (Zdigits2 (Z.pos mz)).
      rewrite Hm. apply digits_shift. unfold e'. lia. }
    assert (Hc : fexp prec emax (Z.pos (digits2_pos mz) + e') = e').
    { rewrite Hdz, fexp_eq. unfold e'. lia. }
    assert (He' : e' ≤ 971) by (unfold e'; lia).
    rewrite binary_round_aux_canonical by done.
    exists mz, e', 0%R. split; [done|]. split.
    { rewrite Rabs_R0. unfold unit_roundoff. lra. }
    split.
    + rewrite Hm, mult_IZR, <- pow2_IZR by (unfold e'; lia).
      rewrite Rplus_0_r, Rmult_1_r, Rmult_assoc, <- pow2_add. do 2 f_equal. lia.
    + intros _. split; [done|]. by apply canonical_bounded.
  - rewrite shl_align_id by (unfold e'; lia).
    destruct (binary_round_aux_rounds sx (Z.pos mx) ex loc_Exact (IZR (Z.pos mx)))
      as (m & e & δ & Heq & Hδ & Hval).
    + lia.
    + simpl. fold d. lia.
    + done.
    + split; [|done]. rewrite tiny_pow2.
      apply Rle_trans with (pow2 (d - 1) * pow2 ex)%R; [|nra].
      rewrite <- pow2_add. apply pow2_le. lia.
    + exists m, e, δ. do 3 (split; [done|]). fold d. lia.
Qed.

(** ** The operations of binary64 on finite numbers *)

Lemma sign_factor_xorb s1 s2 :
  sign_factor (xorb s1 s2) = (sign_factor s1 * sign_factor s2)%R.
Proof. destruct s1, s2; simpl; lra. Qed.

Lemma Rabs_sign_factor s (v : R) : (0 <= v)%R → Rabs (sign_factor s * v) = v.
Proof.
  intros Hv. destruct s; simpl.
  - replace (-1 * v)%R with (- v)%R by lra. rewrite Rabs_Ropp. by apply Rabs_pos_eq.
  - rewrite Rmult_1_l. by apply Rabs_pos_eq.
Qed.

Lemma magnitude_pos (m : positive) e : (0 < IZR (Z.pos m) * pow2 e)%R.
Proof.
  apply Rmult_lt_0_compat; [|apply pow2_pos]. by apply IZR_lt.
Qed.

Lemma SF2R_finite_nonzero s m e : SF2R (S754_finite s m e) ≠ 0%R.
Proof.
  simpl. pose proof (magnitude_pos m e). destruct s; simpl; lra.
Qed.

Lemma IZR_cond_Zopp s z : IZR (cond_Zopp s z) = (sign_factor s * IZR z)%R.
Proof. destruct s; unfold cond_Zopp, sign_factor; [rewrite opp_IZR|]; lra. Qed.

Lemma SFmul_rounds (x y : spec_float) :
  valid_binary x = true → valid_binary y = true →
  SF_finite x = true → SF_finite y = true →
  (SF2R x * SF2R y = 0 ∨ tiny <= Rabs (SF2R x * SF2R y) <= big)%R →
  ∃ δ, (Rabs δ <= unit_roundoff)%R
       ∧ SF_finite (SFmul prec emax x y) = true
       ∧ SF2R (SFmul prec emax x y) = (SF2R x * SF2R y * (1 + δ))%R.
Proof.
  intros Hvx Hvy Hfx Hfy Hr.
  assert (Hu : (Rabs 0 <= unit_roundoff)%R)
    by (rewrite Rabs_R0; unfold unit_roundoff; lra).
  destruct x as [sx|sx| |sx mx ex], y as [sy|sy| |sy my ey]; try done.
  - exists 0%R. split; [done|]. split; [done|]. simpl. lra.
  - exists 0%R. split; [done|]. split; [done|]. simpl. lra.
  - exists 0%R. split; [done|]. split; [done|]. simpl. lra.
  - destruct Hr as [Hz|[Hlo Hhi]].
    { apply Rmult_integral in Hz as [Hz|Hz]; by apply SF2R_finite_nonzero in Hz. }
    simpl in Hvx, Hvy.
    apply bounded_inv in Hvx as [Hcx Hex], Hvy as [Hcy Hey].
    pose proof (mantissa_bounds mx) as [Hxl Hxh].
    pose proof (mantissa_bounds my) as [Hyl Hyh].
    pose proof (digits2_pos_bounds mx) as [Hzxl Hzxh].
    pose proof (digits2_pos_bounds my) as [Hzyl Hzyh].
    set (dx := Z.pos (digits2_pos mx)) in *. set (dy := Z.pos (digits2_pos my)) in *.
    assert (Hdx : 0 < dx) by (unfold dx; lia). assert (Hdy : 0 < dy) by (unfold dy; lia).
    assert (Hprod : (SF2R (S754_finite sx mx ex) * SF2R (S754_finite sy my ey)
                     = sign_factor (xorb sx sy)
                       * (IZR (Z.pos (mx * my)) * pow2 (ex + ey)))%R).
    { simpl. rewrite sign_factor_xorb, Pos2Z.inj_mul, mult_IZR, pow2_add. ring. }
    rewrite Hprod in Hlo, Hhi |- *.
    rewrite Rabs_sign_factor in Hlo, Hhi by (left; apply magnitude_pos).
    assert (Hd : 53 ≤ Zdigits2 (Z.pos (mx * my))).
    { simpl.
      assert (dx + dy - 1 ≤ Z.pos (digits2_pos (mx * my))).
      { replace (dx + dy - 1) with (dx - 1 + (dy - 1) + 1) by lia.
        apply digits_ge; [lia|]. rewrite Z.pow_add_r, Pos2Z.inj_mul by lia. nia. }
      destruct (decide (dx = 53 ∨ dy = 53)) as [|Hsub]; [lia|]. exfalso.
      assert (ex = -1074 ∧ ey = -1074) as [-> ->] by lia.
      assert (Hlt : (IZR (Z.pos (mx * my)) * pow2 (-1074 + -1074) < pow2 (-1022))%R).
      { rewrite Pos2Z.inj_mul, mult_IZR.
        apply Rlt_le_trans with (pow2 dx * pow2 dy * pow2 (-1074 + -1074))%R.
        - apply Rmult_lt_compat_r; [apply pow2_pos|].
          pose proof (pow2_pos (dx - 1)). pose proof (pow2_pos (dy - 1)). nra.
        - rewrite <- !pow2_add. apply pow2_le. lia. }
      rewrite <- tiny_pow2 in Hlt. lra. }
    destruct (binary_round_aux_rounds (xorb sx sy) (Z.pos (mx * my)) (ex + ey) loc_Exact
                (IZR (Z.pos (mx * my))))
      as (m & e & δ & Heq & Hδ & Hval); [lia|done|done|done|].
    exists δ. split; [done|]. unfold SFmul. rewrite Heq. split; [done|].
    simpl SF2R at 1. rewrite Hval. ring.
Qed.

Lemma SFadd_rounds (x y : spec_float) :
  valid_binary x = true → valid_binary y = true →
  SF_finite x = true → SF_finite y = true →
  (Rabs (SF2R x + SF2R y) <= big)%R →
  ∃ δ, (Rabs δ <= unit_roundoff)%R
       ∧ SF_finite (SFadd prec emax x y) = true
       ∧ SF2R (SFadd prec emax x y) = ((SF2R x + SF2R y) * (1 + δ))%R.
Proof.
  intros Hvx Hvy Hfx Hfy Hbig.
  assert (Hu : (Rabs 0 <= unit_roundoff)%R)
    by (rewrite Rabs_R0; unfold unit_roundoff; lra).
  destruct x as [sx|sx| |sx mx ex], y as [sy|sy| |sy my ey]; try done.
  - exists 0%R. split; [done|]. destruct sx, sy; simpl; split; (done || lra).
  - exists 0%R. split; [done|]. split; [done|]. simpl SFadd. simpl SF2R at 2. lra.
  - exists 0%R. split; [done|]. split; [done|]. simpl SFadd. simpl SF2R at 3. lra.
  - simpl in Hvx, Hvy.
    apply bounded_inv in Hvx as [Hcx Hex], Hvy as [Hcy Hey].
    unfold SFadd. set (ez := Z.min ex ey).
    destruct (shl_align_spec mx ex ez ltac:(unfold ez; lia)) as [Hmx _].
    destruct (shl_align_spec my ey ez ltac:(unfold ez; lia)) as [Hmy _].
    set (M := cond_Zopp sx (Z.pos (shl_align mx ex ez).1)
              + cond_Zopp sy (Z.pos (shl_align my ey ez).1)).
    assert (Hsum : (SF2R (S754_finite sx mx ex) + SF2R (S754_finite sy my ey)
                    = IZR M * pow2 ez)%R).
    { unfold M. rewrite plus_IZR.
      assert (Hc : ∀ s (m : positive) e, ez ≤ e →
                Z.pos (shl_align m e ez).1 = Z.pos m * 2 ^ (e - ez) →
                (IZR (cond_Zopp s (Z.pos (shl_align m e ez).1)) * pow2 ez
                 = SF2R (S754_finite s m e))%R).
      { intros s m e He Hm. simpl SF2R.
        rewrite IZR_cond_Zopp.
        rewrite Hm, mult_IZR, <- pow2_IZR by lia.
        rewrite !Rmult_assoc, <- pow2_add. do 3 f_equal. lia. }
      rewrite Rmult_plus_distr_r, !Hc by (done || unfold ez; lia). done. }
    rewrite Hsum in Hbig |- *.
    pose proof (pow2_pos ez) as Hpe.
    destruct M as [|p|p] eqn:HM.
    + exists 0%R. split; [done|]. split; [done|]. simpl. lra.
    + destruct (binary_round_rounds false p ez) as (m & e & δ & Heq & Hδ & Hval & _).
      * unfold ez. lia.
      * rewrite Rabs_pos_eq in Hbig; [done|]. left. apply magnitude_pos.
      * exists δ. split; [done|]. simpl binary_normalize. rewrite Heq.
        split; [done|]. simpl SF2R. rewrite Hval. lra.
    + destruct (binary_round_rounds true p ez) as (m & e & δ & Heq & Hδ & Hval & _).
      * unfold ez. lia.
      * replace (IZR (Z.neg p) * pow2 ez)%R with (- (IZR (Z.pos p) * pow2 ez))%R in Hbig.
        2:{ change (Z.neg p) with (- Z.pos p). rewrite opp_IZR. lra. }
        rewrite Rabs_Ropp, Rabs_pos_eq in Hbig; [done|]. left. apply magnitude_pos.
      * exists δ. split; [done|]. simpl binary_normalize. rewrite Heq.
        split; [done|]. simpl SF2R. rewrite Hval.
        change (Z.neg p) with (- Z.pos p). rewrite opp_IZR. lra.
Qed.

(** *** Division *)

Lemma new_location_locates (m q r : Z) :
  0 < m → 0 ≤ r < m → locates q (new_location m r) (IZR q + IZR r / IZR m).
Proof.
  intros Hm [Hr0 Hrm].
  assert (HmR : (0 < IZR m)%R) by by apply IZR_lt.
  set (x := (IZR r / IZR m)%R).
  assert (Hx : (x * IZR m = IZR r)%R) by (unfold x; field; lra).
  assert (Hx1 : (x < 1)%R).
  { apply Rmult_lt_reg_r with (IZR m); [done|]. rewrite Hx, Rmult_1_l. by apply IZR_lt. }
  assert (Hhalf : ∀ c, (2 * r ?= m) = c →
            match c with
            | Lt => (x < / 2)%R
            | Eq => (x = / 2)%R
            | Gt => (/ 2 < x)%R
            end).
  { intros c Hc. destruct c.
    - apply Z.compare_eq in Hc. apply (f_equal IZR) in Hc. rewrite mult_IZR in Hc.
      apply Rmult_eq_reg_r with (IZR m); lra.
    - change (2 * r < m) in Hc. apply IZR_lt in Hc. rewrite mult_IZR in Hc.
      apply Rmult_lt_reg_r with (IZR m); lra.
    - apply Z.compare_gt_iff, IZR_lt in Hc. rewrite mult_IZR in Hc.
      apply Rmult_lt_reg_r with (IZR m); lra. }
  unfold new_location.
  destruct (decide (r = 0)) as [Hr|Hr].
  { assert (Hb : (r =? 0) = true) by by apply Z.eqb_eq.
    assert (x = 0%R) as -> by (unfold x; rewrite Hr; field; lra).
    destruct (Z.even m); unfold new_location_even, new_location_odd;
      rewrite Hb; simpl; lra. }
  assert (Hb : (r =? 0) = false) by by apply Z.eqb_neq.
  assert (Hx0 : (0 < x)%R).
  { apply Rmult_lt_reg_r with (IZR m); [done|]. rewrite Hx, Rmult_0_l.
    apply IZR_lt. lia. }
  destruct (Z.even m) eqn:Hev; unfold new_location_even, new_location_odd; rewrite Hb.
  - specialize (Hhalf (2 * r ?= m) eq_refl).
    destruct (2 * r ?= m); simpl in *; lra.
  - assert (Hodd : Z.odd m = true) by (by rewrite <- Z.negb_even, Hev).
    apply Z.odd_spec in Hodd as [k Hk].
    destruct (2 * r + 1 ?= m) eqn:Hc.
    + apply Z.compare_eq in Hc.
      specialize (Hhalf Lt ltac:(change (2 * r < m); lia)). simpl in *. lra.
    + change (2 * r + 1 < m) in Hc.
      specialize (Hhalf Lt ltac:(change (2 * r < m); lia)). simpl in *. lra.
    + apply Z.compare_gt_iff in Hc.
      specialize (Hhalf Gt ltac:(apply Z.compare_gt_iff; lia)). simpl in *. lra.
Qed.

Lemma SFdiv_core_spec (mx my : positive) ex ey :
  ∃ q e l t,
    SFdiv_core_binary prec emax (Z.pos mx) ex (Z.pos my) ey = (q, e, l)
    ∧ 0 ≤ q ∧ locates q l t
    ∧ (t * pow2 e = IZR (Z.pos mx) * pow2 ex / (IZR (Z.pos my) * pow2 ey))%R
    ∧ e ≤ Z.max (Z.pos (digits2_pos mx) + ex - (Z.pos (digits2_pos my) + ey) - 53) (-1074).
Proof.
  unfold SFdiv_core_binary. simpl Zdigits2.
  set (dx := Z.pos (digits2_pos mx)). set (dy := Z.pos (digits2_pos my)).
  rewrite fexp_eq.
  set (e := Z.min (Z.max (dx + ex - (dy + ey) - 53) (-1074)) (ex - ey)).
  set (s := ex - ey - e).
  assert (Hs : 0 ≤ s) by (unfold s, e; lia).
  set (m' := match s with Z.pos _ => Z.shiftl (Z.pos mx) s | 0 => Z.pos mx | _ => 0 end).
  assert (Hm' : m' = Z.pos mx * 2 ^ s).
  { unfold m'. destruct s as [|p|p]; [lia| |lia]. by rewrite Z.shiftl_mul_pow2. }
  pose proof (Z_div_mod m' (Z.pos my) ltac:(lia)) as Hdm.
  destruct (Z.div_eucl m' (Z.pos my)) as [q r]. destruct Hdm as [Hdm Hr].
  assert (Hmpos : 0 < m').
  { rewrite Hm'. apply Z.mul_pos_pos; [lia|]. apply Z.pow_pos_nonneg; lia. }
  assert (Hq : 0 ≤ q) by nia.
  exists q, e, (new_location (Z.pos my) r), (IZR q + IZR r / IZR (Z.pos my))%R.
  split; [done|]. split; [done|]. split; [by apply new_location_locates|].
  split; [|unfold e; lia].
  assert (HmyR : (0 < IZR (Z.pos my))%R) by by apply IZR_lt.
  pose proof (pow2_pos ey). pose proof (pow2_pos e).
  assert (Ht : (IZR q + IZR r / IZR (Z.pos my) = IZR m' / IZR (Z.pos my))%R).
  { rewrite Hdm, plus_IZR, mult_IZR. field. lra. }
  rewrite Ht, Hm', mult_IZR, <- pow2_IZR by done.
  assert (Hex : pow2 ex = (pow2 s * pow2 e * pow2 ey)%R).
  { rewrite <- !pow2_add. f_equal. unfold s. lia. }
  rewrite Hex. field. lra.
Qed.

Lemma SFdiv_rounds (x y : spec_float) :
  valid_binary x = true → valid_binary y = true →
  SF_finite x = true → SF_finite y = true → SF2R y ≠ 0%R →
  (SF2R x = 0 ∨ tiny <= Rabs (SF2R x / SF2R y) <= big)%R →
  ∃ δ, (Rabs δ <= unit_roundoff)%R
       ∧ SF_finite (SFdiv prec emax x y) = true
       ∧ SF2R (SFdiv prec emax x y) = (SF2R x / SF2R y * (1 + δ))%R.
Proof.
  intros Hvx Hvy Hfx Hfy Hy Hr.
  assert (Hu : (Rabs 0 <= unit_roundoff)%R)
    by (rewrite Rabs_R0; unfold unit_roundoff; lra).
  destruct x as [sx|sx| |sx mx ex], y as [sy|sy| |sy my ey]; try done.
  - exists 0%R. split; [done|]. split; [done|]. simpl. lra.
  - destruct Hr as [Hz|[Hlo Hhi]]; [by apply SF2R_finite_nonzero in Hz|].
    pose proof (mantissa_bounds mx) as [Hxl Hxh].
    pose proof (mantissa_bounds my) as [Hyl Hyh].
    set (dx := Z.pos (digits2_pos mx)) in *. set (dy := Z.pos (digits2_pos my)) in *.
    destruct (SFdiv_core_spec mx my ex ey) as (q & e & l & t & Hcore & Hq & Hl & Ht & He).
    fold dx dy in He.
    set (X := (IZR (Z.pos mx) * pow2 ex / (IZR (Z.pos my) * pow2 ey))%R) in *.
    pose proof (magnitude_pos mx ex) as Hpx. pose proof (magnitude_pos my ey) as Hpy.
    pose proof (pow2_pos ex) as Hpex. pose proof (pow2_pos ey) as Hpey.
    pose proof (pow2_pos e) as Hpe.
    assert (HmyR : (0 < IZR (Z.pos my))%R) by by apply IZR_lt.
    assert (HXpos : (0 < X)%R) by (by apply Rdiv_lt_0_compat).
    assert (Hquot : (SF2R (S754_finite sx mx ex) / SF2R (S754_finite sy my ey)
                     = sign_factor (xorb sx sy) * X)%R).
    { rewrite sign_factor_xorb. unfold X, SF2R.
      destruct sx, sy; unfold sign_factor; field; lra. }
    rewrite Hquot in Hlo, Hhi |- *.
    rewrite Rabs_sign_factor in Hlo, Hhi by lra.
    assert (HX : (pow2 (dx + ex - (dy + ey) - 1) < X)%R).
    { unfold X. apply Rmult_lt_reg_r with (IZR (Z.pos my) * pow2 ey)%R; [done|].
      replace (IZR (Z.pos mx) * pow2 ex / (IZR (Z.pos my) * pow2 ey)
               * (IZR (Z.pos my) * pow2 ey))%R
        with (IZR (Z.pos mx) * pow2 ex)%R by (field; lra).
      apply Rlt_le_trans with (pow2 (dx + ex - (dy + ey) - 1) * (pow2 dy * pow2 ey))%R.
      - apply Rmult_lt_compat_l; [apply pow2_pos|]. nra.
      - rewrite <- !pow2_add.
        replace (dx + ex - (dy + ey) - 1 + (dy + ey)) with (dx - 1 + ex) by lia.
        rewrite pow2_add. nra. }
    assert (Ht52 : (pow2 52 <= t)%R).
    { apply Rmult_le_reg_r with (pow2 e); [done|]. rewrite Ht, <- pow2_add.
      destruct (decide (e ≤ -1074)) as [Hsub|Hnorm].
      - apply Rle_trans with (pow2 (-1022)); [apply pow2_le; lia|].
        rewrite <- tiny_pow2. lra.
      - apply Rle_trans with (pow2 (dx + ex - (dy + ey) - 1)); [apply pow2_le; lia|lra]. }
    pose proof (locates_floor _ _ _ Hl) as Hfl.
    assert (Hq52 : 2 ^ 52 ≤ q).
    { rewrite pow2_IZR in Ht52 by lia.
      assert (2 ^ 52 < q + 1); [|lia]. apply lt_IZR. rewrite plus_IZR. lra. }
    assert (Hd : 53 ≤ Zdigits2 q).
    { destruct q as [|p|p]; [lia| |lia]. simpl.
      apply (digits_ge p 52); [lia|done]. }
    destruct (binary_round_aux_rounds (xorb sx sy) q e l t Hq Hd Hl)
      as (m & e' & δ & Heq & Hδ & Hval); [by rewrite Ht|].
    exists δ. split; [done|]. unfold SFdiv. rewrite Hcore, Heq. split; [done|].
    simpl SF2R at 1. rewrite Hval, Ht. ring.
Qed.

(** *** Square root *)

Lemma sqrt_locates (n q r : Z) :
  0 ≤ q → n = q * q + r → 0 ≤ r ≤ 2 * q →
  locates q (if r =? 0 then loc_Exact else loc_Inexact (if r <=? q then Lt else Gt))
    (R_sqrt.sqrt (IZR n)).
Proof.
  intros Hq Hn [Hr0 Hr2].
  assert (HnR : IZR n = (IZR q * IZR q + IZR r)%R) by (by rewrite Hn, plus_IZR, mult_IZR).
  assert (HqR : (0 <= IZR q)%R) by by apply IZR_le.
  assert (HrR : (0 <= IZR r <= 2 * IZR q)%R).
  { split; [by apply IZR_le|]. rewrite <- mult_IZR. by apply IZR_le. }
  assert (Hn0 : (0 <= IZR n)%R) by nra.
  pose proof (sqrt_pos (IZR n)) as Ht0. pose proof (sqrt_sqrt (IZR n) Hn0) as Htt.
  set (t := R_sqrt.sqrt (IZR n)) in *.
  destruct (Z.eqb_spec r 0) as [Hr|Hr].
  - simpl. subst r. replace (IZR 0) with 0%R in * by done. nra.
  - assert (Hr1 : (1 <= IZR r)%R) by (apply IZR_le; lia).
    destruct (Z.leb_spec r q) as [Hle|Hgt]; simpl.
    + apply IZR_le in Hle. split; nra.
    + assert (Hgt' : (IZR q + 1 <= IZR r)%R) by (rewrite <- plus_IZR; apply IZR_le; lia).
      split; nra.
Qed.

Lemma SFsqrt_core_spec (mx : positive) ex :
  ∃ q e l,
    SFsqrt_core_binary prec emax (Z.pos mx) ex = (q, e, l)
    ∧ 0 ≤ q ∧ locates q l (R_sqrt.sqrt (IZR (Z.pos mx) * pow2 ex) / pow2 e)
    ∧ e ≤ Z.max ((Z.pos (digits2_pos mx) + ex + 1) / 2 - 53) (-1074).
Proof.
  unfold SFsqrt_core_binary. simpl Zdigits2.
  set (d := Z.pos (digits2_pos mx)). rewrite fexp_eq, !Z.div2_div.
  set (e := Z.min (Z.max ((d + ex + 1) / 2 - 53) (-1074)) (ex / 2)).
  set (s := ex - 2 * e).
  assert (Hs : 0 ≤ s).
  { pose proof (Z.mul_div_le ex 2 ltac:(lia)). unfold s, e. lia. }
  set (m' := match s with Z.pos _ => Z.shiftl (Z.pos mx) s | 0 => Z.pos mx | _ => 0 end).
  assert (Hm' : m' = Z.pos mx * 2 ^ s).
  { unfold m'. destruct s as [|p|p]; [lia| |lia]. by rewrite Z.shiftl_mul_pow2. }
  assert (Hmpos : 0 < m').
  { rewrite Hm'. apply Z.mul_pos_pos; [lia|]. apply Z.pow_pos_nonneg; lia. }
  pose proof (Z.sqrtrem_spec m' ltac:(lia)) as Hsq.
  destruct (Z.sqrtrem m') as [q r]. destruct Hsq as [Hsq Hr].
  assert (Hq : 0 ≤ q) by lia.
  exists q, e, (if r =? 0 then loc_Exact else loc_Inexact (if r <=? q then Lt else Gt)).
  split; [done|]. split; [done|]. split.
  - pose proof (pow2_pos e) as Hpe.
    assert (Hval : (IZR (Z.pos mx) * pow2 ex = IZR m' * (pow2 e * pow2 e))%R).
    { rewrite Hm', mult_IZR, <- pow2_IZR, <- !pow2_add by done.
      rewrite Rmult_assoc, <- pow2_add. do 2 f_equal. unfold s. lia. }
    rewrite Hval, sqrt_mult, sqrt_square by (try apply IZR_le; nra || lia).
    replace (R_sqrt.sqrt (IZR m') * pow2 e / pow2 e)%R with (R_sqrt.sqrt (IZR m'))
      by (field; lra).
    by apply sqrt_locates.
  - unfold e. lia.
Qed.

Lemma floor_digits q l t :
  0 ≤ q → locates q l t → (pow2 52 <= t)%R → 53 ≤ Zdigits2 q.
Proof.
  intros Hq Hl Ht. pose proof (locates_floor _ _ _ Hl) as Hfl.
  rewrite pow2_IZR in Ht by lia.
  assert (Hq52 : 2 ^ 52 < q + 1) by (apply lt_IZR; rewrite plus_IZR; lra).
  destruct q as [|p|p]; [lia| |lia]. simpl.
  apply (digits_ge p 52); lia.
Qed.

Lemma SFsqrt_rounds (x : spec_float) :
  valid_binary x = true → SF_finite x = true → (0 <= SF2R x)%R →
  ∃ δ, (Rabs δ <= unit_roundoff)%R
       ∧ SF_finite (SFsqrt prec emax x) = true
       ∧ SF2R (SFsqrt prec emax x) = (R_sqrt.sqrt (SF2R x) * (1 + δ))%R.
Proof.
  intros Hv Hf Hpos.
  assert (Hu : (Rabs 0 <= unit_roundoff)%R)
    by (rewrite Rabs_R0; unfold unit_roundoff; lra).
  destruct x as [s|s| |s m e]; try done.
  - exists 0%R. split; [done|]. split; [done|]. simpl. rewrite sqrt_0. lra.
  - pose proof (magnitude_pos m e) as Hmag.
    destruct s; [simpl in Hpos; lra|].
    simpl in Hv. apply bounded_inv in Hv as [Hc He].
    pose proof (mantissa_bounds m) as [Hml Hmh].
    set (d := Z.pos (digits2_pos m)) in *.
    assert (Hd : 0 < d) by (unfold d; lia).
    destruct (SFsqrt_core_spec m e) as (q & e' & l & Hcore & Hq & Hl & He').
    fold d in He'.
    set (k := (d + e + 1) / 2) in *.
    assert (Hk : 2 * k ≤ d + e + 1 ≤ 2 * k + 1).
    { unfold k. pose proof (Z.mul_div_le (d + e + 1) 2 ltac:(lia)).
      pose proof (Z.mul_succ_div_gt (d + e + 1) 2 ltac:(lia)). lia. }
    assert (Hval : SF2R (S754_finite false m e) = (IZR (Z.pos m) * pow2 e)%R)
      by (simpl; lra).
    rewrite Hval. set (a := (IZR (Z.pos m) * pow2 e)%R) in *.
    set (X := R_sqrt.sqrt a) in *.
    pose proof (pow2_pos e) as Hpe. pose proof (pow2_pos e') as Hpe'.
    pose proof (pow2_pos (k - 1)) as Hpk1. pose proof (pow2_pos k) as Hpk.
    assert (Hlow : (pow2 (k - 1) <= X)%R).
    { rewrite <- (sqrt_square (pow2 (k - 1))) by lra. apply sqrt_le_1_alt.
      rewrite <- pow2_add. apply Rle_trans with (pow2 (d - 1 + e)); [apply pow2_le; lia|].
      rewrite pow2_add. unfold a. nra. }
    assert (Hhigh : (X < pow2 k)%R).
    { rewrite <- (sqrt_square (pow2 k)) by lra. apply sqrt_lt_1_alt.
      split; [left; exact Hmag|]. rewrite <- pow2_add.
      apply Rlt_le_trans with (pow2 (d + e)); [|apply pow2_le; lia].
      rewrite pow2_add. unfold a. nra. }
    set (t := (X / pow2 e')%R) in *.
    assert (Ht : (t * pow2 e' = X)%R) by (unfold t; field; lra).
    assert (Ht52 : (pow2 52 <= t)%R).
    { apply Rmult_le_reg_r with (pow2 e'); [done|]. rewrite Ht, <- pow2_add.
      apply Rle_trans with (pow2 (k - 1)); [apply pow2_le; lia|done]. }
    destruct (binary_round_aux_rounds false q e' l t Hq (floor_digits q l t Hq Hl Ht52) Hl)
      as (m' & e'' & δ & Heq & Hδ & Hres).
    { rewrite Ht, tiny_pow2, big_pow2. split.
      - apply Rle_trans with (pow2 (k - 1)); [apply pow2_le; lia|done].
      - apply Rle_trans with (pow2 k); [lra|apply pow2_le; lia]. }
    exists δ. split; [done|]. unfold SFsqrt. rewrite Hcore, Heq. split; [done|].
    simpl SF2R. rewrite Hres, Ht. lra.
Qed.

(** ** Binary64 follows the standard model *)

Lemma binary64_value_inv (x : float) (r : R) :
  binary64_value x r →
  valid_binary (Prim2SF x) = true ∧ SF_finite (Prim2SF x) = true ∧ SF2R (Prim2SF x) = r.
Proof. intros [Hf Hr]. split; [apply Prim2SF_valid|done]. Qed.

Lemma float_of_int_value (z : Z) :
  Z.abs z ≤ 2 ^ 53 → binary64_value (float_of_int z) (IZR z).
Proof.
  intros Hz. unfold float_of_int, binary64_value.
  assert (Hcase : ∀ s (p : positive),
            Z.pos p ≤ 2 ^ 53 →
            ∃ m e, binary_round prec emax s p 0 = S754_finite s m e
                   ∧ bounded prec emax m e = true
                   ∧ (IZR (Z.pos m) * pow2 e = IZR (Z.pos p))%R).
  { intros s p Hp. destruct (decide (Z.pos p = 2 ^ 53)) as [Heq|Hne].
    - assert (p = 9007199254740992%positive) as -> by lia.
      exists 4503599627370496%positive, 1.
      split; [by destruct s; vm_compute|]. split; [by vm_compute|].
      rewrite (pow2_IZR 1) by lia. change (2 ^ 1) with 2. lra.
    - assert (Hd : Z.pos (digits2_pos p) ≤ 53).
      { pose proof (digits2_pos_bounds p) as [Hlo _].
        destruct (decide (Z.pos (digits2_pos p) ≤ 53)) as [|Hn]; [done|].
        assert (2 ^ 53 ≤ 2 ^ (Z.pos (digits2_pos p) - 1))
          by (apply Z.pow_le_mono_r; lia). lia. }
      destruct (binary_round_rounds s p 0) as (m & e & δ & Heq & _ & Hval & Hex).
      + lia.
      + rewrite pow2_0, Rmult_1_r. unfold big. apply IZR_le.
        assert (2 ^ 53 ≤ 2 ^ 1023) by (apply Z.pow_le_mono_r; lia). lia.
      + destruct (Hex Hd) as [-> Hb]. exists m, e. do 2 (split; [done|]).
        rewrite Hval, pow2_0. lra. }
  destruct z as [|p|p].
  - simpl binary_normalize. by rewrite Prim2SF_SF2Prim.
  - destruct (Hcase false p ltac:(lia)) as (m & e & Heq & Hb & Hval).
    simpl binary_normalize. rewrite Heq, Prim2SF_SF2Prim by done.
    split; [done|]. simpl. rewrite Hval. lra.
  - destruct (Hcase true p ltac:(lia)) as (m & e & Heq & Hb & Hval).
    simpl binary_normalize. rewrite Heq, Prim2SF_SF2Prim by done.
    split; [done|]. simpl. rewrite Hval.
    change (Z.neg p) with (- Z.pos p). rewrite opp_IZR. lra.
Qed.

(** Binary64, as the primitive floats implement it, follows the standard
    model: an addition, multiplication, division or square root of finite
    numbers whose exact result is zero or in the normal range returns the
    exact result up to a relative error of [2^-53], and the integers up to
    [2^53] convert exactly. *)
#[global] Instance binary64_model : StandardModel float.
Proof.
  refine {| fval := binary64_value |}.
  - intros x a b [_ Ha] [_ Hb]. congruence.
  - apply float_of_int_value.
  - split; vm_compute; reflexivity.
  - intros x y a b Hx Hy Hbig.
    apply binary64_value_inv in Hx as (Hvx & Hfx & <-), Hy as (Hvy & Hfy & <-).
    destruct (SFadd_rounds _ _ Hvx Hvy Hfx Hfy Hbig) as (δ & Hδ & Hf & Hval).
    exists δ. split; [done|]. unfold binary64_value. simpl f_add.
    by rewrite add_spec.
  - intros x y a b Hx Hy Hr.
    apply binary64_value_inv in Hx as (Hvx & Hfx & <-), Hy as (Hvy & Hfy & <-).
    destruct (SFmul_rounds _ _ Hvx Hvy Hfx Hfy Hr) as (δ & Hδ & Hf & Hval).
    exists δ. split; [done|]. unfold binary64_value. simpl f_mul.
    by rewrite mul_spec.
  - intros x y a b Hx Hy Hb Hr.
    apply binary64_value_inv in Hx as (Hvx & Hfx & <-), Hy as (Hvy & Hfy & <-).
    destruct (SFdiv_rounds _ _ Hvx Hvy Hfx Hfy Hb Hr) as (δ & Hδ & Hf & Hval).
    exists δ. split; [done|]. unfold binary64_value. simpl f_div.
    by rewrite div_spec.
  - intros x a Hx Ha.
    apply binary64_value_inv in Hx as (Hvx & Hfx & <-).
    destruct (SFsqrt_rounds _ Hvx Hfx Ha) as (δ & Hδ & Hf & Hval).
    exists δ. split; [done|]. unfold binary64_value. simpl f_sqrt.
    by rewrite sqrt_spec.
Defined.

(** * The kernel in floating point *)

Lemma histograms_within_limit hash G1 G2 num_iterations :
  well_formed G1 = true → well_formed G2 = true →
  no_nodes G1 = false → no_nodes G2 = false → 0 ≤ num_iterations →
  (num_iterations + 1) * (len (nodes G1) + len (nodes G2)) ≤ size_limit →
  ∃ h1 h2,
    _compute_colour_counts hash G1 num_iterations = Return h1
    ∧ _compute_colour_counts hash G2 num_iterations = Return h2
    ∧ (h1 ≠ ∅ ∧ counts_positive h1) ∧ (h2 ≠ ∅ ∧ counts_positive h2)
    ∧ within_limit h1 h2.
Proof.
  intros Hwf1 Hwf2 Hne1 Hne2 Hk Hsize.
  destruct (compute_colour_counts_Return hash G1 num_iterations Hwf1)
    as (h1 & Hh1 & Ht1 & Hp1).
  destruct (compute_colour_counts_Return hash G2 num_iterations Hwf2)
    as (h2 & Hh2 & Ht2 & Hp2).
  apply no_nodes_false in Hne1, Hne2.
  exists h1, h2. do 2 (split; [done|]). split; [|split].
  - split; [|done]. apply total_pos_nonempty. rewrite Ht1. lia.
  - split; [|done]. apply total_pos_nonempty. rewrite Ht2. lia.
  - unfold within_limit. rewrite Ht1, Ht2, Z2Nat.id by done. lia.
Qed.

Section KernelUnderRounding.

Context (hash : hashable → Z) {F : Type} `{StandardModel F}.

Lemma wlgk_rounded G1 G2 num_iterations :
  well_formed G1 = true → well_formed G2 = true →
  no_nodes G1 = false → no_nodes G2 = false → 0 ≤ num_iterations →
  (num_iterations + 1) * (len (nodes G1) + len (nodes G2)) ≤ size_limit →
  ∃ h1 h2,
    _compute_colour_counts hash G1 num_iterations = Return h1
    ∧ _compute_colour_counts hash G2 num_iterations = Return h2
    ∧ (h1 ≠ ∅ ∧ counts_positive h1) ∧ (h2 ≠ ∅ ∧ counts_positive h2)
    ∧ within_limit h1 h2
    ∧ wlgk hash (F := F) G1 G2 num_iterations
      = ([], Return (_compute_wlgk_from_colour_counts h1 h2)).
Proof.
  intros Hwf1 Hwf2 Hne1 Hne2 Hk Hsize.
  destruct (histograms_within_limit hash G1 G2 num_iterations Hwf1 Hwf2 Hne1 Hne2 Hk Hsize)
    as (h1 & h2 & Hh1 & Hh2 & Hn1 & Hn2 & Hlim).
  exists h1, h2. do 5 (split; [done|]).
  rewrite wlgk_nonempty by done. by rewrite Hh1, Hh2.
Qed.

End KernelUnderRounding.

(** C1. Identity, in floating point.  In every arithmetic that follows the
    standard model, binary64 among them ([binary64_model]), the kernel of a
    non-empty graph with itself is a finite number within [1e-5] of 1,
    whatever the order in which the union of the colours is enumerated, as
    long as the two histograms count at most [2^33] observations. *)
Theorem wlgk_identity_rounded hash {F : Type} `{StandardModel F} G num_iterations :
  well_formed G = true → no_nodes G = false → 0 ≤ num_iterations →
  (num_iterations + 1) * (len (nodes G) + len (nodes G)) ≤ size_limit →
  ∃ h,
    _compute_colour_counts hash G num_iterations = Return h
    ∧ wlgk hash (F := F) G G num_iterations
      = ([], Return (_compute_wlgk_from_colour_counts h h))
    ∧ finite_with (_compute_wlgk_from_colour_counts h h)
        (λ r, (Rabs (1 - r) < SMALL_VALUE)%R)
    ∧ ∀ union_colours, union_colours ≡ₚ elements (dom h ∪ dom h) →
        finite_with (wlgk_over union_colours h h)
          (λ r, (Rabs (1 - r) < SMALL_VALUE)%R).
Proof.
  intros Hwf Hne Hk Hsize.
  destruct (wlgk_rounded hash G G num_iterations Hwf Hwf Hne Hne Hk Hsize)
    as (h & h' & Hh & Hh' & [Hn Hp] & _ & Hlim & Hw).
  assert (h' = h) as -> by congruence.
  exists h. do 2 (split; [done|]).
  assert (Hall : ∀ l, l ≡ₚ elements (dom h ∪ dom h) →
            finite_with (wlgk_over l h h) (λ r, (Rabs (1 - r) < SMALL_VALUE)%R)).
  { intros l Hl.
    destruct (comparator_rounded l h h Hl Hn Hp Hn Hp Hlim) as (_ & r & Hr & Hb).
    rewrite cosine_self in Hb
      by (apply norm_of_histogram; [done..|]; apply in_union_l).
    exists r. split; [done|]. by apply close_to_one. }
  split; [|done]. by apply (Hall (elements (dom h ∪ dom h))).
Qed.

Lemma wlgk_identity_rounded_witness :
  ∃ h,
    _compute_colour_counts cpython_hash G1 5 = Return h
    ∧ wlgk cpython_hash (F := float) G1 G1 5
      = ([], Return (_compute_wlgk_from_colour_counts h h))
    ∧ finite_with (_compute_wlgk_from_colour_counts (F := float) h h)
        (λ r, (Rabs (1 - r) < SMALL_VALUE)%R)
    ∧ ∀ union_colours, union_colours ≡ₚ elements (dom h ∪ dom h) →
        finite_with (wlgk_over (F := float) union_colours h h)
          (λ r, (Rabs (1 - r) < SMALL_VALUE)%R).
Proof.
  apply (wlgk_identity_rounded cpython_hash G1 5); [reflexivity | reflexivity | lia |].
  by vm_compute.
Defined.

(** C2. Range, in floating point.  Under the same conditions the kernel of
    two non-empty graphs is a finite number in [[0 - 1e-5, 1 + 1e-5]]; it
    is never negative. *)
Theorem wlgk_range_rounded hash {F : Type} `{StandardModel F} G1 G2 num_iterations :
  well_formed G1 = true → well_formed G2 = true →
  no_nodes G1 = false → no_nodes G2 = false → 0 ≤ num_iterations →
  (num_iterations + 1) * (len (nodes G1) + len (nodes G2)) ≤ size_limit →
  ∃ h1 h2,
    _compute_colour_counts hash G1 num_iterations = Return h1
    ∧ _compute_colour_counts hash G2 num_iterations = Return h2
    ∧ wlgk hash (F := F) G1 G2 num_iterations
      = ([], Return (_compute_wlgk_from_colour_counts h1 h2))
    ∧ finite_with (_compute_wlgk_from_colour_counts h1 h2)
        (λ r, (0 <= r)%R ∧ (0 - SMALL_VALUE <= r <= 1 + SMALL_VALUE)%R)
    ∧ ∀ union_colours, union_colours ≡ₚ elements (dom h1 ∪ dom h2) →
        finite_with (wlgk_over union_colours h1 h2)
          (λ r, (0 <= r)%R ∧ (0 - SMALL_VALUE <= r <= 1 + SMALL_VALUE)%R).
Proof.
  intros Hwf1 Hwf2 Hne1 Hne2 Hk Hsize.
  destruct (wlgk_rounded hash G1 G2 num_iterations Hwf1 Hwf2 Hne1 Hne2 Hk Hsize)
    as (h1 & h2 & Hh1 & Hh2 & [Hn1 Hp1] & [Hn2 Hp2] & Hlim & Hw).
  exists h1, h2. do 3 (split; [done|]).
  assert (Hall : ∀ l, l ≡ₚ elements (dom h1 ∪ dom h2) →
            finite_with (wlgk_over l h1 h2)
              (λ r, (0 <= r)%R ∧ (0 - SMALL_VALUE <= r <= 1 + SMALL_VALUE)%R)).
  { intros l Hl.
    destruct (comparator_rounded l h1 h2 Hl Hn1 Hp1 Hn2 Hp2 Hlim) as (Hc & r & Hr & Hb).
    exists r. split; [done|]. by apply (in_unit_range _ r Hc). }
  split; [|done]. by apply (Hall (elements (dom h1 ∪ dom h2))).
Qed.

Lemma wlgk_range_rounded_witness :
  ∃ h1 h2,
    _compute_colour_counts cpython_hash G1 5 = Return h1
    ∧ _compute_colour_counts cpython_hash G2 5 = Return h2
    ∧ wlgk cpython_hash (F := float) G1 G2 5
      = ([], Return (_compute_wlgk_from_colour_counts h1 h2))
    ∧ finite_with (_compute_wlgk_from_colour_counts (F := float) h1 h2)
        (λ r, (0 <= r)%R ∧ (0 - SMALL_VALUE <= r <= 1 + SMALL_VALUE)%R)
    ∧ ∀ union_colours, union_colours ≡ₚ elements (dom h1 ∪ dom h2) →
        finite_with (wlgk_over (F := float) union_colours h1 h2)
          (λ r, (0 <= r)%R ∧ (0 - SMALL_VALUE <= r <= 1 + SMALL_VALUE)%R).
Proof.
  apply (wlgk_range_rounded cpython_hash G1 G2 5);
    [reflexivity | reflexivity | reflexivity | reflexivity | lia |].
  by vm_compute.
Defined.

(** C6. Symmetry, in floating point.  Under the same conditions the two
    orders of the arguments give finite numbers within [1e-5] of each
    other, whatever the two enumerations of the union of the colours. *)
Theorem wlgk_symmetric_rounded hash {F : Type} `{StandardModel F} G1 G2 num_iterations :
  well_formed G1 = true → well_formed G2 = true →
  no_nodes G1 = false → no_nodes G2 = false → 0 ≤ num_iterations →
  (num_iterations + 1) * (len (nodes G1) + len (nodes G2)) ≤ size_limit →
  ∃ h1 h2,
    wlgk hash (F := F) G1 G2 num_iterations
    = ([], Return (_compute_wlgk_from_colour_counts h1 h2))
    ∧ wlgk hash (F := F) G2 G1 num_iterations
      = ([], Return (_compute_wlgk_from_colour_counts h2 h1))
    ∧ ∀ union_12 union_21,
        union_12 ≡ₚ elements (dom h1 ∪ dom h2) →
        union_21 ≡ₚ elements (dom h2 ∪ dom h1) →
        ∃ r12 r21,
          fval (wlgk_over union_12 h1 h2) r12
          ∧ fval (wlgk_over union_21 h2 h1) r21
          ∧ (Rabs (r12 - r21) < SMALL_VALUE)%R.
Proof.
  intros Hwf1 Hwf2 Hne1 Hne2 Hk Hsize.
  destruct (wlgk_rounded hash G1 G2 num_iterations Hwf1 Hwf2 Hne1 Hne2 Hk Hsize)
    as (h1 & h2 & Hh1 & Hh2 & [Hn1 Hp1] & [Hn2 Hp2] & Hlim & Hw).
  exists h1, h2. split; [done|]. split.
  - rewrite wlgk_nonempty by done. by rewrite Hh2, Hh1.
  - intros l12 l21 Hl12 Hl21.
    assert (Hlim' : within_limit h2 h1) by (unfold within_limit in *; lia).
    destruct (comparator_rounded l12 h1 h2 Hl12 Hn1 Hp1 Hn2 Hp2 Hlim)
      as (Hc & r12 & Hr12 & Hb12).
    destruct (comparator_rounded l21 h2 h1 Hl21 Hn2 Hp2 Hn1 Hp1 Hlim')
      as (_ & r21 & Hr21 & Hb21).
    rewrite (union_comm_L (dom h2) (dom h1)), (cosine_comm _ h2 h1) in Hb21.
    exists r12, r21. do 2 (split; [done|]).
    by apply (close_to_each_other _ r12 r21 Hc).
Qed.

Lemma wlgk_symmetric_rounded_witness :
  ∃ h1 h2,
    wlgk cpython_hash (F := float) G3 G4 5
    = ([], Return (_compute_wlgk_from_colour_counts h1 h2))
    ∧ wlgk cpython_hash (F := float) G4 G3 5
      = ([], Return (_compute_wlgk_from_colour_counts h2 h1))
    ∧ ∀ union_12 union_21,
        union_12 ≡ₚ elements (dom h1 ∪ dom h2) →
        union_21 ≡ₚ elements (dom h2 ∪ dom h1) →
        ∃ r12 r21,
          fval (wlgk_over (F := float) union_12 h1 h2) r12
          ∧ fval (wlgk_over (F := float) union_21 h2 h1) r21
          ∧ (Rabs (r12 - r21) < SMALL_VALUE)%R.
Proof.
  apply (wlgk_symmetric_rounded cpython_hash G3 G4 5);
    [reflexivity | reflexivity | reflexivity | reflexivity | lia |].
  by vm_compute.
Defined.

(** ** NaN in binary64 *)

Lemma SFeqb_refl_false (s : spec_float) : SFeqb s s = false → s = S754_nan.
Proof.
  destruct s as [b|b| |b m e]; unfold SFeqb, SFcompare.
  - done.
  - by destruct b.
  - done.
  - destruct b; by rewrite Z.compare_refl, Pos.compare_cont_refl.
Qed.

Lemma is_nan_Prim2SF (x : float) : PrimFloat.is_nan x = true ↔ Prim2SF x = S754_nan.
Proof.
  unfold PrimFloat.is_nan. rewrite FloatAxioms.eqb_spec. split.
  - intros Hx. apply SFeqb_refl_false. by destruct (SFeqb _ _).
  - by intros ->.
Qed.

Lemma is_nan_mul (x y : float) :
  PrimFloat.is_nan x = true ∨ PrimFloat.is_nan y = true →
  PrimFloat.is_nan (x * y) = true.
Proof.
  rewrite !is_nan_Prim2SF, mul_spec. intros [-> | ->]; [done|].
  unfold SF64mul, SFmul. by destruct (Prim2SF x).
Qed.

Lemma is_nan_add (x y : float) :
  PrimFloat.is_nan x = true ∨ PrimFloat.is_nan y = true →
  PrimFloat.is_nan (x + y) = true.
Proof.
  rewrite !is_nan_Prim2SF, add_spec. intros [-> | ->]; [done|].
  unfold SF64add, SFadd. by destruct (Prim2SF x).
Qed.

Lemma binary64_dot_NaN (a b : list float) :
  length a = length b → a ≠ [] →
  Forall (λ x, PrimFloat.is_nan x = true) a ∨ Forall (λ x, PrimFloat.is_nan x = true) b →
  PrimFloat.is_nan (np_dot (F := float) a b) = true.
Proof.
  intros Hlen Hne Hab. unfold np_dot. simpl.
  assert (Hz : Forall (λ x, PrimFloat.is_nan x = true) (zip_with PrimFloat.mul a b)).
  { revert b Hlen Hab. clear Hne. induction a as [|x a IH]; intros [|y b] Hlen Hab;
      simpl in *; try done.
    apply Forall_cons. split.
    - apply is_nan_mul. destruct Hab as [Ha|Hb].
      + left. by apply Forall_cons in Ha as [? _].
      + right. by apply Forall_cons in Hb as [? _].
    - apply IH; [lia|]. destruct Hab as [Ha|Hb]; [left|right]; by eapply Forall_cons_1. }
  assert (Hnz : zip_with PrimFloat.mul a b ≠ []) by (destruct a, b; done).
  revert Hz Hnz. generalize (zip_with PrimFloat.mul a b) as l. generalize 0%float as acc.
  intros acc l. revert acc. induction l as [|x l IH]; intros acc Hz Hnz; [done|].
  apply Forall_cons in Hz as [Hx Hz]. simpl.
  assert (Hacc : PrimFloat.is_nan (acc + x) = true) by (apply is_nan_add; by right).
  destruct l as [|y l]; [done|].
  clear Hnz. revert Hacc. generalize (acc + x)%float as acc'. intros acc' Hacc'.
  clear IH. revert acc' Hacc'. induction (y :: l) as [|z l' IH']; intros acc' Hacc'; [done|].
  simpl. apply Forall_cons in Hz as [Hzz Hz]. apply IH'; [done|].
  apply is_nan_add. by left.
Qed.

Lemma binary64_dot_zero (v : list Z) :
  Forall (λ c, c = 0) v →
  np_dot (F := float) (float_of_int <$> v) (float_of_int <$> v) = 0%float.
Proof.
  intros Hv. unfold np_dot. simpl.
  assert (Hgen : ∀ acc, acc = 0%float →
            foldl PrimFloat.add acc
              (zip_with PrimFloat.mul (float_of_int <$> v) (float_of_int <$> v))
            = 0%float).
  { induction Hv as [|c v -> _ IH]; intros acc ->; [done|]. csimpl. by apply IH. }
  by apply Hgen.
Qed.

Lemma binary64_divide_zero (v : list Z) :
  Forall (λ c, c = 0) v →
  Forall (λ x, PrimFloat.is_nan x = true)
         (np_divide (F := float) v (np_linalg_norm v)).
Proof.
  intros Hv. unfold np_linalg_norm, np_divide. simpl.
  change (np_dot (float_of_int <$> v) (float_of_int <$> v))
    with (np_dot (F := float) (float_of_int <$> v) (float_of_int <$> v)).
  rewrite (binary64_dot_zero v Hv).
  apply Forall_fmap. eapply Forall_impl; [exact Hv|]. by intros c ->.
Qed.

Lemma binary64_zero_vector l (h1 h2 : gmap Z Z) :
  Forall (λ c, c = 0) (colour_vector l h1) ∨ Forall (λ c, c = 0) (colour_vector l h2) →
  (l = [] → wlgk_over (F := float) l h1 h2 = 0%float)
  ∧ (l ≠ [] → PrimFloat.is_nan (wlgk_over (F := float) l h1 h2) = true).
Proof.
  intros Hz. split.
  - by intros ->.
  - intros Hne. unfold wlgk_over. apply binary64_dot_NaN.
    + unfold np_divide. by rewrite !length_fmap, !length_colour_vector.
    + unfold np_divide, colour_vector. by destruct l.
    + destruct Hz as [Hz|Hz]; [left|right]; by apply binary64_divide_zero.
Qed.

(** C8, as the code has it.  On histograms whose counts numpy holds as
    [int64], a count vector that is entirely zero is no error to the
    comparator: whatever the enumeration of the union of the colours, the
    result is NaN when the union is non-empty and [0.0] when it is empty,
    in binary64 as in exact arithmetic. *)
Theorem zero_vector_returns (h1 h2 : gmap Z Z) :
  int64_counts h1 → int64_counts h2 →
  ∀ union_colours, union_colours ≡ₚ elements (dom h1 ∪ dom h2) →
  Forall (λ c, c = 0) (colour_vector union_colours h1)
  ∨ Forall (λ c, c = 0) (colour_vector union_colours h2) →
  (union_colours = [] →
     wlgk_over (F := float) union_colours h1 h2 = 0%float
     ∧ wlgk_over (F := ideal) union_colours h1 h2 = Fin 0)
  ∧ (union_colours ≠ [] →
     PrimFloat.is_nan (wlgk_over (F := float) union_colours h1 h2) = true
     ∧ wlgk_over (F := ideal) union_colours h1 h2 = NaN).
Proof.
  intros _ _ l _ Hz.
  destruct (binary64_zero_vector l h1 h2 Hz) as [Hb0 Hbn].
  destruct (comparator_zero_vector l h1 h2 Hz) as [Hi0 Hin].
  split; intros Hl; split; auto.
Qed.

Lemma zero_vector_returns_witness :
  ([7] = [] →
     wlgk_over (F := float) [7] ∅ {[7 := 1]} = 0%float
     ∧ wlgk_over (F := ideal) [7] ∅ {[7 := 1]} = Fin 0)
  ∧ ([7] ≠ [] →
     PrimFloat.is_nan (wlgk_over (F := float) [7] ∅ {[7 := 1]}) = true
     ∧ wlgk_over (F := ideal) [7] ∅ {[7 := 1]} = NaN).
Proof.
  apply (zero_vector_returns ∅ {[7 := 1]}).
  - apply map_Forall_empty.
  - apply map_Forall_singleton. unfold int64. lia.
  - by rewrite union_of_example.
  - left. by repeat constructor.
Defined.

(** ** Further properties under rounding *)

Lemma cosine_zero_iff_disjoint (h1 h2 : gmap Z Z) :
  h1 ≠ ∅ → counts_positive h1 → h2 ≠ ∅ → counts_positive h2 →
  cosine (elements (dom h1 ∪ dom h2)) h1 h2 = 0%R ↔ dom h1 ## dom h2.
Proof.
  intros Hn1 Hp1 Hn2 Hp2. set (l := elements (dom h1 ∪ dom h2)).
  pose proof (norm_of_histogram l h1 Hn1 Hp1 (in_union_l h1 h2)) as H1.
  pose proof (norm_of_histogram l h2 Hn2 Hp2 (in_union_r h1 h2)) as H2.
  unfold cosine.
  assert (Hnn : (0 < normR (colour_vector l h1) * normR (colour_vector l h2))%R)
    by by apply Rmult_lt_0_compat.
  assert (Hd : dotR (realv (colour_vector l h1)) (realv (colour_vector l h2)) = 0%R
               ↔ dom h1 ## dom h2).
  { rewrite dotR_colour_vector_zero by done. unfold l. split.
    - intros Hall c Hc1 Hc2. apply (Hall c); [|done]. by apply in_union_l.
    - intros Hdis c _ [Hc1 Hc2]. by apply (Hdis c). }
  rewrite <- Hd. split.
  - intros Hz.
    apply (Rmult_eq_compat_r (normR (colour_vector l h1) * normR (colour_vector l h2)))
      in Hz. rewrite Rmult_0_l in Hz. rewrite <- Hz. field. lra.
  - intros ->. unfold Rdiv. apply Rmult_0_l.
Qed.

(** X13. Two histograms that share no colour have similarity exactly 0,
    and only those: in every arithmetic that follows the standard model the
    comparator returns a finite non-negative number that is 0 exactly when
    the two sets of colours are disjoint. *)
Theorem comparator_disjoint_rounded {F : Type} `{StandardModel F}
    (union_colours : list Z) (h1 h2 : gmap Z Z) :
  union_colours ≡ₚ elements (dom h1 ∪ dom h2) →
  h1 ≠ ∅ → counts_positive h1 → h2 ≠ ∅ → counts_positive h2 →
  within_limit h1 h2 →
  finite_with (wlgk_over union_colours h1 h2)
    (λ r, (0 <= r)%R ∧ (r = 0%R ↔ dom h1 ## dom h2)).
Proof.
  intros Hl Hn1 Hp1 Hn2 Hp2 Hlim.
  destruct (comparator_rounded union_colours h1 h2 Hl Hn1 Hp1 Hn2 Hp2 Hlim)
    as ([Hc0 Hc1] & r & Hr & Hlo & Hhi).
  exists r. split; [done|].
  assert (Ht : (0 < / (1 + tolerance))%R)
    by (apply Rinv_0_lt_compat; unfold tolerance; lra).
  assert (Hq : (0 <= cosine (elements (dom h1 ∪ dom h2)) h1 h2 / (1 + tolerance))%R)
    by (apply Rmult_le_pos; lra).
  split; [lra|].
  rewrite <- (cosine_zero_iff_disjoint h1 h2 Hn1 Hp1 Hn2 Hp2). split.
  - intros ->. unfold Rdiv in *. nra.
  - intros Hc. rewrite Hc in Hlo, Hhi. unfold Rdiv in Hlo.
    rewrite Rmult_0_l in Hlo, Hhi. lra.
Qed.

Lemma comparator_disjoint_rounded_witness :
  finite_with (wlgk_over (F := float) [7; 8] {[7 := 1]} {[8 := 2]})
    (λ r, (0 <= r)%R
          ∧ (r = 0%R ↔ dom ({[7 := 1]} : gmap Z Z) ## dom ({[8 := 2]} : gmap Z Z))).
Proof.
  apply (comparator_disjoint_rounded [7; 8] {[7 := 1]} {[8 := 2]});
    try first [ apply singleton_non_empty | apply singleton_counts_positive; lia ].
  - assert (Hu : elements (dom ({[7 := 1]} : gmap Z Z) ∪ dom ({[8 := 2]} : gmap Z Z))
                 = [7; 8]) by (vm_compute; reflexivity).
    by rewrite Hu.
  - by vm_compute.
Defined.

Lemma total_scale a (h : gmap Z Z) : total (scale a h) = a * total h.
Proof.
  induction h as [|c v h Hc IH] using map_ind.
  - unfold scale. rewrite fmap_empty, total_empty. lia.
  - unfold scale in *. rewrite fmap_insert.
    rewrite !total_insert_fresh; [|done|by rewrite lookup_fmap, Hc].
    rewrite IH. lia.
Qed.

(** X14. The comparator sees proportions, not sizes: multiplying every
    count of a histogram by a positive integer changes the similarity by
    rounding only, in every arithmetic that follows the standard model. *)
Theorem comparator_scale_rounded {F : Type} `{StandardModel F} (a : Z)
    (union_scaled union_colours : list Z) (h1 h2 : gmap Z Z) :
  0 < a → h1 ≠ ∅ → counts_positive h1 → h2 ≠ ∅ → counts_positive h2 →
  within_limit (scale a h1) h2 →
  union_scaled ≡ₚ elements (dom (scale a h1) ∪ dom h2) →
  union_colours ≡ₚ elements (dom h1 ∪ dom h2) →
  ∃ r_scaled r,
    fval (wlgk_over union_scaled (scale a h1) h2) r_scaled
    ∧ fval (wlgk_over union_colours h1 h2) r
    ∧ (Rabs (r_scaled - r) < SMALL_VALUE)%R.
Proof.
  intros Ha Hn1 Hp1 Hn2 Hp2 Hlim Hls Hl.
  assert (Hlim' : within_limit h1 h2).
  { unfold within_limit in *. rewrite total_scale in Hlim.
    pose proof (total_ge_size h1 Hp1). nia. }
  destruct (comparator_rounded union_scaled (scale a h1) h2 Hls
              (scale_non_empty a h1 Hn1) (scale_counts_positive a h1 Ha Hp1) Hn2 Hp2 Hlim)
    as (_ & rs & Hrs & Hbs).
  destruct (comparator_rounded union_colours h1 h2 Hl Hn1 Hp1 Hn2 Hp2 Hlim')
    as (Hc & r & Hr & Hb).
  rewrite dom_scale in Hbs. rewrite cosine_scale_l in Hbs; [|done| |].
  - exists rs, r. do 2 (split; [done|]). by apply (close_to_each_other _ rs r Hc).
  - apply norm_of_histogram; [done..|]. apply in_union_l.
  - apply norm_of_histogram; [done..|]. apply in_union_r.
Qed.

Lemma comparator_scale_rounded_witness :
  ∃ r_scaled r,
    fval (wlgk_over (F := float) [7; 8] (scale 3 {[7 := 1; 8 := 1]}) {[8 := 2]}) r_scaled
    ∧ fval (wlgk_over (F := float) [8; 7] {[7 := 1; 8 := 1]} {[8 := 2]}) r
    ∧ (Rabs (r_scaled - r) < SMALL_VALUE)%R.
Proof.
  assert (Hu : elements (dom ({[7 := 1; 8 := 1]} : gmap Z Z) ∪ dom ({[8 := 2]} : gmap Z Z))
               = [7; 8]) by (vm_compute; reflexivity).
  apply (comparator_scale_rounded 3 [7; 8] [8; 7] {[7 := 1; 8 := 1]} {[8 := 2]}).
  - lia.
  - apply insert_non_empty.
  - apply map_Forall_insert_2; [lia|]. apply singleton_counts_positive. lia.
  - apply singleton_non_empty.
  - apply singleton_counts_positive. lia.
  - by vm_compute.
  - by rewrite dom_scale, Hu.
  - rewrite Hu. apply Permutation_swap.
Defined.

(** X11. The kernel sees the structure of the graphs only: renaming the
    nodes of either graph leaves both histograms unchanged, so the kernel
    of the renamed graphs and the kernel of the original ones are finite
    numbers within [1e-5] of each other, whatever the two enumerations of
    the union of the colours. *)
Theorem wlgk_relabelled_rounded hash {F : Type} `{StandardModel F} (π1 π2 : Z → Z)
    G1 G1' G2 G2' num_iterations :
  Inj (=) (=) π1 → Inj (=) (=) π2 →
  relabelled π1 G1 G1' → relabelled π2 G2 G2' →
  well_formed G1 = true → well_formed G2 = true →
  no_nodes G1 = false → no_nodes G2 = false → 0 ≤ num_iterations →
  (num_iterations + 1) * (len (nodes G1) + len (nodes G2)) ≤ size_limit →
  ∃ h1 h2,
    wlgk hash (F := F) G1 G2 num_iterations
    = ([], Return (_compute_wlgk_from_colour_counts h1 h2))
    ∧ wlgk hash (F := F) G1' G2' num_iterations
      = ([], Return (_compute_wlgk_from_colour_counts h1 h2))
    ∧ ∀ union_colours union_renamed,
        union_colours ≡ₚ elements (dom h1 ∪ dom h2) →
        union_renamed ≡ₚ elements (dom h1 ∪ dom h2) →
        ∃ r r',
          fval (wlgk_over union_colours h1 h2) r
          ∧ fval (wlgk_over union_renamed h1 h2) r'
          ∧ (Rabs (r - r') < SMALL_VALUE)%R.
Proof.
  intros Hi1 Hi2 Hr1 Hr2 Hwf1 Hwf2 Hne1 Hne2 Hk Hsize.
  destruct (wlgk_rounded hash G1 G2 num_iterations Hwf1 Hwf2 Hne1 Hne2 Hk Hsize)
    as (h1 & h2 & Hh1 & Hh2 & [Hn1 Hp1] & [Hn2 Hp2] & Hlim & Hw).
  exists h1, h2. split; [done|]. split.
  - rewrite wlgk_nonempty
      by by rewrite ?(relabelled_no_nodes π1 G1 G1' Hr1), ?(relabelled_no_nodes π2 G2 G2' Hr2).
    rewrite (relabelled_compute_colour_counts hash π1 G1 G1' Hr1)
      by by apply well_formed_dangling.
    rewrite (relabelled_compute_colour_counts hash π2 G2 G2' Hr2)
      by by apply well_formed_dangling.
    by rewrite Hh1, Hh2.
  - intros l l' Hl Hl'.
    destruct (comparator_rounded l h1 h2 Hl Hn1 Hp1 Hn2 Hp2 Hlim) as (Hc & r & Hr & Hb).
    destruct (comparator_rounded l' h1 h2 Hl' Hn1 Hp1 Hn2 Hp2 Hlim) as (_ & r' & Hr' & Hb').
    exists r, r'. do 2 (split; [done|]). by apply (close_to_each_other _ r r' Hc).
Qed.

Lemma wlgk_relabelled_rounded_witness :
  ∃ h1 h2,
    wlgk cpython_hash (F := float) G3 G4 5
    = ([], Return (_compute_wlgk_from_colour_counts h1 h2))
    ∧ wlgk cpython_hash (F := float) G3_shifted G4 5
      = ([], Return (_compute_wlgk_from_colour_counts h1 h2))
    ∧ ∀ union_colours union_renamed,
        union_colours ≡ₚ elements (dom h1 ∪ dom h2) →
        union_renamed ≡ₚ elements (dom h1 ∪ dom h2) →
        ∃ r r',
          fval (wlgk_over (F := float) union_colours h1 h2) r
          ∧ fval (wlgk_over (F := float) union_renamed h1 h2) r'
          ∧ (Rabs (r - r') < SMALL_VALUE)%R.
Proof.
  apply (wlgk_relabelled_rounded cpython_hash shift10 Datatypes.id G3 G3_shifted G4 G4 5);
    [apply _ | apply _ | apply G3_shifted_relabelled | apply relabelled_refl
    | reflexivity | reflexivity | reflexivity | reflexivity | lia |].
  by vm_compute.
Defined.

(** X12. Isomorphic graphs are maximally similar: the kernel of a non-empty
    graph and a renamed copy of it is a finite number within [1e-5] of 1,
    whatever the enumeration of the union of the colours. *)
Theorem wlgk_isomorphic_rounded hash {F : Type} `{StandardModel F} (π : Z → Z)
    G G' num_iterations :
  Inj (=) (=) π → relabelled π G G' →
  well_formed G = true → no_nodes G = false → 0 ≤ num_iterations →
  (num_iterations + 1) * (len (nodes G) + len (nodes G)) ≤ size_limit →
  ∃ h,
    _compute_colour_counts hash G num_iterations = Return h
    ∧ _compute_colour_counts hash G' num_iterations = Return h
    ∧ wlgk hash (F := F) G G' num_iterations
      = ([], Return (_compute_wlgk_from_colour_counts h h))
    ∧ ∀ union_colours, union_colours ≡ₚ elements (dom h ∪ dom h) →
        finite_with (wlgk_over union_colours h h)
          (λ r, (Rabs (1 - r) < SMALL_VALUE)%R).
Proof.
  intros Hi Hr Hwf Hne Hk Hsize.
  destruct (histograms_within_limit hash G G num_iterations Hwf Hwf Hne Hne Hk Hsize)
    as (h & h' & Hh & Hh' & [Hn Hp] & _ & Hlim).
  assert (h' = h) as -> by congruence.
  assert (Hh'' : _compute_colour_counts hash G' num_iterations = Return h).
  { rewrite (relabelled_compute_colour_counts hash π G G' Hr)
      by by apply well_formed_dangling. done. }
  exists h. do 2 (split; [done|]). split.
  - rewrite wlgk_nonempty by by rewrite ?(relabelled_no_nodes π G G' Hr).
    by rewrite Hh, Hh''.
  - intros l Hl.
    destruct (comparator_rounded l h h Hl Hn Hp Hn Hp Hlim) as (_ & r & Hr' & Hb).
    rewrite cosine_self in Hb
      by (apply norm_of_histogram; [done..|]; apply in_union_l).
    exists r. split; [done|]. by apply close_to_one.
Qed.

Lemma wlgk_isomorphic_rounded_witness :
  ∃ h,
    _compute_colour_counts cpython_hash G3 5 = Return h
    ∧ _compute_colour_counts cpython_hash G3_shifted 5 = Return h
    ∧ wlgk cpython_hash (F := float) G3 G3_shifted 5
      = ([], Return (_compute_wlgk_from_colour_counts h h))
    ∧ ∀ union_colours, union_colours ≡ₚ elements (dom h ∪ dom h) →
        finite_with (wlgk_over (F := float) union_colours h h)
          (λ r, (Rabs (1 - r) < SMALL_VALUE)%R).
Proof.
  apply (wlgk_isomorphic_rounded cpython_hash shift10 G3 G3_shifted 5);
    [apply _ | apply G3_shifted_relabelled | reflexivity | reflexivity | lia |].
  by vm_compute.
Defined.

Lemma cosine_scaled_copies l a b (m : gmap Z Z) :
  0 < a → 0 < b → (0 < normR (colour_vector l m))%R →
  cosine l (scale a m) (scale b m) = 1%R.
Proof.
  intros Ha Hb Hm.
  assert (Hbm : (0 < normR (colour_vector l (scale b m)))%R).
  { rewrite normR_scale by done. apply Rmult_lt_0_compat; [by apply IZR_lt|done]. }
  rewrite cosine_scale_l by done.
  rewrite cosine_comm, cosine_scale_l by done.
  by apply cosine_self.
Qed.

(** X16. The kernel cannot tell regular graphs of one profile apart: two
    non-empty graphs whose nodes all have the same degree and number of
    neighbours, such as two cycles of different lengths, have a similarity
    within [1e-5] of 1, whatever the enumeration of the union of the
    colours. *)
Theorem wlgk_regular_rounded hash {F : Type} `{StandardModel F} p G1 G2 num_iterations :
  well_formed G1 = true → well_formed G2 = true →
  regular p G1 = true → regular p G2 = true →
  no_nodes G1 = false → no_nodes G2 = false → 0 ≤ num_iterations →
  (num_iterations + 1) * (len (nodes G1) + len (nodes G2)) ≤ size_limit →
  ∃ h1 h2,
    wlgk hash (F := F) G1 G2 num_iterations
    = ([], Return (_compute_wlgk_from_colour_counts h1 h2))
    ∧ ∀ union_colours, union_colours ≡ₚ elements (dom h1 ∪ dom h2) →
        finite_with (wlgk_over union_colours h1 h2)
          (λ r, (Rabs (1 - r) < SMALL_VALUE)%R).
Proof.
  intros Hwf1 Hwf2 Hr1 Hr2 Hne1 Hne2 Hk Hsize.
  destruct (wlgk_rounded hash G1 G2 num_iterations Hwf1 Hwf2 Hne1 Hne2 Hk Hsize)
    as (h1 & h2 & Hh1 & Hh2 & [Hn1 Hp1] & [Hn2 Hp2] & Hlim & Hw).
  exists h1, h2. split; [done|]. intros l Hl.
  destruct (comparator_rounded l h1 h2 Hl Hn1 Hp1 Hn2 Hp2 Hlim) as (_ & r & Hr & Hb).
  exists r. split; [done|]. apply close_to_one.
  set (m := uniform_histogram hash p (Z.to_nat num_iterations)).
  assert (Hs1 : h1 = scale (len (nodes G1)) m).
  { rewrite compute_colour_counts_cases, (well_formed_dangling G1 Hwf1),
      (regular_histogram_after hash p G1 Hwf1 Hr1 _ Hne1) in Hh1. by injection Hh1. }
  assert (Hs2 : h2 = scale (len (nodes G2)) m).
  { rewrite compute_colour_counts_cases, (well_formed_dangling G2 Hwf2),
      (regular_histogram_after hash p G2 Hwf2 Hr2 _ Hne2) in Hh2. by injection Hh2. }
  assert (Hone : cosine (elements (dom h1 ∪ dom h2)) h1 h2 = 1%R).
  { rewrite Hs1, Hs2. rewrite !dom_scale.
    apply cosine_scaled_copies; try by apply no_nodes_false.
    apply norm_of_histogram.
    - apply uniform_histogram_non_empty.
    - apply uniform_histogram_positive.
    - intros c Hc. apply elem_of_elements. set_solver. }
  by rewrite Hone in Hb.
Qed.

Lemma wlgk_regular_rounded_witness :
  ∃ h1 h2,
    wlgk cpython_hash (F := float) G3 G4 5
    = ([], Return (_compute_wlgk_from_colour_counts h1 h2))
    ∧ ∀ union_colours, union_colours ≡ₚ elements (dom h1 ∪ dom h2) →
        finite_with (wlgk_over (F := float) union_colours h1 h2)
          (λ r, (Rabs (1 - r) < SMALL_VALUE)%R).
Proof.
  apply (wlgk_regular_rounded cpython_hash cycle_profile G3 G4 5);
    [reflexivity | reflexivity | reflexivity | reflexivity | reflexivity | reflexivity
    | lia |].
  by vm_compute.
Defined.
